(** * Node fixers and graph fixers of the BMG compiler (fix_problem.py)

    A shallow embedding of [beanmachine/ppl/compiler/fix_problem.py]:
    the node fixer combinators [node_fixer_first_match] and [type_guard],
    the pass [ancestors_first] built by [ancestors_first_graph_fixer], and
    the template method [ProblemFixerBase.fix_problems].

    Python objects are mutable and every callable may have effects.  The
    embedding makes this explicit by state passing:
    - a node is its identity (a [positive]); [is] and dictionary or set
      membership on nodes are equality of identities;
    - the input lists of the nodes form the store [Graph]; the assignment
      [node.inputs[i] = r] is [set_input];
    - everything else a collaborator may read or change (the typer's cache,
      counters of a stateful fixer, nodes freshly added to the builder) is the
      world [W], threaded through every call of a collaborator.  A collaborator
      reads the input lists but does not assign to them: only the drivers do. *)

From stdpp Require Import base gmap sets list.

(** ** Data model *)

Abbreviation BMGNode := positive (only parsing).
Abbreviation Graph := (gmap positive (list positive)) (only parsing).

(** [NodeFixerResult = Union[bn.BMGNode, None, NodeFixerError]], where the only
    [NodeFixerError] instances are the two sentinels [Inapplicable] and [Fatal]. *)
Inductive NodeFixerResult : Type :=
  | ANode (n : BMGNode)
  | PyNone
  | Inapplicable
  | Fatal.

Global Instance NodeFixerResult_eq_dec : EqDecision NodeFixerResult.
Proof. solve_decision. Defined.

(** A fixer declines when it returns [None] or [Inapplicable]. *)
Definition declines (result : NodeFixerResult) : Prop :=
  result = PyNone ∨ result = Inapplicable.

(** [node.inputs], the ordered list of input edges of [node]. *)
Definition inputs (g : Graph) (node : BMGNode) : list BMGNode :=
  default [] (g !! node).

(** [node.inputs[i] = r] *)
Definition set_input (g : Graph) (node : BMGNode) (i : nat) (r : BMGNode) : Graph :=
  <[node := <[i := r]> (inputs g node)]> g.

Abbreviation ErrorReport E := (list E) (only parsing).

(** Modelled from the spec: the Error Report collaborator (error_report.py is
    not part of the sources at hand) is an ordered, append-only collection of
    diagnostics, here [ErrorReport E]; [add_error] appends one diagnostic. *)
Definition add_error {E : Type} (report : ErrorReport E) (error : E) : ErrorReport E :=
  report ++ [error].

(** ** Node fixers and their combinators *)

Section NodeFixers.
Context {W : Type}.

(** [NodeFixer = Callable[[bn.BMGNode], NodeFixerResult]] *)
Definition NodeFixer : Type := Graph -> W -> BMGNode -> NodeFixerResult * W.

(** [result is not None and result is not Inapplicable] *)
Definition is_not_None (result : NodeFixerResult) : bool :=
  match result with PyNone => false | _ => true end.

Definition is_not_Inapplicable (result : NodeFixerResult) : bool :=
  match result with Inapplicable => false | _ => true end.

(** The loop of [first_match]: [for fixer in fixers: ...; return Inapplicable]. *)
Fixpoint first_match (fixers : list NodeFixer) (g : Graph) (w : W) (node : BMGNode)
  : NodeFixerResult * W :=
  match fixers with
  | [] => (Inapplicable, w)
  | fixer :: rest =>
      let '(result, w') := fixer g w node in
      if is_not_None result && is_not_Inapplicable result
      then (result, w')
      else first_match rest g w' node
  end.

Definition node_fixer_first_match (fixers : list NodeFixer) : NodeFixer :=
  first_match fixers.

(** The classes of the node hierarchy (bmg_nodes.py) are not part of the
    sources at hand; [isinstance node t] is taken as given. *)
Context {T : Type} (isinstance : BMGNode -> T -> bool).

Definition type_guard (t : T) (fixer : NodeFixer) : NodeFixer :=
  fun g w node => if isinstance node t then fixer g w node else (PyNone, w).

(** Calling every fixer of a list in turn on the same node, whatever they
    return; used to say what [first_match] has done before it stops. *)
Fixpoint call_all (fixers : list NodeFixer) (g : Graph) (w : W) (node : BMGNode)
  : list NodeFixerResult * W :=
  match fixers with
  | [] => ([], w)
  | fixer :: rest =>
      let '(result, w') := fixer g w node in
      let '(results, w'') := call_all rest g w' node in
      (result :: results, w'')
  end.
End NodeFixers.

Arguments NodeFixer : clear implicits.

(** ** The ancestors-first graph fixer *)

Section GraphFixer.
Context {W E : Type}.

(** [bmg.all_ancestor_nodes()]: the builder's enumeration of the nodes of
    interest (bm_graph_builder.py is not part of the sources at hand). *)
Variable all_ancestor_nodes : Graph -> list BMGNode.
(** [typer.update_type(node)] *)
Variable update_type : Graph -> W -> BMGNode -> W.
Variable node_fixer : NodeFixer W.
(** [get_error: Optional[Callable[[bn.BMGNode, int], Optional[BMGError]]]] *)
Variable get_error : option (Graph -> W -> BMGNode -> nat -> option E * W).

(** The graph, the world, and the local variables of [ancestors_first]. *)
Record PassState : Type := mkPass {
  bmg : Graph;
  world : W;
  errors : ErrorReport E;
  replacements : gmap positive positive;
  reported : gset positive;
  made_progress : bool
}.

Definition with_world (s : PassState) (w : W) : PassState :=
  mkPass (bmg s) w (errors s) (replacements s) (reported s) (made_progress s).

(** The body of [for i in range(len(node.inputs))]; the flag is
    [node_was_updated].  The index comes from [range(len(node.inputs))], so
    [node.inputs[i]] is there.  Between reading [c = node.inputs[i]] and the
    tests [node.inputs[i] is not ...] nothing assigns to the edge, so these
    tests compare [c]. *)
Definition fix_input (node : BMGNode) (acc : PassState * bool) (i : nat)
  : PassState * bool :=
  let '(s, node_was_updated) := acc in
  match inputs (bmg s) node !! i with
  | None => acc
  | Some c =>
      if decide (c ∈ reported s) then acc
      else
        match replacements s !! c with
        | Some r =>
            if decide (c = r) then acc
            else (mkPass (set_input (bmg s) node i r) (world s) (errors s)
                    (replacements s) (reported s) (made_progress s), true)
        | None =>
            let '(replacement, w) := node_fixer (bmg s) (world s) c in
            match replacement with
            | ANode r =>
                if decide (c = r)
                then (mkPass (bmg s) w (errors s) (<[c := r]> (replacements s))
                        (reported s) (made_progress s), node_was_updated)
                else (mkPass (set_input (bmg s) node i r) w (errors s)
                        (<[c := r]> (replacements s)) (reported s) true, true)
            | Fatal =>
                match get_error with
                | Some get_error =>
                    let '(error, w') := get_error (bmg s) w node i in
                    match error with
                    | Some error =>
                        (mkPass (bmg s) w' (add_error (errors s) error)
                           (replacements s) ({[c]} ∪ reported s) (made_progress s),
                         node_was_updated)
                    | None =>
                        (mkPass (bmg s) w' (errors s) (replacements s)
                           ({[c]} ∪ reported s) (made_progress s), node_was_updated)
                    end
                | None =>
                    (mkPass (bmg s) w (errors s) (replacements s)
                       ({[c]} ∪ reported s) (made_progress s), node_was_updated)
                end
            | PyNone | Inapplicable => (with_world s w, node_was_updated)
            end
        end
  end.

(** [for i in range(len(node.inputs)): ...] *)
Definition fix_inputs (node : BMGNode) (s : PassState) : PassState * bool :=
  foldl (fix_input node) (s, false) (seq 0 (length (inputs (bmg s) node))).

(** The body of [for node in nodes]. *)
Definition fix_node (s : PassState) (node : BMGNode) : PassState :=
  let '(s', node_was_updated) := fix_inputs node s in
  if node_was_updated then with_world s' (update_type (bmg s') (world s') node)
  else s'.

Definition start (g : Graph) (w : W) : PassState :=
  mkPass g w [] ∅ ∅ false.

(** The state after the nodes [nodes] have been enumerated. *)
Definition run_nodes (s : PassState) (nodes : list BMGNode) : PassState :=
  foldl fix_node s nodes.

(** [ancestors_first()]: returns [(made_progress, errors)]; the graph and the
    world it leaves behind are returned too. *)
Definition ancestors_first (g : Graph) (w : W) : bool * ErrorReport E * Graph * W :=
  let s := run_nodes (start g w) (all_ancestor_nodes g) in
  (made_progress s, errors s, bmg s, world s).
End GraphFixer.

Arguments PassState : clear implicits.

(** ** The template method [ProblemFixerBase.fix_problems] *)

Module ProblemFixerBase.
Section ProblemFixer.
Context {W E : Type}.

Variable all_ancestor_nodes : Graph -> list BMGNode.
Variable update_type : Graph -> W -> BMGNode -> W.
(** The three overridable methods of a subclass. *)
Variable _needs_fixing : Graph -> W -> BMGNode -> bool * W.
Variable _get_replacement : Graph -> W -> BMGNode -> option BMGNode * W.
Variable _get_error : Graph -> W -> BMGNode -> nat -> option E * W.

(** [self._bmg], the world, [self.errors], and the local variables of
    [fix_problems]. *)
Record State : Type := mkState {
  bmg : Graph;
  world : W;
  errors : ErrorReport E;
  replacements : gmap positive positive;
  reported : gset positive
}.

(** The body of [for i in range(len(node.inputs))]; the flag is
    [node_was_updated]. *)
Definition fix_input (node : BMGNode) (acc : State * bool) (i : nat) : State * bool :=
  let '(s, node_was_updated) := acc in
  match inputs (bmg s) node !! i with
  | None => acc
  | Some c =>
      match replacements s !! c with
      | Some r =>
          if decide (c = r) then acc
          else (mkState (set_input (bmg s) node i r) (world s) (errors s)
                  (replacements s) (reported s), true)
      | None =>
          let '(needs, w1) := _needs_fixing (bmg s) (world s) c in
          if negb needs
          then (mkState (bmg s) w1 (errors s) (replacements s) (reported s),
                node_was_updated)
          else
            let '(replacement, w2) := _get_replacement (bmg s) w1 c in
            match replacement with
            | Some r =>
                if decide (c = r)
                then (mkState (bmg s) w2 (errors s) (<[c := r]> (replacements s))
                        (reported s), node_was_updated)
                else (mkState (set_input (bmg s) node i r) w2 (errors s)
                        (<[c := r]> (replacements s)) (reported s), true)
            | None =>
                if decide (c ∈ reported s)
                then (mkState (bmg s) w2 (errors s) (replacements s) (reported s),
                      node_was_updated)
                else
                  let '(error, w3) := _get_error (bmg s) w2 node i in
                  match error with
                  | Some error =>
                      (mkState (bmg s) w3 (add_error (errors s) error)
                         (replacements s) ({[c]} ∪ reported s), node_was_updated)
                  | None =>
                      (mkState (bmg s) w3 (errors s) (replacements s)
                         ({[c]} ∪ reported s), node_was_updated)
                  end
            end
      end
  end.

Definition fix_inputs (node : BMGNode) (s : State) : State * bool :=
  foldl (fix_input node) (s, false) (seq 0 (length (inputs (bmg s) node))).

Definition fix_node (s : State) (node : BMGNode) : State :=
  let '(s', node_was_updated) := fix_inputs node s in
  if node_was_updated
  then mkState (bmg s') (update_type (bmg s') (world s') node) (errors s')
         (replacements s') (reported s')
  else s'.

(** [self.errors] is passed in: it is created by [__init__], not by
    [fix_problems]. *)
Definition start (g : Graph) (w : W) (report : ErrorReport E) : State :=
  mkState g w report ∅ ∅.

Definition run_nodes (s : State) (nodes : list BMGNode) : State :=
  foldl fix_node s nodes.

(** [fix_problems()]: returns nothing; what it leaves behind is [self.errors],
    the graph and the world. *)
Definition fix_problems (g : Graph) (w : W) (report : ErrorReport E)
  : ErrorReport E * Graph * W :=
  let s := run_nodes (start g w report) (all_ancestor_nodes g) in
  (errors s, bmg s, world s).

(** [_get_error] as [ProblemFixerBase] defines it: [return None]. *)
Definition default_get_error (g : Graph) (w : W) (n : BMGNode) (index : nat)
  : option E * W := (None, w).

(** [_get_replacement] as [ProblemFixerBase] defines it: its body is [pass],
    so it returns [None]. *)
Definition default_get_replacement (g : Graph) (w : W) (n : BMGNode)
  : option BMGNode * W := (None, w).
End ProblemFixer.

Arguments State : clear implicits.
End ProblemFixerBase.

(** ** Recording collaborators

    To speak of which calls a driver makes, a collaborator is wrapped so that
    it notes each call it receives, in order, in a log kept in the world.  The
    wrapped collaborator is again a collaborator, and behaves as the one it
    wraps: the log apart, a pass run with recording collaborators is the pass
    run with the collaborators themselves ([recording_is_transparent],
    [pf_recording_is_transparent]). *)

Inductive Call (E : Type) : Type :=
  | node_fixer_call (c : BMGNode) (result : NodeFixerResult)
  | get_error_call (node : BMGNode) (index : nat) (c : option BMGNode) (error : option E)
  | update_type_call (node : BMGNode)
  | needs_fixing_call (c : BMGNode) (needs : bool)
  | get_replacement_call (c : BMGNode) (replacement : option BMGNode).

Arguments node_fixer_call {E} c result.
Arguments get_error_call {E} node index c error.
Arguments update_type_call {E} node.
Arguments needs_fixing_call {E} c needs.
Arguments get_replacement_call {E} c replacement.

(** The calls noted so far, oldest first. *)
Abbreviation Log E := (list (Call E)) (only parsing).

Section Recording.
Context {W E : Type}.

Definition rec_update_type (update_type : Graph -> W -> BMGNode -> W)
  : Graph -> W * Log E -> BMGNode -> W * Log E :=
  fun g wl node => (update_type g wl.1 node, wl.2 ++ [update_type_call node]).

Definition rec_node_fixer (node_fixer : NodeFixer W) : NodeFixer (W * Log E) :=
  fun g wl c =>
    let '(result, w) := node_fixer g wl.1 c in
    (result, (w, wl.2 ++ [node_fixer_call c result])).

(** The call [get_error(node, i)] is noted with the input the edge
    [(node, i)] points at when the call is made. *)
Definition rec_get_error (get_error : Graph -> W -> BMGNode -> nat -> option E * W)
  : Graph -> W * Log E -> BMGNode -> nat -> option E * (W * Log E) :=
  fun g wl node i =>
    let '(error, w) := get_error g wl.1 node i in
    (error, (w, wl.2 ++ [get_error_call node i (inputs g node !! i) error])).

Definition rec_needs_fixing (needs_fixing : Graph -> W -> BMGNode -> bool * W)
  : Graph -> W * Log E -> BMGNode -> bool * (W * Log E) :=
  fun g wl c =>
    let '(needs, w) := needs_fixing g wl.1 c in
    (needs, (w, wl.2 ++ [needs_fixing_call c needs])).

Definition rec_get_replacement
  (get_replacement : Graph -> W -> BMGNode -> option BMGNode * W)
  : Graph -> W * Log E -> BMGNode -> option BMGNode * (W * Log E) :=
  fun g wl c =>
    let '(replacement, w) := get_replacement g wl.1 c in
    (replacement, (w, wl.2 ++ [get_replacement_call c replacement])).

(** What a log shows. *)
Definition is_node_fixer_call (c : BMGNode) (call : Call E) : bool :=
  match call with node_fixer_call c' _ => bool_decide (c' = c) | _ => false end.

Definition is_needs_fixing_call (c : BMGNode) (call : Call E) : bool :=
  match call with needs_fixing_call c' _ => bool_decide (c' = c) | _ => false end.

Definition is_get_error_call (c : BMGNode) (call : Call E) : bool :=
  match call with get_error_call _ _ c' _ => bool_decide (c' = Some c) | _ => false end.

(** How often the node fixer was invoked on [c]. *)
Definition node_fixer_calls (c : BMGNode) (log : Log E) : nat :=
  length (filter (λ call, is_node_fixer_call c call = true) log).

Definition needs_fixing_calls (c : BMGNode) (log : Log E) : nat :=
  length (filter (λ call, is_needs_fixing_call c call = true) log).

(** How often a diagnostic was asked for an edge pointing at [c]. *)
Definition get_error_calls (c : BMGNode) (log : Log E) : nat :=
  length (filter (λ call, is_get_error_call c call = true) log).

(** The diagnostics the calls of [get_error] yielded, in order. *)
Definition diagnostics (log : Log E) : list E :=
  omap (λ call, match call with get_error_call _ _ _ error => error | _ => None end) log.

(** The diagnostics yielded for edges pointing at [c]. *)
Definition diagnostics_for (c : BMGNode) (log : Log E) : list E :=
  diagnostics (filter (λ call, is_get_error_call c call = true) log).

(** The nodes [typer.update_type] was called with, in order. *)
Definition update_type_calls (log : Log E) : list BMGNode :=
  omap (λ call, match call with update_type_call node => Some node | _ => None end) log.
End Recording.

(** ** One edge at a time: the cases of the loop bodies

    What one turn of the inner loop does to the state on the edge [(node, i)]
    pointing at [c], as a relation with one constructor per path through the
    body; the boolean tells whether the edge was assigned to. *)

Section GraphFixerSteps.
Context {W E : Type}.
Variable node_fixer : NodeFixer W.
Variable get_error : option (Graph -> W -> BMGNode -> nat -> option E * W).

(** Lines 154-157: the diagnostic for an edge, if one is to be had. *)
Definition ask_error (g : Graph) (w : W) (node : BMGNode) (i : nat) : option E * W :=
  match get_error with
  | Some get_error => get_error g w node i
  | None => (None, w)
  end.

Definition report_error (report : ErrorReport E) (error : option E) : ErrorReport E :=
  match error with
  | Some error => add_error report error
  | None => report
  end.

Inductive input_step (node : BMGNode) (i : nat) (c : BMGNode) (s : PassState W E)
  : PassState W E -> bool -> Prop :=
  | step_reported :
      c ∈ reported s ->
      input_step node i c s s false
  | step_cached_same :
      c ∉ reported s -> replacements s !! c = Some c ->
      input_step node i c s s false
  | step_cached_write r :
      c ∉ reported s -> replacements s !! c = Some r -> c ≠ r ->
      input_step node i c s
        (mkPass (set_input (bmg s) node i r) (world s) (errors s)
           (replacements s) (reported s) (made_progress s)) true
  | step_fixed_same w :
      c ∉ reported s -> replacements s !! c = None ->
      node_fixer (bmg s) (world s) c = (ANode c, w) ->
      input_step node i c s
        (mkPass (bmg s) w (errors s) (<[c := c]> (replacements s))
           (reported s) (made_progress s)) false
  | step_fixed_write r w :
      c ∉ reported s -> replacements s !! c = None ->
      node_fixer (bmg s) (world s) c = (ANode r, w) -> c ≠ r ->
      input_step node i c s
        (mkPass (set_input (bmg s) node i r) w (errors s)
           (<[c := r]> (replacements s)) (reported s) true) true
  | step_fatal w error w' :
      c ∉ reported s -> replacements s !! c = None ->
      node_fixer (bmg s) (world s) c = (Fatal, w) ->
      ask_error (bmg s) w node i = (error, w') ->
      input_step node i c s
        (mkPass (bmg s) w' (report_error (errors s) error) (replacements s)
           ({[c]} ∪ reported s) (made_progress s)) false
  | step_declined result w :
      c ∉ reported s -> replacements s !! c = None ->
      node_fixer (bmg s) (world s) c = (result, w) ->
      result = PyNone ∨ result = Inapplicable ->
      input_step node i c s (with_world s w) false.

(** Every replacement on record that differs from its key was written to an
    edge when it was recorded, so progress has been noted. *)
Definition progress_noted (s : PassState W E) : Prop :=
  ∀ c r, replacements s !! c = Some r -> c ≠ r -> made_progress s = true.

(** A node with a diagnosis has no replacement on record. *)
Definition reported_apart (s : PassState W E) : Prop :=
  ∀ c, c ∈ reported s -> replacements s !! c = None.

(** The edge that pointed at [c] has been dealt with and now points at [x]. *)
Definition settled (c : BMGNode) (s : PassState W E) (x : BMGNode) : Prop :=
  (c ∈ reported s ∧ replacements s !! c = None ∧ x = c)
  ∨ replacements s !! c = Some x.

(** The only replacements on record map a node to itself, and nothing was
    diagnosed. *)
Definition nothing_to_fix (s : PassState W E) : Prop :=
  (∀ c r, replacements s !! c = Some r -> c = r) ∧ reported s = ∅.
End GraphFixerSteps.

Module ProblemFixerSteps.
Import ProblemFixerBase.
Section Steps.
Context {W E : Type}.
Variable _needs_fixing : Graph -> W -> BMGNode -> bool * W.
Variable _get_replacement : Graph -> W -> BMGNode -> option BMGNode * W.
Variable _get_error : Graph -> W -> BMGNode -> nat -> option E * W.

Inductive input_step (node : BMGNode) (i : nat) (c : BMGNode) (s : State W E)
  : State W E -> bool -> Prop :=
  | step_cached_same :
      replacements s !! c = Some c ->
      input_step node i c s s false
  | step_cached_write r :
      replacements s !! c = Some r -> c ≠ r ->
      input_step node i c s
        (mkState (set_input (bmg s) node i r) (world s) (errors s)
           (replacements s) (reported s)) true
  | step_fine w1 :
      replacements s !! c = None ->
      _needs_fixing (bmg s) (world s) c = (false, w1) ->
      input_step node i c s
        (mkState (bmg s) w1 (errors s) (replacements s) (reported s)) false
  | step_fixed_same w1 w2 :
      replacements s !! c = None ->
      _needs_fixing (bmg s) (world s) c = (true, w1) ->
      _get_replacement (bmg s) w1 c = (Some c, w2) ->
      input_step node i c s
        (mkState (bmg s) w2 (errors s) (<[c := c]> (replacements s)) (reported s))
        false
  | step_fixed_write w1 r w2 :
      replacements s !! c = None ->
      _needs_fixing (bmg s) (world s) c = (true, w1) ->
      _get_replacement (bmg s) w1 c = (Some r, w2) -> c ≠ r ->
      input_step node i c s
        (mkState (set_input (bmg s) node i r) w2 (errors s)
           (<[c := r]> (replacements s)) (reported s)) true
  | step_known_error w1 w2 :
      replacements s !! c = None ->
      _needs_fixing (bmg s) (world s) c = (true, w1) ->
      _get_replacement (bmg s) w1 c = (None, w2) ->
      c ∈ reported s ->
      input_step node i c s
        (mkState (bmg s) w2 (errors s) (replacements s) (reported s)) false
  | step_new_error w1 w2 error w3 :
      replacements s !! c = None ->
      _needs_fixing (bmg s) (world s) c = (true, w1) ->
      _get_replacement (bmg s) w1 c = (None, w2) ->
      c ∉ reported s ->
      _get_error (bmg s) w2 node i = (error, w3) ->
      input_step node i c s
        (mkState (bmg s) w3 (report_error (errors s) error) (replacements s)
           ({[c]} ∪ reported s)) false.
End Steps.
End ProblemFixerSteps.

(** ** A small graph with a shared input

    Node 1 is an input of node 2 and of node 3. *)

Definition shared_graph : Graph :=
  <[3%positive := [1%positive]]> (<[2%positive := [1%positive]]> (<[1%positive := []]> ∅)).

Definition shared_nodes (g : Graph) : list BMGNode := [1; 2; 3]%positive.

Definition no_typer : Graph -> unit -> BMGNode -> unit := fun _ w _ => w.

Definition always (result : NodeFixerResult) : NodeFixer unit := fun _ w _ => (result, w).

(** The fixer that finds every node in order. *)
Definition all_fine : NodeFixer unit := fun _ w c => (ANode c, w).

(** The fixer that replaces node 1 by node 9 and knows no other node. *)
Definition replace_1_by_9 : NodeFixer unit :=
  fun _ w c => (if decide (c = 1%positive) then ANode 9%positive else Inapplicable, w).

Definition edge_error : Graph -> unit -> BMGNode -> nat -> option (BMGNode * nat) * unit :=
  fun _ w node i => (Some (node, i), w).

(** ** What the logs of a pass account for *)

Section Accounts.
Context {W E : Type}.

(** The report holds the diagnostics the calls of [get_error] yielded, on top
    of what it held before, and [get_error] was called [asked] times for each
    node with a diagnosis and never for another. *)
Definition accounted (before : ErrorReport E) (asked : nat)
  (report : ErrorReport E) (seen : gset positive) (log : Log E) : Prop :=
  report = before ++ diagnostics log
  ∧ ∀ c, get_error_calls c log = (if decide (c ∈ seen) then asked else 0).

(** The node fixer was invoked on [c] once if [c] has a diagnosis or a
    replacement on record, and never otherwise. *)
Definition asked_once (c : BMGNode) (s : PassState (W * Log E) E) : Prop :=
  (node_fixer_calls c (world s).2 = 0 ∧ (c ∉ reported s) ∧ replacements s !! c = None)
  ∨ (node_fixer_calls c (world s).2 = 1
     ∧ (c ∈ reported s ∨ is_Some (replacements s !! c))).
End Accounts.

(** Node 3 has the two inputs 1 and 2. *)
Definition fan_in_graph : Graph :=
  <[3%positive := [1%positive; 2%positive]]>
    (<[2%positive := []]> (<[1%positive := []]> ∅)).

(** ** One policy, told in the two ways

    A policy that looks at the node only and has no effects, as a node fixer
    and as the methods of a [ProblemFixerBase] subclass. *)

Section Policies.
Context {W E : Type}.

Definition pure_fixer (policy : BMGNode -> NodeFixerResult) : NodeFixer W :=
  fun _ w c => (policy c, w).

Definition pure_needs_fixing (needs : BMGNode -> bool) : Graph -> W -> BMGNode -> bool * W :=
  fun _ w c => (needs c, w).

Definition pure_get_replacement (replacement : BMGNode -> option BMGNode)
  : Graph -> W -> BMGNode -> option BMGNode * W :=
  fun _ w c => (replacement c, w).

(** [needs n] is true iff the fixer's result for [n] is neither [n] itself nor
    [None] or [Inapplicable]; [replacement n] is the replacement when the
    fixer yields one, and nothing when it yields [Fatal]. *)
Definition same_policy (policy : BMGNode -> NodeFixerResult)
  (needs : BMGNode -> bool) (replacement : BMGNode -> option BMGNode) : Prop :=
  (∀ n, needs n = true <-> policy n ≠ ANode n ∧ ¬ declines (policy n))
  ∧ (∀ n r, policy n = ANode r -> n ≠ r -> replacement n = Some r)
  ∧ (∀ n, policy n = Fatal -> replacement n = None).

(** How the state of [fix_problems] follows the state of [ancestors_first]:
    same graph, world and diagnoses, the report ahead by what it held before,
    and the same replacements on record but for the entries [c -> c], which
    only the graph fixer records. *)
Definition follows (policy : BMGNode -> NodeFixerResult) (before : ErrorReport E)
  (s : PassState W E) (t : ProblemFixerBase.State W E) : Prop :=
  ProblemFixerBase.bmg t = bmg s
  ∧ ProblemFixerBase.world t = world s
  ∧ ProblemFixerBase.errors t = before ++ errors s
  ∧ ProblemFixerBase.reported t = reported s
  ∧ (∀ c, ProblemFixerBase.replacements t !! c
          = match replacements s !! c with
            | Some r => if decide (c = r) then None else Some r
            | None => None
            end)
  ∧ (∀ c, c ∈ reported s -> policy c = Fatal)
  ∧ (∀ c r, replacements s !! c = Some r -> policy c = ANode r).
End Policies.

(** ** Forgetting the log

    The state of a pass run with recording collaborators, without the log. *)

Definition erase {W E : Type} (s : PassState (W * Log E) E) : PassState W E :=
  mkPass (bmg s) (world s).1 (errors s) (replacements s) (reported s)
    (made_progress s).

Definition pf_erase {W E : Type} (t : ProblemFixerBase.State (W * Log E) E)
  : ProblemFixerBase.State W E :=
  ProblemFixerBase.mkState (ProblemFixerBase.bmg t) (ProblemFixerBase.world t).1
    (ProblemFixerBase.errors t) (ProblemFixerBase.replacements t)
    (ProblemFixerBase.reported t).

(** ** Counting edges and following them *)

(** How many input edges of the nodes [nodes] point at [c] in the graph [g]. *)
Definition edges_to (c : BMGNode) (g : Graph) (nodes : list BMGNode) : nat :=
  sum_list ((λ node, length (filter (λ x, x = c) (inputs g node))) <$> nodes).

(** The edge that pointed at [c] points at [c] still, or at the replacement
    on record for [c]. *)
Definition kept_or_replaced {W E : Type} (c : BMGNode) (s : PassState W E)
  (x : BMGNode) : Prop :=
  x = c ∨ replacements s !! c = Some x.

(** Every node of [g] has in [g'] as many inputs as in [g].  Nothing is said
    of the nodes [g] does not have. *)
Definition same_shape (g g' : Graph) : Prop :=
  ∀ node, node ∈ dom g -> length (inputs g' node) = length (inputs g node).

(** In [fix_problems]: the graph is [g], the report is [report], and no
    replacement is on record. *)
Definition untouched {W E : Type} (g : Graph) (report : ErrorReport E)
  (t : ProblemFixerBase.State W E) : Prop :=
  ProblemFixerBase.bmg t = g
  ∧ ProblemFixerBase.errors t = report
  ∧ ProblemFixerBase.replacements t = ∅.

(** The log shows the fixer returning the node [r] for [c] exactly when
    [c -> r] is in the replacement map, and returning [Fatal] for [c] exactly
    when [c] is in the reported set. *)
Definition on_record {W E : Type} (c : BMGNode) (s : PassState (W * Log E) E) : Prop :=
  (∀ r, node_fixer_call c (ANode r) ∈ (world s).2 <-> replacements s !! c = Some r)
  ∧ (node_fixer_call (E := E) c Fatal ∈ (world s).2 <-> c ∈ reported s).

(** What the words "the first result that is not Inapplicable, or else
    Inapplicable" select from the results of the fixers, in list order. *)
Fixpoint first_not_Inapplicable (results : list NodeFixerResult) : NodeFixerResult :=
  match results with
  | [] => Inapplicable
  | result :: rest =>
      if decide (result = Inapplicable) then first_not_Inapplicable rest else result
  end.

(** * Properties *)

(** ** The combinators *)

Section CombinatorFacts.
Context {W : Type}.
Implicit Types (fixers : list (NodeFixer W)) (g : Graph) (w : W) (node : BMGNode).

Lemma declines_test result :
  declines result <-> is_not_None result && is_not_Inapplicable result = false.
Proof. unfold declines. destruct result; simpl; split; intros; try done; intuition congruence. Qed.

Lemma first_match_cons_declined fixer fixers g w node w' result :
  fixer g w node = (result, w') -> declines result ->
  first_match (fixer :: fixers) g w node = first_match fixers g w' node.
Proof.
  intros Hcall Hdec. simpl. rewrite Hcall.
  apply declines_test in Hdec. by rewrite Hdec.
Qed.

Lemma first_match_cons_decided fixer fixers g w node :
  ¬ declines (fixer g w node).1 ->
  first_match (fixer :: fixers) g w node = fixer g w node.
Proof.
  intros Hdec. simpl. destruct (fixer g w node) as [result w'] eqn:Hcall.
  simpl in Hdec. rewrite declines_test in Hdec.
  by destruct (is_not_None result && is_not_Inapplicable result).
Qed.

Lemma first_match_never_None fixers g w node :
  (first_match fixers g w node).1 ≠ PyNone.
Proof.
  revert w. induction fixers as [|fixer fixers IH]; intros w; simpl; [done|].
  destruct (fixer g w node) as [result w'].
  destruct result; simpl; try done. all: apply IH.
Qed.

Lemma first_match_cases fixers g w node :
  (∃ before fixer after results w1,
      fixers = before ++ fixer :: after
      ∧ call_all before g w node = (results, w1)
      ∧ Forall declines results
      ∧ ¬ declines (fixer g w1 node).1
      ∧ first_match fixers g w node = fixer g w1 node)
  ∨ (∃ results w1,
      call_all fixers g w node = (results, w1)
      ∧ Forall declines results
      ∧ first_match fixers g w node = (Inapplicable, w1)).
Proof.
  revert w. induction fixers as [|fixer fixers IH]; intros w.
  - right. by exists [], w.
  - destruct (fixer g w node) as [result w'] eqn:Hcall.
    destruct (decide (declines result)) as [Hdec|Hdec].
    + rewrite (first_match_cons_declined _ _ _ _ _ _ _ Hcall Hdec).
      destruct (IH w') as [(before & f & after & results & w1 & -> & Hall & Hres & Hf & Heq)
                          |(results & w1 & Hall & Hres & Heq)].
      * left. exists (fixer :: before), f, after, (result :: results), w1.
        simpl. rewrite Hcall, Hall. split_and!; auto.
      * right. exists (result :: results), w1.
        simpl. rewrite Hcall, Hall. split_and!; auto.
    + left. exists [], fixer, fixers, [], w. split_and!; auto.
      * by rewrite Hcall.
      * apply first_match_cons_decided. by rewrite Hcall.
Qed.
End CombinatorFacts.

(** C6, as amended.  [node_fixer_first_match] calls the fixers in list order,
    each in the world the previous one left, and returns the first result that
    is neither [None] nor [Inapplicable], leaving the world as that fixer left
    it: no later fixer is called.  When every fixer returns [None] or
    [Inapplicable] it returns [Inapplicable], after having called them all. *)
Theorem first_match_returns_first_decision {W : Type}
  (fixers : list (NodeFixer W)) (g : Graph) (w : W) (node : BMGNode) :
  (∃ before fixer after results w1,
      fixers = before ++ fixer :: after
      ∧ call_all before g w node = (results, w1)
      ∧ Forall declines results
      ∧ ¬ declines (fixer g w1 node).1
      ∧ node_fixer_first_match fixers g w node = fixer g w1 node)
  ∨ (∃ results w1,
      call_all fixers g w node = (results, w1)
      ∧ Forall declines results
      ∧ node_fixer_first_match fixers g w node = (Inapplicable, w1)).
Proof. apply first_match_cases. Qed.

(** C6 as it stands fails: a fixer that returns [None] does not return
    [Inapplicable], yet its result is not the one returned; the search goes
    on to the next fixer. *)
Lemma first_match_skips_None :
  let fixers := [always PyNone; always Fatal] in
  (call_all fixers ∅ () 1%positive).1 = [PyNone; Fatal]
  ∧ first_not_Inapplicable [PyNone; Fatal] = PyNone
  ∧ (node_fixer_first_match fixers ∅ () 1%positive).1
    ≠ first_not_Inapplicable (call_all fixers ∅ () 1%positive).1.
Proof. by vm_compute. Qed.

(** C7, as amended.  When the node is not an instance of [t] the guarded
    fixer returns [None] at once and leaves the world alone, whatever the
    fixer is: the fixer is not called.  When it is, the result is the
    fixer's.  A fixer that records its calls is therefore only ever seen to
    receive instances of [t]. *)
Theorem type_guard_only_instances {W T E : Type} (isinstance : BMGNode -> T -> bool)
  (t : T) (fixer : NodeFixer W) (g : Graph) (w : W) (node : BMGNode) :
  (isinstance node t = false -> type_guard isinstance t fixer g w node = (PyNone, w))
  ∧ (isinstance node t = true -> type_guard isinstance t fixer g w node = fixer g w node)
  ∧ (∀ (log : Log E) c,
        node_fixer_calls c
          (type_guard isinstance t (rec_node_fixer fixer) g (w, log) node).2.2
        ≠ node_fixer_calls c log ->
        isinstance c t = true).
Proof.
  unfold type_guard. split_and!.
  - by intros ->.
  - by intros ->.
  - intros log c. destruct (isinstance node t) eqn:Hinst; simpl; [|done].
    unfold rec_node_fixer. simpl. destruct (fixer g w node) as [result w']. simpl.
    unfold node_fixer_calls. rewrite filter_app, length_app. simpl.
    destruct (decide (node = c)) as [->|Hne]; [done|].
    rewrite filter_cons_False, filter_nil; simpl.
    + intros H. lia.
    + rewrite bool_decide_eq_false_2; done.
Qed.

Lemma type_guard_only_instances_witness :
  let isinstance := λ (n : BMGNode) (t : bool), bool_decide (n = 1%positive) && t in
  type_guard isinstance true (always Fatal) ∅ () 2%positive = (PyNone, ())
  ∧ type_guard isinstance true (always Fatal) ∅ () 1%positive = (Fatal, ())
  ∧ isinstance 1%positive true = true.
Proof.
  intros isinstance. split_and!.
  - apply (type_guard_only_instances (E := unit) isinstance true (always Fatal)
             ∅ () 2%positive). reflexivity.
  - apply (type_guard_only_instances (E := unit) isinstance true (always Fatal)
             ∅ () 1%positive). reflexivity.
  - apply (type_guard_only_instances (E := unit) isinstance true (always Fatal)
             ∅ () 1%positive) with (log := []). vm_compute. lia.
Defined.

(** C7 as it stands fails: the guarded fixer declines with [None], which is
    not the sentinel [Inapplicable]. *)
Lemma type_guard_declines_with_None :
  (type_guard (λ (n : BMGNode) (t : bool), bool_decide (n = 1%positive) && t) true
     (always Fatal) ∅ () 2%positive).1 ≠ Inapplicable.
Proof. by vm_compute. Qed.

(** C10.  A sub-fixer returning [None] is passed over like one returning
    [Inapplicable]; the combined fixer never returns [None], and returns
    [Inapplicable] when every sub-fixer declines; a guarded fixer that declines
    is passed over without a trace. *)
Theorem first_match_None_like_Inapplicable {W T : Type}
  (fixers : list (NodeFixer W)) (g : Graph) (w : W) (node : BMGNode) :
  (∀ fixer w',
      fixer g w node = (PyNone, w') ∨ fixer g w node = (Inapplicable, w') ->
      node_fixer_first_match (fixer :: fixers) g w node
      = node_fixer_first_match fixers g w' node)
  ∧ (node_fixer_first_match fixers g w node).1 ≠ PyNone
  ∧ ((∀ fixer w', fixer ∈ fixers -> declines (fixer g w' node).1) ->
      (node_fixer_first_match fixers g w node).1 = Inapplicable)
  ∧ (∀ (isinstance : BMGNode -> T -> bool) t fixer,
      isinstance node t = false ->
      node_fixer_first_match (type_guard isinstance t fixer :: fixers) g w node
      = node_fixer_first_match fixers g w node).
Proof.
  unfold node_fixer_first_match. split_and!.
  - intros fixer w' [H|H]; eapply first_match_cons_declined; eauto;
      unfold declines; auto.
  - apply first_match_never_None.
  - intros Hall.
    destruct (first_match_cases fixers g w node)
      as [(before & f & after & results & w1 & -> & _ & _ & Hf & _)
         |(results & w1 & _ & _ & ->)]; [|done].
    destruct Hf. apply Hall. set_solver.
  - intros isinstance t fixer Hinst.
    eapply first_match_cons_declined; [|left; reflexivity].
    unfold type_guard. by rewrite Hinst.
Qed.

Lemma first_match_None_like_Inapplicable_witness :
  node_fixer_first_match [always PyNone; always Fatal] ∅ () 1%positive
  = node_fixer_first_match [always Fatal] ∅ () 1%positive
  ∧ (node_fixer_first_match [always PyNone; always Inapplicable] ∅ () 1%positive).1
    = Inapplicable.
Proof.
  split.
  - apply (first_match_None_like_Inapplicable (T := unit)). left. reflexivity.
  - apply (first_match_None_like_Inapplicable (T := unit)).
    intros fixer w' Hin. unfold declines.
    apply elem_of_cons in Hin as [->|Hin]; [by left|].
    apply elem_of_cons in Hin as [->|Hin]; [by right|].
    by apply elem_of_nil in Hin.
Defined.

(** ** Input lists under assignment *)

Lemma inputs_set_input_eq (g : Graph) node i r :
  inputs (set_input g node i r) node = <[i := r]> (inputs g node).
Proof. unfold set_input. unfold inputs at 1. by rewrite lookup_insert_eq. Qed.

Lemma lookup_set_input_ne (g : Graph) node i r q :
  node ≠ q -> set_input g node i r !! q = g !! q.
Proof. intros Hne. unfold set_input. by rewrite lookup_insert_ne. Qed.

Lemma inputs_set_input_ne (g : Graph) node i r q :
  node ≠ q -> inputs (set_input g node i r) q = inputs g q.
Proof. intros Hne. unfold inputs. by rewrite lookup_set_input_ne. Qed.

Lemma inputs_set_input_lookup (g : Graph) node i r c :
  inputs g node !! i = Some c -> inputs (set_input g node i r) node !! i = Some r.
Proof.
  intros Hc. rewrite inputs_set_input_eq.
  apply list_lookup_insert_eq. by eapply lookup_lt_Some.
Qed.

Lemma inputs_set_input_lookup_ne (g : Graph) node i r j :
  i ≠ j -> inputs (set_input g node i r) node !! j = inputs g node !! j.
Proof. intros Hne. rewrite inputs_set_input_eq. by apply list_lookup_insert_ne. Qed.

(** ** The graph fixer, one edge at a time *)

(** Reading a field of a state that is written out. *)
Ltac fields :=
  cbn [bmg world errors replacements reported made_progress with_world fst snd] in *.

(** The seven paths through the body of the inner loop. *)
Ltac step_cases H :=
  destruct H as
    [ Hin
    | Hnin Hcached
    | r Hnin Hcached Hne
    | w Hnin Hcached Hfix
    | r w Hnin Hcached Hfix Hne
    | w error w' Hnin Hcached Hfix Hask
    | result w Hnin Hcached Hfix Hdec ];
  fields.

Section GraphFixerFacts.
Context {W E : Type}.
Variable update_type : Graph -> W -> BMGNode -> W.
Variable node_fixer : NodeFixer W.
Variable get_error : option (Graph -> W -> BMGNode -> nat -> option E * W).
Implicit Types (s : PassState W E) (node c : BMGNode) (i : nat).

Lemma fix_input_out_of_range node s u i :
  inputs (bmg s) node !! i = None ->
  fix_input node_fixer get_error node (s, u) i = (s, u).
Proof. intros Hc. unfold fix_input. by rewrite Hc. Qed.

Lemma fix_input_step node s u i c :
  inputs (bmg s) node !! i = Some c ->
  ∃ s' wrote,
    fix_input node_fixer get_error node (s, u) i = (s', wrote || u)
    ∧ input_step node_fixer get_error node i c s s' wrote.
Proof.
  intros Hc. unfold fix_input. rewrite Hc.
  destruct (decide (c ∈ reported s)) as [Hrep|Hrep].
  { exists s, false. split; [done|]. by constructor. }
  destruct (replacements s !! c) as [r|] eqn:Hcached.
  { destruct (decide (c = r)) as [<-|Hne].
    - exists s, false. split; [done|]. by apply step_cached_same.
    - eexists _, true. split; [done|]. by apply step_cached_write. }
  destruct (node_fixer (bmg s) (world s) c) as [[r| | |] w] eqn:Hfix.
  - destruct (decide (c = r)) as [<-|Hne].
    + eexists _, false. split; [done|]. by apply step_fixed_same.
    + eexists _, true. split; [done|]. by apply step_fixed_write.
  - eexists _, false. split; [done|]. eapply step_declined; eauto.
  - eexists _, false. split; [done|]. eapply step_declined; eauto.
  - destruct (ask_error get_error (bmg s) w node i) as [error w'] eqn:Hask.
    exists (mkPass (bmg s) w' (report_error (errors s) error) (replacements s)
              ({[c]} ∪ reported s) (made_progress s)), false.
    split; [|by eapply step_fatal].
    unfold ask_error in Hask. destruct get_error as [ge|].
    + rewrite Hask. by destruct error.
    + by inversion Hask.
Qed.

(** What an edge turn does to the graph and to the progress flag. *)
Lemma input_step_graph node i c s s' wrote :
  input_step node_fixer get_error node i c s s' wrote ->
  (wrote = false ∧ bmg s' = bmg s ∧ made_progress s' = made_progress s)
  ∨ (wrote = true ∧ ∃ r, c ≠ r ∧ bmg s' = set_input (bmg s) node i r
                        ∧ replacements s' !! c = Some r).
Proof.
  destruct 1; fields.
  - by left.
  - by left.
  - right. split; [done|]. by exists r.
  - by left.
  - right. split; [done|]. exists r. by rewrite lookup_insert_eq.
  - by left.
  - by left.
Qed.

Lemma input_step_progress_noted node i c s s' wrote :
  input_step node_fixer get_error node i c s s' wrote ->
  progress_noted s ->
  progress_noted s' ∧ (wrote = true -> made_progress s' = true).
Proof.
  unfold progress_noted.
  destruct 1; fields; intros Hnoted.
  - done.
  - done.
  - split; [done|]. eauto.
  - split; [|done]. intros c' r'. destruct (decide (c = c')) as [<-|Hne].
    + rewrite lookup_insert_eq. intros [= <-]. done.
    + rewrite lookup_insert_ne by done. eauto.
  - done.
  - done.
  - done.
Qed.

(** The records only grow, and a diagnosis and a replacement exclude each
    other. *)
Lemma input_step_records node i c s s' wrote :
  input_step node_fixer get_error node i c s s' wrote ->
  reported s ⊆ reported s'
  ∧ (∀ c' r, replacements s !! c' = Some r -> replacements s' !! c' = Some r)
  ∧ (∀ c', c' ∈ reported s -> replacements s' !! c' = replacements s !! c')
  ∧ (reported_apart s -> reported_apart s').
Proof.
  unfold reported_apart.
  assert (Hins : ∀ r, c ∉ reported s -> replacements s !! c = None ->
    (∀ c' r', replacements s !! c' = Some r' -> <[c := r]> (replacements s) !! c' = Some r')
    ∧ (∀ c', c' ∈ reported s -> <[c := r]> (replacements s) !! c' = replacements s !! c')
    ∧ ((∀ c', c' ∈ reported s -> replacements s !! c' = None) ->
       ∀ c', c' ∈ reported s -> <[c := r]> (replacements s) !! c' = None)).
  { intros r Hrep Hnone. split_and!.
    - intros c' r' Hc'. destruct (decide (c = c')) as [<-|?]; [congruence|].
      by rewrite lookup_insert_ne.
    - intros c' Hc'. destruct (decide (c = c')) as [<-|?]; [done|].
      by rewrite lookup_insert_ne.
    - intros Hap c' Hc'. destruct (decide (c = c')) as [<-|?]; [done|].
      rewrite lookup_insert_ne by done. auto. }
  destruct 1; fields.
  - done.
  - done.
  - done.
  - destruct (Hins c) as (? & ? & ?); done.
  - destruct (Hins r) as (? & ? & ?); done.
  - split_and!; [apply union_subseteq_r|done|done|].
    intros Hap c' Hc'. apply elem_of_union in Hc' as [Hc'|Hc']; [|auto].
    apply elem_of_singleton in Hc' as ->. done.
  - done.
Qed.

Lemma settled_stable node i c s s' wrote c0 x :
  input_step node_fixer get_error node i c s s' wrote ->
  settled c0 s x -> settled c0 s' x.
Proof.
  intros Hstep.
  destruct (input_step_records _ _ _ _ _ _ Hstep) as (Hrep & Hkeep & Hsame & _).
  unfold settled. intros [(Hin & Hnone & ->)|Hsome].
  - left. split_and!; [by apply Hrep| |done]. by rewrite Hsame.
  - right. auto.
Qed.

(** Once its turn is over, an edge whose input the fixer decides about is
    settled. *)
Lemma input_step_settles node i c s s' wrote :
  input_step node_fixer get_error node i c s s' wrote ->
  inputs (bmg s) node !! i = Some c ->
  reported_apart s ->
  (∀ g w, ¬ declines (node_fixer g w c).1) ->
  ∃ x, inputs (bmg s') node !! i = Some x ∧ settled c s' x.
Proof.
  unfold settled, reported_apart.
  destruct 1; fields; intros Hc Hap Hdec.
  - exists c. split; [done|]. left. auto.
  - exists c. split; [done|]. by right.
  - exists r. split; [by eapply inputs_set_input_lookup|by right].
  - exists c. split; [done|]. right. by rewrite lookup_insert_eq.
  - exists r. split; [by eapply inputs_set_input_lookup|].
    right. by rewrite lookup_insert_eq.
  - exists c. split; [done|]. left. split_and!; [|done|done].
    apply elem_of_union_l. by apply elem_of_singleton.
  - destruct (Hdec (bmg s) (world s)). by rewrite H1.
Qed.
End GraphFixerFacts.

(** ** The graph fixer, loop by loop *)

Lemma foldl_step {A B : Type} (f : A -> B -> A) (a : A) (x : B) (l : list B) :
  foldl f a (x :: l) = foldl f (f a x) l.
Proof. reflexivity. Qed.

Section GraphFixerLoops.
Context {W E : Type}.
Variable update_type : Graph -> W -> BMGNode -> W.
Variable node_fixer : NodeFixer W.
Variable get_error : option (Graph -> W -> BMGNode -> nat -> option E * W).
Implicit Types (s : PassState W E) (node c : BMGNode) (i : nat) (u : bool).

Local Abbreviation fix_input' := (fix_input node_fixer get_error).
Local Abbreviation fix_inputs' := (fix_inputs node_fixer get_error).
Local Abbreviation fix_node' := (fix_node update_type node_fixer get_error).
Local Abbreviation run_nodes' := (run_nodes update_type node_fixer get_error).
Local Abbreviation input_step' := (input_step node_fixer get_error).

Lemma fix_input_cases node s u i :
  (inputs (bmg s) node !! i = None ∧ fix_input' node (s, u) i = (s, u))
  ∨ (∃ c s' wrote,
       inputs (bmg s) node !! i = Some c
       ∧ fix_input' node (s, u) i = (s', wrote || u)
       ∧ input_step' node i c s s' wrote).
Proof.
  destruct (inputs (bmg s) node !! i) as [c|] eqn:Hc.
  - right. destruct (fix_input_step node_fixer get_error node s u i c Hc)
      as (s' & wrote & Heq & Hstep). by exists c, s', wrote.
  - left. split; [done|]. by apply fix_input_out_of_range.
Qed.

(** An edge turn leaves every other edge alone. *)
Lemma input_step_frame node i c s s' wrote :
  input_step' node i c s s' wrote ->
  (∀ q, node ≠ q -> bmg s' !! q = bmg s !! q)
  ∧ (∀ j, i ≠ j -> inputs (bmg s') node !! j = inputs (bmg s) node !! j).
Proof.
  intros Hstep.
  destruct (input_step_graph _ _ _ _ _ _ _ _ Hstep)
    as [(_ & -> & _)|(_ & r & _ & -> & _)]; [done|].
  split.
  - intros q Hq. by apply lookup_set_input_ne.
  - intros j Hj. by apply inputs_set_input_lookup_ne.
Qed.

(** A property of the state kept by every edge turn is kept by the inner
    loop. *)
Lemma fix_inputs_loop_inv (P : PassState W E -> Prop) node :
  (∀ i c s s' wrote,
      input_step' node i c s s' wrote -> inputs (bmg s) node !! i = Some c ->
      P s -> P s') ->
  ∀ indices s u, P s -> P (foldl (fix_input' node) (s, u) indices).1.
Proof.
  intros Hkeep indices. induction indices as [|i indices IH]; intros s u HP; [done|].
  rewrite foldl_step. destruct (fix_input_cases node s u i)
    as [(_ & ->)|(c & s' & wrote & Hc & -> & Hstep)]; eauto.
Qed.

(** The graph, the flag [node_was_updated] and the progress flag after the
    inner loop. *)
Lemma fix_inputs_loop_graph node indices :
  ∀ s u s' u',
    NoDup indices ->
    foldl (fix_input' node) (s, u) indices = (s', u') ->
    (∀ q, node ≠ q -> bmg s' !! q = bmg s !! q)
    ∧ (∀ j, j ∉ indices -> inputs (bmg s') node !! j = inputs (bmg s) node !! j)
    ∧ ((bmg s' = bmg s ∧ u' = u ∧ made_progress s' = made_progress s)
       ∨ (u' = true ∧ inputs (bmg s') node ≠ inputs (bmg s) node
          ∧ (progress_noted s -> made_progress s' = true)))
    ∧ (progress_noted s -> progress_noted s').
Proof.
  induction indices as [|i indices IH]; intros s u s' u' Hnodup Hrun.
  { simpl in Hrun. injection Hrun as <- <-. split_and!; auto. }
  apply NoDup_cons in Hnodup as [Hi Hnodup]. rewrite foldl_step in Hrun.
  destruct (fix_input_cases node s u i)
    as [(_ & Heq)|(c & s1 & wrote & Hc & Heq & Hstep)]; rewrite Heq in Hrun.
  { destruct (IH _ _ _ _ Hnodup Hrun) as (Hq & Hj & Hcases & Hnoted).
    split_and!; auto. intros j Hjn. apply Hj.
    by apply not_elem_of_cons in Hjn as [_ Hjn]. }
  destruct (IH _ _ _ _ Hnodup Hrun) as (Hq & Hj & Hcases & Hnoted).
  destruct (input_step_frame _ _ _ _ _ _ Hstep) as (Hq1 & Hj1).
  split_and!.
  - intros q Hne. rewrite Hq by done. by apply Hq1.
  - intros j Hjn. apply not_elem_of_cons in Hjn as [Hji Hjn].
    rewrite Hj by done. apply Hj1. done.
  - destruct (input_step_graph _ _ _ _ _ _ _ _ Hstep)
      as [(-> & Hg & Hp)|(-> & r & Hr & Hg & _)]; cbn [orb] in *.
    + destruct Hcases as [(Hg' & -> & Hp')|(-> & Hchanged & Hp')].
      * left. split_and!; congruence.
      * right. split_and!; [done|by rewrite <- Hg|].
        intros Hn. apply Hp'.
        by apply (input_step_progress_noted _ _ _ _ _ _ _ _ Hstep).
    + right.
      assert (inputs (bmg s') node ≠ inputs (bmg s) node) as Hchanged.
      { intros Heq'. specialize (Hj i Hi). rewrite Heq', Hg in Hj.
        rewrite (inputs_set_input_lookup _ _ _ _ _ Hc) in Hj. congruence. }
      assert (progress_noted s -> made_progress s' = true) as Hprog.
      { intros Hn.
        destruct (input_step_progress_noted _ _ _ _ _ _ _ _ Hstep Hn) as (Hn1 & Hp1).
        destruct Hcases as [(_ & _ & ->)|(_ & _ & Hp')]; auto. }
      destruct Hcases as [(_ & -> & _)|(-> & _ & _)]; split_and!; done.
  - intros Hn. apply Hnoted.
    by apply (input_step_progress_noted _ _ _ _ _ _ _ _ Hstep).
Qed.

(** The edges whose input the fixer decides about are settled by the inner
    loop, and stay so. *)
Lemma fix_inputs_loop_settles node c indices :
  (∀ g w, ¬ declines (node_fixer g w c).1) ->
  ∀ s u s' u',
    NoDup indices ->
    foldl (fix_input' node) (s, u) indices = (s', u') ->
    reported_apart s ->
    reported_apart s'
    ∧ (∀ c0 x, settled c0 s x -> settled c0 s' x)
    ∧ (∀ j, j ∈ indices -> inputs (bmg s) node !! j = Some c ->
         ∃ x, inputs (bmg s') node !! j = Some x ∧ settled c s' x).
Proof.
  intros Hdec.
  induction indices as [|i indices IH]; intros s u s' u' Hnodup Hrun Hap.
  { simpl in Hrun. injection Hrun as <- <-. split_and!; auto.
    intros j Hj. by apply elem_of_nil in Hj. }
  apply NoDup_cons in Hnodup as [Hi Hnodup]. rewrite foldl_step in Hrun.
  destruct (fix_input_cases node s u i)
    as [(Hnone & Heq)|(c1 & s1 & wrote & Hc & Heq & Hstep)]; rewrite Heq in Hrun.
  { destruct (IH _ _ _ _ Hnodup Hrun Hap) as (Hap' & Hst & Hset).
    split_and!; auto. intros j Hj Hjc.
    apply elem_of_cons in Hj as [->|Hj]; [congruence|auto]. }
  destruct (input_step_records _ _ _ _ _ _ _ _ Hstep) as (_ & _ & _ & Hap1).
  destruct (IH _ _ _ _ Hnodup Hrun (Hap1 Hap)) as (Hap' & Hst & Hset).
  destruct (input_step_frame _ _ _ _ _ _ Hstep) as (Hq1 & Hj1).
  destruct (fix_inputs_loop_graph _ _ _ _ _ _ Hnodup Hrun) as (_ & Hj & _).
  split_and!; [done| |].
  - intros c0 x Hx. apply Hst. by eapply settled_stable.
  - intros j Hjin Hjc. apply elem_of_cons in Hjin as [->|Hjin].
    + assert (c1 = c) as -> by congruence.
      destruct (input_step_settles _ _ _ _ _ _ _ _ Hstep Hc Hap Hdec) as (x & Hx & Hsx).
      exists x. split; [|by apply Hst]. by rewrite Hj.
    + apply Hset; [done|]. rewrite Hj1; [done|]. intros ->. done.
Qed.

Lemma fix_inputs_indices s node : NoDup (seq 0 (length (inputs (bmg s) node))).
Proof. apply NoDup_seq. Qed.

(** What enumerating one node does. *)
Lemma fix_node_cases s node :
  (∀ q, node ≠ q -> bmg (fix_node' s node) !! q = bmg s !! q)
  ∧ ((bmg (fix_node' s node) = bmg s
      ∧ made_progress (fix_node' s node) = made_progress s
      ∧ (fix_inputs' node s).2 = false
      ∧ fix_node' s node = (fix_inputs' node s).1)
     ∨ (inputs (bmg (fix_node' s node)) node ≠ inputs (bmg s) node
        ∧ (fix_inputs' node s).2 = true
        ∧ fix_node' s node
          = with_world (fix_inputs' node s).1
              (update_type (bmg (fix_inputs' node s).1) (world (fix_inputs' node s).1) node)
        ∧ (progress_noted s -> made_progress (fix_node' s node) = true)))
  ∧ (progress_noted s -> progress_noted (fix_node' s node)).
Proof.
  unfold fix_node. destruct (fix_inputs' node s) as [s' u'] eqn:Hrun.
  unfold fix_inputs in Hrun.
  destruct (fix_inputs_loop_graph _ _ _ _ _ _ (fix_inputs_indices s node) Hrun)
    as (Hq & _ & Hcases & Hnoted).
  destruct Hcases as [(Hg & -> & Hp)|(-> & Hchanged & Hp)]; fields.
  - split_and!; auto.
  - split_and!; auto 10.
Qed.

(** A property kept by every edge turn and by the typer's update is kept by
    the pass. *)
Lemma run_nodes_inv (P : PassState W E -> Prop) :
  (∀ node i c s s' wrote,
      input_step' node i c s s' wrote -> inputs (bmg s) node !! i = Some c ->
      P s -> P s') ->
  (∀ s node, P s -> P (with_world s (update_type (bmg s) (world s) node))) ->
  ∀ nodes s, P s -> P (run_nodes' s nodes).
Proof.
  intros Hstep Htyper nodes.
  induction nodes as [|node nodes IH]; intros s HP; [done|].
  unfold run_nodes. rewrite foldl_step. apply IH. unfold fix_node.
  destruct (fix_inputs' node s) as [s' u'] eqn:Hrun.
  assert (P s') as HP'.
  { unfold fix_inputs in Hrun.
    pose proof (fix_inputs_loop_inv P node (Hstep node)
                  (seq 0 (length (inputs (bmg s) node))) s false HP) as HP'.
    by rewrite Hrun in HP'. }
  destruct u'; auto.
Qed.
End GraphFixerLoops.

(** ** The graph fixer, pass by pass *)

Section GraphFixerPass.
Context {W E : Type}.
Variable update_type : Graph -> W -> BMGNode -> W.
Variable node_fixer : NodeFixer W.
Variable get_error : option (Graph -> W -> BMGNode -> nat -> option E * W).
Implicit Types (s : PassState W E) (node c : BMGNode) (i : nat) (u : bool).

Local Abbreviation fix_input' := (fix_input node_fixer get_error).
Local Abbreviation fix_inputs' := (fix_inputs node_fixer get_error).
Local Abbreviation fix_node' := (fix_node update_type node_fixer get_error).
Local Abbreviation run_nodes' := (run_nodes update_type node_fixer get_error).
Local Abbreviation input_step' := (input_step node_fixer get_error).

Lemma run_nodes_cons s node nodes :
  run_nodes' s (node :: nodes) = run_nodes' (fix_node' s node) nodes.
Proof. reflexivity. Qed.


Lemma run_nodes_progress_noted nodes s :
  progress_noted s -> progress_noted (run_nodes' s nodes).
Proof.
  revert s. induction nodes as [|node nodes IH]; intros s Hn; [done|].
  unfold run_nodes. rewrite foldl_step. apply IH.
  by apply (fix_node_cases update_type node_fixer get_error s node).
Qed.


(** No replacement on record is ever lost or changed. *)
Lemma run_nodes_keeps_replacement c r nodes s :
  replacements s !! c = Some r -> replacements (run_nodes' s nodes) !! c = Some r.
Proof.
  apply (run_nodes_inv update_type node_fixer get_error
           (λ s, replacements s !! c = Some r)).
  - intros node i c' s1 s2 wrote Hstep _ Hc.
    by apply (input_step_records _ _ _ _ _ _ _ _ Hstep).
  - done.
Qed.

Lemma run_nodes_reported_apart nodes s :
  reported_apart s -> reported_apart (run_nodes' s nodes).
Proof.
  apply (run_nodes_inv update_type node_fixer get_error reported_apart).
  - intros node i c' s1 s2 wrote Hstep _.
    by apply (input_step_records _ _ _ _ _ _ _ _ Hstep).
  - done.
Qed.

Lemma run_nodes_settled_stable c x nodes s :
  settled c s x -> settled c (run_nodes' s nodes) x.
Proof.
  apply (run_nodes_inv update_type node_fixer get_error (λ s, settled c s x)).
  - intros node i c' s1 s2 wrote Hstep _. by eapply settled_stable.
  - done.
Qed.

End GraphFixerPass.

Lemma start_well_formed {W E : Type} (g : Graph) (w : W) :
  progress_noted (start (E := E) g w)
  ∧ reported_apart (start (E := E) g w)
  ∧ nothing_to_fix (start (E := E) g w).
Proof.
  unfold progress_noted, reported_apart, nothing_to_fix, start. fields.
  split_and!; try done; intros c r Hc; by rewrite lookup_empty in Hc.
Qed.



(** C9, as amended.  When the fixer returns the input node [c] itself, no
    edge is changed and the entry [c -> c] is recorded in the replacement map;
    the entry is kept for the rest of the pass; and with the entry on record a
    turn of the inner loop on an edge pointing at [c] leaves the whole state
    as it is, world included: the fixer is not invoked on [c] again. *)
Theorem self_return_is_recorded {W E : Type}
  (update_type : Graph -> W -> BMGNode -> W) (node_fixer : NodeFixer W)
  (get_error : option (Graph -> W -> BMGNode -> nat -> option E * W))
  (node : BMGNode) (s : PassState W E) (u : bool) (i : nat) (c : BMGNode) (w : W) :
  inputs (bmg s) node !! i = Some c ->
  c ∉ reported s ->
  replacements s !! c = None ->
  node_fixer (bmg s) (world s) c = (ANode c, w) ->
  fix_input node_fixer get_error node (s, u) i
  = (mkPass (bmg s) w (errors s) (<[c := c]> (replacements s)) (reported s)
       (made_progress s), u)
  ∧ (∀ s2 node2 i2 u2,
       replacements s2 !! c = Some c ->
       replacements (fix_input node_fixer get_error node2 (s2, u2) i2).1 !! c = Some c
       ∧ replacements (fix_node update_type node_fixer get_error s2 node2) !! c = Some c)
  ∧ (∀ s2 node2 i2 u2,
       replacements s2 !! c = Some c ->
       inputs (bmg s2) node2 !! i2 = Some c ->
       fix_input node_fixer get_error node2 (s2, u2) i2 = (s2, u2)).
Proof.
  intros Hc Hrep Hnone Hfix. split_and!.
  - unfold fix_input. rewrite Hc, Hnone, Hfix.
    destruct (decide (c ∈ reported s)); [done|].
    destruct (decide (c = c)); done.
  - intros s2 node2 i2 u2 Hs2. split.
    + destruct (fix_input_cases node_fixer get_error node2 s2 u2 i2)
        as [(_ & ->)|(c' & s' & wrote & _ & -> & Hstep)]; [done|].
      by apply (input_step_records _ _ _ _ _ _ _ _ Hstep).
    + by apply (run_nodes_keeps_replacement update_type node_fixer get_error
                  c c [node2] s2).
  - intros s2 node2 i2 u2 Hs2 Hc2. unfold fix_input. rewrite Hc2, Hs2.
    destruct (decide (c ∈ reported s2)); [done|].
    destruct (decide (c = c)); done.
Qed.

Lemma self_return_is_recorded_witness :
  fix_input all_fine (Some edge_error) 2%positive (start shared_graph (), false) 0
  = (mkPass shared_graph () [] (<[1%positive := 1%positive]> ∅) ∅ false, false).
Proof.
  apply (self_return_is_recorded no_typer all_fine (Some edge_error) 2%positive
           (start shared_graph ()) false 0 1%positive ()).
  - reflexivity.
  - apply not_elem_of_empty.
  - reflexivity.
  - reflexivity.
Defined.

(** C9 as it stands fails: after node 2 has been enumerated with a fixer that
    returns the node itself, node 1 has an entry in the replacement map, and
    in the whole pass the fixer is invoked on node 1 once, not once for each
    of its two parents. *)
Lemma self_return_not_asked_again :
  replacements
    (fix_node no_typer all_fine (Some edge_error) (start shared_graph ()) 2%positive)
    !! 1%positive = Some 1%positive
  ∧ node_fixer_calls 1%positive
      (ancestors_first shared_nodes (rec_update_type no_typer) (rec_node_fixer all_fine)
         (Some (rec_get_error edge_error)) shared_graph ((), [])).2.2 = 1.
Proof. by vm_compute. Qed.

(** ** Shared inputs *)

Section SharedInputs.
Context {W E : Type}.
Variable update_type : Graph -> W -> BMGNode -> W.
Variable node_fixer : NodeFixer W.
Variable get_error : option (Graph -> W -> BMGNode -> nat -> option E * W).
Variable c : BMGNode.
Hypothesis decides : ∀ g w, ¬ declines (node_fixer g w c).1.
Implicit Types (s : PassState W E) (node : BMGNode) (i : nat).

Local Abbreviation fix_node' := (fix_node update_type node_fixer get_error).
Local Abbreviation run_nodes' := (run_nodes update_type node_fixer get_error).

(** Enumerating a node settles each of its edges that points at [c]. *)
Lemma fix_node_settles s node i :
  reported_apart s ->
  inputs (bmg s) node !! i = Some c ->
  ∃ x, inputs (bmg (fix_node' s node)) node !! i = Some x
       ∧ settled c (fix_node' s node) x.
Proof.
  intros Hap Hc. unfold fix_node.
  destruct (fix_inputs node_fixer get_error node s) as [s' u'] eqn:Hrun.
  unfold fix_inputs in Hrun.
  destruct (fix_inputs_loop_settles node_fixer get_error node c _ decides
              _ _ _ _ (fix_inputs_indices s node) Hrun Hap) as (_ & _ & Hset).
  destruct (Hset i) as (x & Hx & Hsx); [|done|].
  { apply elem_of_seq. split; [lia|]. simpl. by eapply lookup_lt_Some. }
  exists x. by destruct u'.
Qed.

(** The input lists of the nodes that are not enumerated stay as they are. *)
Lemma run_nodes_frame nodes :
  ∀ s q, q ∉ nodes -> bmg (run_nodes' s nodes) !! q = bmg s !! q.
Proof.
  induction nodes as [|n nodes IH]; intros s q Hq; [done|].
  apply not_elem_of_cons in Hq as [Hqn Hq].
  rewrite run_nodes_cons.
  etrans; [by apply IH|].
  destruct (fix_node_cases update_type node_fixer get_error s n) as (Hframe & _).
  by apply Hframe.
Qed.

(** After the pass, every edge of an enumerated node that pointed at [c] is
    settled; no assumption on the enumeration. *)
Lemma run_nodes_reaches nodes :
  ∀ s node i,
    reported_apart s -> node ∈ nodes -> inputs (bmg s) node !! i = Some c ->
    ∃ x, settled c (run_nodes' s nodes) x.
Proof.
  induction nodes as [|n nodes IH]; intros s node i Hap Hin Hc.
  { by apply elem_of_nil in Hin. }
  rewrite run_nodes_cons.
  destruct (decide (n = node)) as [->|Hne].
  - destruct (fix_node_settles s node i Hap Hc) as (x & _ & Hx).
    exists x. by apply run_nodes_settled_stable.
  - apply elem_of_cons in Hin as [->|Hin]; [done|].
    apply (IH _ node i); [|done|].
    + by apply (run_nodes_reported_apart update_type node_fixer get_error [n]).
    + unfold inputs.
      destruct (fix_node_cases update_type node_fixer get_error s n) as (Hq & _).
      by rewrite Hq.
Qed.

(** When each node is enumerated once, the edges that pointed at [c] all end
    up pointing at the node [c] is settled with. *)
Lemma run_nodes_settles nodes :
  ∀ s node i,
    NoDup nodes -> reported_apart s -> node ∈ nodes ->
    inputs (bmg s) node !! i = Some c ->
    ∃ x, inputs (bmg (run_nodes' s nodes)) node !! i = Some x
         ∧ settled c (run_nodes' s nodes) x.
Proof.
  induction nodes as [|n nodes IH]; intros s node i Hnodup Hap Hin Hc.
  { by apply elem_of_nil in Hin. }
  apply NoDup_cons in Hnodup as [Hn Hnodup].
  rewrite run_nodes_cons.
  assert (reported_apart (fix_node' s n)) as Hap'.
  { by apply (run_nodes_reported_apart update_type node_fixer get_error [n]). }
  destruct (decide (n = node)) as [->|Hne].
  - destruct (fix_node_settles s node i Hap Hc) as (x & Hx & Hsx).
    exists x. split; [|by apply run_nodes_settled_stable].
    rewrite <- Hx. unfold inputs. by rewrite run_nodes_frame.
  - apply elem_of_cons in Hin as [->|Hin]; [done|].
    apply (IH _ node i); [done|done|done|].
    unfold inputs.
    destruct (fix_node_cases update_type node_fixer get_error s n) as (Hq & _).
    by rewrite Hq.
Qed.
End SharedInputs.

(** ** Reading the logs *)

Section LogFacts.
Context {W E : Type}.
Implicit Types (log : Log E) (call : Call E) (c : BMGNode).

Lemma node_fixer_calls_snoc c log call :
  node_fixer_calls c (log ++ [call])
  = node_fixer_calls c log + (if is_node_fixer_call c call then 1 else 0).
Proof.
  unfold node_fixer_calls. rewrite filter_app, length_app. f_equal.
  destruct (is_node_fixer_call c call) eqn:Hcall.
  - by rewrite filter_cons_True.
  - rewrite filter_cons_False; [done|]. by rewrite Hcall.
Qed.

Lemma get_error_calls_snoc c log call :
  get_error_calls c (log ++ [call])
  = get_error_calls c log + (if is_get_error_call c call then 1 else 0).
Proof.
  unfold get_error_calls. rewrite filter_app, length_app. f_equal.
  destruct (is_get_error_call c call) eqn:Hcall.
  - by rewrite filter_cons_True.
  - rewrite filter_cons_False; [done|]. by rewrite Hcall.
Qed.

Lemma diagnostics_snoc log call :
  diagnostics (log ++ [call])
  = diagnostics log
    ++ match call with get_error_call _ _ _ (Some e) => [e] | _ => [] end.
Proof.
  unfold diagnostics. rewrite omap_app. f_equal.
  by destruct call as [| ? ? ? [e|] | | |].
Qed.

Lemma update_type_calls_snoc log call :
  update_type_calls (log ++ [call])
  = update_type_calls log
    ++ match call with update_type_call node => [node] | _ => [] end.
Proof.
  unfold update_type_calls. rewrite omap_app. f_equal. by destruct call.
Qed.

Lemma diagnostics_for_le c log :
  length (diagnostics_for c log) ≤ get_error_calls c log.
Proof.
  unfold diagnostics_for, get_error_calls, diagnostics.
  generalize (filter (λ call : Call E, is_get_error_call c call = true) log).
  intros l. induction l as [|call l IH]; [done|].
  destruct call as [| ? ? ? [e|] | | |]; unfold omap in *; simpl in *; lia.
Qed.

Lemma elem_of_diagnostics log node i (child : option BMGNode) e :
  get_error_call node i child (Some e) ∈ log -> e ∈ diagnostics log.
Proof.
  intros Hin. unfold diagnostics. apply list_elem_of_omap.
  by exists (get_error_call node i child (Some e)).
Qed.

(** What the recording collaborators return and note. *)
Lemma rec_node_fixer_inv (node_fixer : NodeFixer W) g (wl : W * Log E) c result wl' :
  rec_node_fixer node_fixer g wl c = (result, wl') ->
  (node_fixer g wl.1 c).1 = result
  ∧ wl'.2 = wl.2 ++ [node_fixer_call c result].
Proof.
  unfold rec_node_fixer. destruct (node_fixer g wl.1 c) as [result' w].
  by intros [= <- <-].
Qed.

Lemma rec_ask_error_inv
  (get_error : option (Graph -> W -> BMGNode -> nat -> option E * W))
  g wl node i error wl' :
  ask_error (rec_get_error <$> get_error) g wl node i = (error, wl') ->
  (get_error = None ∧ error = None ∧ wl' = wl)
  ∨ (is_Some get_error
     ∧ wl'.2 = wl.2 ++ [get_error_call node i (inputs g node !! i) error]).
Proof.
  unfold ask_error. destruct get_error as [ge|]; simpl.
  - unfold rec_get_error. destruct (ge g wl.1 node i) as [error' w].
    intros [= <- <-]. right. split; [by eexists|done].
  - intros [= <- <-]. by left.
Qed.
End LogFacts.

(** ** Keeping the accounts *)

Section AccountFacts.
Context {E : Type}.
Implicit Types (log : Log E) (call : Call E) (c : BMGNode) (seen : gset positive).

Lemma accounted_snoc before asked report seen log call :
  match call with get_error_call _ _ _ _ => False | _ => True end ->
  accounted before asked report seen log ->
  accounted before asked report seen (log ++ [call]).
Proof.
  intros Hcall [Hreport Hcount]. split.
  - rewrite diagnostics_snoc. destruct call; try done; by rewrite app_nil_r.
  - intros c. rewrite get_error_calls_snoc, Hcount. destruct call; simpl; try done; lia.
Qed.

Lemma accounted_error before report seen log node i c error :
  c ∉ seen ->
  accounted before 1 report seen log ->
  accounted before 1 (report_error report error) ({[c]} ∪ seen)
    (log ++ [get_error_call node i (Some c) error]).
Proof.
  intros Hc [Hreport Hcount]. split.
  - rewrite diagnostics_snoc, Hreport. destruct error; simpl.
    + unfold add_error. by rewrite app_assoc.
    + by rewrite app_nil_r.
  - intros c'. rewrite get_error_calls_snoc, Hcount. simpl.
    destruct (decide (c' = c)) as [->|Hne].
    + rewrite bool_decide_eq_true_2 by done.
      rewrite decide_False by done. rewrite decide_True; [done|].
      apply elem_of_union_l. by apply elem_of_singleton.
    + rewrite bool_decide_eq_false_2 by congruence.
      destruct (decide (c' ∈ seen)) as [Hin|Hnin].
      * rewrite decide_True; [lia|]. by apply elem_of_union_r.
      * rewrite decide_False; [lia|]. intros Hin.
        apply elem_of_union in Hin as [Hin|Hin]; [|done].
        by apply elem_of_singleton in Hin.
Qed.

Lemma accounted_silent before report seen log c :
  accounted before 0 report seen log ->
  accounted before 0 report ({[c]} ∪ seen) log.
Proof.
  intros [Hreport Hcount]. split; [done|].
  intros c'. rewrite Hcount. by repeat case_decide.
Qed.

Lemma accounted_at_most_once before asked report seen log c :
  asked ≤ 1 ->
  accounted before asked report seen log ->
  get_error_calls c log ≤ 1 ∧ length (diagnostics_for c log) ≤ 1.
Proof.
  intros Hasked [_ Hcount].
  assert (get_error_calls c log ≤ 1) as Hle.
  { rewrite Hcount. case_decide; lia. }
  split; [done|]. pose proof (diagnostics_for_le (E := E) c log). lia.
Qed.
End AccountFacts.

(** ** The graph fixer with recording collaborators *)

Section RecordedGraphFixer.
Context {W E : Type}.
Variable update_type : Graph -> W -> BMGNode -> W.
Variable node_fixer : NodeFixer W.
Variable get_error : option (Graph -> W -> BMGNode -> nat -> option E * W).
Implicit Types (s : PassState (W * Log E) E) (node c : BMGNode) (i : nat).

Local Abbreviation r_update_type := (rec_update_type (E := E) update_type).
Local Abbreviation r_node_fixer := (rec_node_fixer (E := E) node_fixer).
Local Abbreviation r_get_error := (rec_get_error <$> get_error).
Local Abbreviation asked := (match get_error with Some _ => 1 | None => 0 end).
Local Abbreviation r_run_nodes := (run_nodes r_update_type r_node_fixer r_get_error).

Lemma recorded_step_accounted node i c s s' wrote :
  input_step r_node_fixer r_get_error node i c s s' wrote ->
  inputs (bmg s) node !! i = Some c ->
  accounted [] asked (errors s) (reported s) (world s).2 ->
  accounted [] asked (errors s') (reported s') (world s').2.
Proof.
  intros Hstep Hc Hacc. step_cases Hstep; try done.
  - apply rec_node_fixer_inv in Hfix as [_ ->]. by apply accounted_snoc.
  - apply rec_node_fixer_inv in Hfix as [_ ->]. by apply accounted_snoc.
  - apply rec_node_fixer_inv in Hfix as [_ Hlog].
    apply rec_ask_error_inv in Hask as [(Hge & -> & ->)|([ge Hge] & ->)];
      rewrite Hge in *; rewrite Hlog.
    + simpl. apply accounted_silent. by apply accounted_snoc.
    + rewrite Hc. apply accounted_error; [done|]. by apply accounted_snoc.
  - apply rec_node_fixer_inv in Hfix as [_ ->]. by apply accounted_snoc.
Qed.

Lemma recorded_pass_accounted nodes s :
  accounted [] asked (errors s) (reported s) (world s).2 ->
  accounted [] asked (errors (r_run_nodes s nodes)) (reported (r_run_nodes s nodes))
    (world (r_run_nodes s nodes)).2.
Proof.
  apply (run_nodes_inv r_update_type r_node_fixer r_get_error
           (λ s, accounted [] asked (errors s) (reported s) (world s).2)).
  - intros node i c s1 s2 wrote. apply recorded_step_accounted.
  - intros s1 node Hacc. fields. simpl. by apply accounted_snoc.
Qed.

Lemma recorded_step_typer_calls node i c s s' wrote :
  input_step r_node_fixer r_get_error node i c s s' wrote ->
  update_type_calls (world s').2 = update_type_calls (world s).2.
Proof.
  intros Hstep. step_cases Hstep; try done.
  - apply rec_node_fixer_inv in Hfix as [_ ->].
    by rewrite update_type_calls_snoc, app_nil_r.
  - apply rec_node_fixer_inv in Hfix as [_ ->].
    by rewrite update_type_calls_snoc, app_nil_r.
  - apply rec_node_fixer_inv in Hfix as [_ Hlog].
    apply rec_ask_error_inv in Hask as [(Hge & -> & ->)|(_ & ->)]; rewrite Hlog.
    + by rewrite update_type_calls_snoc, app_nil_r.
    + by rewrite !update_type_calls_snoc, !app_nil_r.
  - apply rec_node_fixer_inv in Hfix as [_ ->].
    by rewrite update_type_calls_snoc, app_nil_r.
Qed.

(** The typer is called for a node exactly when its input list has changed
    while the node was enumerated. *)
Lemma recorded_fix_node_typer s node :
  let s' := fix_node r_update_type r_node_fixer r_get_error s node in
  update_type_calls (world s').2
  = update_type_calls (world s).2
    ++ (if decide (inputs (bmg s') node = inputs (bmg s) node) then [] else [node]).
Proof.
  intros s'.
  assert (update_type_calls (world (fix_inputs r_node_fixer r_get_error node s).1).2
          = update_type_calls (world s).2) as Hloop.
  { unfold fix_inputs.
    apply (fix_inputs_loop_inv r_node_fixer r_get_error
             (λ s1, update_type_calls (world s1).2 = update_type_calls (world s).2));
      [|done].
    intros i c s1 s2 wrote Hstep _ <-. by eapply recorded_step_typer_calls. }
  destruct (fix_node_cases r_update_type r_node_fixer r_get_error s node)
    as (_ & Hcases & _).
  fold s' in Hcases.
  destruct Hcases as [(Hg & _ & _ & Hs')|(Hchanged & _ & Hs' & _)].
  - rewrite decide_True by (by rewrite Hg). by rewrite app_nil_r, Hs'.
  - rewrite decide_False by done. rewrite Hs'. fields. simpl.
    by rewrite update_type_calls_snoc, Hloop.
Qed.

(** A fixer that decides about [c] is invoked on [c] at most once. *)
Lemma recorded_step_asked_once c0 node i c s s' wrote :
  (∀ g w, ¬ declines (node_fixer g w c0).1) ->
  input_step r_node_fixer r_get_error node i c s s' wrote ->
  asked_once c0 s -> asked_once c0 s'.
Proof.
  intros Hdecides Hstep Hone. unfold asked_once in *.
  assert (∀ c1 r, c ≠ c1 ->
            <[c := r]> (replacements s) !! c1 = replacements s !! c1) as Hother.
  { intros c1 r Hne. by rewrite lookup_insert_ne. }
  assert (∀ result,
            node_fixer_calls c0 ((world s).2 ++ [node_fixer_call c result])
            = node_fixer_calls c0 (world s).2 + (if decide (c = c0) then 1 else 0))
    as Hcount.
  { intros result. rewrite node_fixer_calls_snoc. simpl.
    destruct (decide (c = c0)) as [->|Hne].
    - by rewrite bool_decide_eq_true_2.
    - by rewrite bool_decide_eq_false_2. }
  assert (c = c0 -> c ∉ reported s -> replacements s !! c = None ->
          node_fixer_calls c0 (world s).2 = 0) as Hfresh.
  { intros -> Hnin Hnone. destruct Hone as [(? & _)|(_ & [Hin|[r Hr]])];
      [done|done|congruence]. }
  step_cases Hstep; try done.
  - apply rec_node_fixer_inv in Hfix as [_ ->]. rewrite Hcount.
    destruct (decide (c = c0)) as [<-|Hne].
    + right. rewrite Hfresh by done. split; [done|]. right.
      rewrite lookup_insert_eq. by eexists.
    + rewrite Hother by done. by rewrite Nat.add_0_r.
  - apply rec_node_fixer_inv in Hfix as [_ ->]. rewrite Hcount.
    destruct (decide (c = c0)) as [<-|Hne'].
    + right. rewrite Hfresh by done. split; [done|]. right.
      rewrite lookup_insert_eq. by eexists.
    + rewrite Hother by done. by rewrite Nat.add_0_r.
  - apply rec_node_fixer_inv in Hfix as [_ Hlog].
    assert (node_fixer_calls c0 w'.2
            = node_fixer_calls c0 (world s).2 + (if decide (c = c0) then 1 else 0))
      as ->.
    { apply rec_ask_error_inv in Hask as [(_ & _ & ->)|(_ & ->)]; rewrite Hlog.
      - apply Hcount.
      - rewrite node_fixer_calls_snoc. simpl. by rewrite Nat.add_0_r, Hcount. }
    destruct (decide (c = c0)) as [<-|Hne].
    + right. rewrite Hfresh by done. split; [done|]. left.
      apply elem_of_union_l. by apply elem_of_singleton.
    + rewrite Nat.add_0_r. destruct Hone as [(? & ? & ?)|(? & [?|?])].
      * left. split_and!; [done| |done]. intros Hin.
        apply elem_of_union in Hin as [Hin|Hin]; [|done].
        by apply elem_of_singleton in Hin.
      * right. split; [done|]. left. by apply elem_of_union_r.
      * right. split; [done|]. by right.
  - pose proof Hfix as Hfix'. apply rec_node_fixer_inv in Hfix' as [Hres ->].
    rewrite Hcount. destruct (decide (c = c0)) as [<-|Hne].
    + destruct (Hdecides (bmg s) (world s).1). by rewrite Hres.
    + by rewrite Nat.add_0_r.
Qed.

Lemma recorded_pass_asked_once c0 nodes s :
  (∀ g w, ¬ declines (node_fixer g w c0).1) ->
  asked_once c0 s -> asked_once c0 (r_run_nodes s nodes).
Proof.
  intros Hdec.
  apply (run_nodes_inv r_update_type r_node_fixer r_get_error (asked_once c0)).
  - intros node i c s1 s2 wrote Hstep _. by eapply recorded_step_asked_once.
  - intros s1 node. unfold asked_once. fields. simpl.
    by rewrite node_fixer_calls_snoc, Nat.add_0_r.
Qed.

Lemma rec_node_fixer_result g (wl : W * Log E) c :
  (rec_node_fixer node_fixer g wl c).1 = (node_fixer g wl.1 c).1.
Proof. unfold rec_node_fixer. by destruct (node_fixer g wl.1 c). Qed.

(** A node the fixer always finds fatal never gets a replacement. *)
Lemma recorded_pass_never_replaced c0 nodes s :
  (∀ g w, (node_fixer g w c0).1 = Fatal) ->
  replacements s !! c0 = None -> replacements (r_run_nodes s nodes) !! c0 = None.
Proof.
  intros Hfatal.
  apply (run_nodes_inv r_update_type r_node_fixer r_get_error
           (λ s, replacements s !! c0 = None)); [|done].
  intros node i c s1 s2 wrote Hstep _ Hnone.
  assert (∀ r w, r_node_fixer (bmg s1) (world s1) c = (ANode r, w) -> c ≠ c0) as Hne0.
  { intros r w Hfix' ->. apply rec_node_fixer_inv in Hfix' as [Hres _].
    rewrite Hfatal in Hres. done. }
  step_cases Hstep; try done.
  - rewrite lookup_insert_ne; [done|]. by eapply Hne0.
  - rewrite lookup_insert_ne; [done|]. by eapply Hne0.
Qed.
End RecordedGraphFixer.

Lemma settled_target {W E : Type} (c x : BMGNode) (s : PassState W E) :
  settled c s x -> x = default c (replacements s !! c).
Proof. intros [(_ & -> & ->)| ->]; done. Qed.

Lemma start_accounted {W E : Type} (g : Graph) (w : W) (asked : nat) :
  let s := start (E := E) g (w, @nil (Call E)) in
  accounted [] asked (errors s) (reported s) (world s).2.
Proof. split; [done|]. intros c. unfold start. fields. by rewrite decide_False. Qed.

Lemma start_asked_once {W E : Type} (g : Graph) (w : W) (c : BMGNode) :
  asked_once c (start (E := E) g (w, @nil (Call E))).
Proof. left. unfold start. fields. split_and!; done. Qed.

(** ** What the fixer said about a node, and what is on record for it *)

Lemma elem_of_snoc {A : Type} (x y : A) (l : list A) :
  x ∈ l ++ [y] <-> x ∈ l ∨ x = y.
Proof. by rewrite elem_of_app, list_elem_of_singleton. Qed.

Section ResultsOnRecord.
Context {W E : Type}.
Variable update_type : Graph -> W -> BMGNode -> W.
Variable node_fixer : NodeFixer W.
Variable get_error : option (Graph -> W -> BMGNode -> nat -> option E * W).
Variable c : BMGNode.

Lemma recorded_step_on_record node i c' (s s' : PassState (W * Log E) E) wrote :
  input_step (rec_node_fixer node_fixer) (rec_get_error <$> get_error)
    node i c' s s' wrote ->
  on_record c s -> on_record c s'.
Proof.
  intros Hstep [Hnode Hfatal]. unfold on_record.
  assert (∀ (result : NodeFixerResult) (call : Call E),
            call ∈ (world s).2 ++ [node_fixer_call c' result]
            <-> call ∈ (world s).2 ∨ call = node_fixer_call c' result) as Hlog.
  { intros result call. apply elem_of_snoc. }
  step_cases Hstep; try done.
  - apply rec_node_fixer_inv in Hfix as [_ ->]. split.
    + intros r. rewrite Hlog, Hnode. destruct (decide (c' = c)) as [->|Hne'].
      * rewrite lookup_insert_eq, Hcached. split; [intros [?|[= ->]]|intros [= ->]];
          eauto; done.
      * rewrite lookup_insert_ne by done. split; [intros [?|[= ? ?]]|]; eauto; done.
    + rewrite Hlog, Hfatal. split; [intros [?|?]|]; eauto; done.
  - apply rec_node_fixer_inv in Hfix as [_ ->]. split.
    + intros r0. rewrite Hlog, Hnode. destruct (decide (c' = c)) as [->|Hne'].
      * rewrite lookup_insert_eq, Hcached. split; [intros [?|[= ->]]|intros [= ->]];
          eauto; done.
      * rewrite lookup_insert_ne by done. split; [intros [?|[= ? ?]]|]; eauto; done.
    + rewrite Hlog, Hfatal. split; [intros [?|?]|]; eauto; done.
  - apply rec_node_fixer_inv in Hfix as [_ Hw].
    assert (∀ call : Call E,
              match call with node_fixer_call _ _ => True | _ => False end ->
              (call ∈ w'.2 <-> call ∈ (world s).2 ∨ call = node_fixer_call c' Fatal))
      as Hlog'.
    { intros call Hcall.
      apply rec_ask_error_inv in Hask as [(_ & _ & ->)|(_ & ->)]; rewrite Hw.
      - apply Hlog.
      - rewrite elem_of_snoc, Hlog. split; [intros [?| ->]|]; eauto; done. }
    split.
    + intros r. rewrite Hlog' by done. rewrite Hnode.
      split; [intros [?|?]|]; eauto; done.
    + rewrite Hlog' by done. rewrite Hfatal, elem_of_union, elem_of_singleton.
      split.
      * intros [?|[= ->]]; eauto.
      * intros [->|?]; eauto.
  - apply rec_node_fixer_inv in Hfix as [_ ->]. split.
    + intros r. rewrite Hlog, Hnode.
      split; [intros [?|[= ? ?]]|]; eauto. subst result. by destruct Hdec.
    + rewrite Hlog, Hfatal.
      split; [intros [?|[= ? ?]]|]; eauto. subst result. by destruct Hdec.
Qed.

Lemma recorded_pass_on_record nodes (s : PassState (W * Log E) E) :
  on_record c s ->
  on_record c (run_nodes (rec_update_type update_type) (rec_node_fixer node_fixer)
               (rec_get_error <$> get_error) s nodes).
Proof.
  apply (run_nodes_inv (rec_update_type update_type) (rec_node_fixer node_fixer)
           (rec_get_error <$> get_error) (on_record c)).
  - intros node i c' s1 s2 wrote Hstep _. by eapply recorded_step_on_record.
  - intros s1 node [Hnode Hfatal]. unfold on_record. fields. simpl. split.
    + intros r. rewrite elem_of_snoc, Hnode. split; [intros [?|?]|]; eauto; done.
    + rewrite elem_of_snoc, Hfatal. split; [intros [?|?]|]; eauto; done.
Qed.

Lemma start_on_record (g : Graph) (w : W) :
  on_record c (start (E := E) g (w, @nil (Call E))).
Proof.
  unfold on_record, start. fields. simpl. split.
  - intros r. rewrite lookup_empty. split; [|done]. intros H. by apply elem_of_nil in H.
  - split; intros H; [by apply elem_of_nil in H|by apply not_elem_of_empty in H].
Qed.
End ResultsOnRecord.

(** C2, as amended.  Let the fixer be one that decides about [c] whenever it
    is asked: it returns a node (a replacement or [c] itself) or [Fatal], not
    [None] or [Inapplicable].  Then in one pass the fixer is invoked on [c]
    at most once, and exactly once, with a node or [Fatal] for result, when
    [c] is an input of an enumerated node; and, the traversal enumerating each
    node once, all the edges of enumerated nodes that pointed at [c] point
    after the pass at one and the same node, which is the node the fixer
    returned for [c], the replacement, if it returned one, and [c] itself if
    it returned [Fatal]. *)
Theorem decided_input_fixed_once {W E : Type}
  (all_ancestor_nodes : Graph -> list BMGNode)
  (update_type : Graph -> W -> BMGNode -> W) (node_fixer : NodeFixer W)
  (get_error : option (Graph -> W -> BMGNode -> nat -> option E * W))
  (g : Graph) (w : W) (c : BMGNode) :
  let out :=
    ancestors_first all_ancestor_nodes (rec_update_type update_type)
      (rec_node_fixer node_fixer) (rec_get_error <$> get_error) g (w, []) in
  (∀ g w, ¬ declines (node_fixer g w c).1) ->
  node_fixer_calls c out.2.2 ≤ 1
  ∧ (∀ node i,
       node ∈ all_ancestor_nodes g -> inputs g node !! i = Some c ->
       node_fixer_calls c out.2.2 = 1
       ∧ (node_fixer_call c Fatal ∈ out.2.2
          ∨ ∃ r, node_fixer_call c (ANode r) ∈ out.2.2))
  ∧ (NoDup (all_ancestor_nodes g) ->
     ∃ x,
       (∀ node i,
          node ∈ all_ancestor_nodes g -> inputs g node !! i = Some c ->
          inputs out.1.2 node !! i = Some x)
       ∧ (∀ r, node_fixer_call c (ANode r) ∈ out.2.2 -> x = r)
       ∧ (node_fixer_call c Fatal ∈ out.2.2 -> x = c)).
Proof.
  intros out Hdecides. unfold out, ancestors_first. cbn [fst snd].
  assert (∀ g' (wl : W * Log E), ¬ declines (rec_node_fixer node_fixer g' wl c).1)
    as Hdecides'.
  { intros g' wl. by rewrite rec_node_fixer_result. }
  pose proof (recorded_pass_asked_once update_type node_fixer get_error c
                (all_ancestor_nodes g) (start g (w, [])) Hdecides
                (start_asked_once g w c)) as Honce.
  pose proof (recorded_pass_on_record update_type node_fixer get_error c
                (all_ancestor_nodes g) (start g (w, [])) (start_on_record c g w))
    as [Hnode Hfatal].
  pose proof (run_nodes_reported_apart (rec_update_type update_type)
                (rec_node_fixer node_fixer) (rec_get_error <$> get_error)
                (all_ancestor_nodes g) (start g (w, []))
                (proj1 (proj2 (start_well_formed g (w, []))))) as Hapart.
  split_and!.
  - destruct Honce as [(-> & _)|(-> & _)]; lia.
  - intros node i Hin Hc.
    destruct (run_nodes_reaches (rec_update_type update_type)
                (rec_node_fixer node_fixer) (rec_get_error <$> get_error) c Hdecides'
                (all_ancestor_nodes g) (start g (w, [])) node i
                (proj1 (proj2 (start_well_formed g (w, [])))) Hin Hc)
      as (x & Hsx).
    split.
    + destruct Honce as [(_ & Hnrep & Hnone)|(-> & _)]; [|done].
      destruct Hsx as [(? & _)|?]; [done|congruence].
    + destruct Hsx as [(Hrep & _)|Hsome].
      * left. by apply Hfatal.
      * right. exists x. by apply Hnode.
  - intros Hnodup.
    exists (default c
              (replacements
                 (run_nodes (rec_update_type update_type) (rec_node_fixer node_fixer)
                    (rec_get_error <$> get_error) (start g (w, []))
                    (all_ancestor_nodes g)) !! c)).
    split_and!.
    + intros node i Hin Hc.
      destruct (run_nodes_settles (rec_update_type update_type)
                  (rec_node_fixer node_fixer) (rec_get_error <$> get_error) c Hdecides'
                  (all_ancestor_nodes g) (start g (w, [])) node i Hnodup
                  (proj1 (proj2 (start_well_formed g (w, [])))) Hin Hc)
        as (x & Hx & Hsx).
      rewrite Hx. f_equal. by apply settled_target in Hsx.
    + intros r Hr. apply Hnode in Hr. by rewrite Hr.
    + intros Hf. apply Hfatal in Hf. by rewrite (Hapart c Hf).
Qed.

Lemma decided_input_fixed_once_witness :
  let out :=
    ancestors_first shared_nodes (rec_update_type no_typer)
      (rec_node_fixer replace_1_by_9) (Some (rec_get_error edge_error))
      shared_graph ((), []) in
  node_fixer_calls 1%positive out.2.2 = 1
  ∧ inputs out.1.2 2%positive !! 0 = Some 9%positive
  ∧ inputs out.1.2 3%positive !! 0 = Some 9%positive.
Proof.
  intros out.
  destruct (decided_input_fixed_once shared_nodes no_typer replace_1_by_9
              (Some edge_error) shared_graph () 1%positive)
    as (_ & Hcalls & Hedges).
  - intros g w [H|H]; discriminate H.
  - destruct Hedges as (x & Hx & Hr & _).
    { apply (bool_decide_unpack _). by vm_compute. }
    assert (x = 9%positive) as ->.
    { apply Hr. vm_compute. constructor. }
    split_and!.
    + apply (Hcalls 2%positive 0); [|reflexivity].
      apply (bool_decide_unpack _). by vm_compute.
    + apply Hx; [|reflexivity]. apply (bool_decide_unpack _). by vm_compute.
    + apply Hx; [|reflexivity]. apply (bool_decide_unpack _). by vm_compute.
Defined.

(** C2 as it stands fails: a fixer that returns [Inapplicable] for node 1,
    an input of the two nodes 2 and 3, is invoked on node 1 twice in one
    pass. *)
Lemma undecided_input_asked_again :
  node_fixer_calls 1%positive
    (ancestors_first shared_nodes (rec_update_type no_typer)
       (rec_node_fixer (always Inapplicable)) (Some (rec_get_error edge_error))
       shared_graph ((), [])).2.2 = 2.
Proof. by vm_compute. Qed.

(** C8.  Let the fixer find [c] fatal whenever it is asked, and let [c] be an
    input of some enumerated node.  Then, whatever else the pass meets before
    or after, other fatal nodes included, the pass asks for the diagnostic of
    an edge pointing at [c], once, and a diagnostic so obtained is in the
    report the pass returns.  (The pass is a total function: it returns its
    pair in every case.) *)
Theorem fatal_does_not_stop_pass {W E : Type}
  (all_ancestor_nodes : Graph -> list BMGNode)
  (update_type : Graph -> W -> BMGNode -> W) (node_fixer : NodeFixer W)
  (get_error : Graph -> W -> BMGNode -> nat -> option E * W)
  (g : Graph) (w : W) (c : BMGNode) :
  let out :=
    ancestors_first all_ancestor_nodes (rec_update_type update_type)
      (rec_node_fixer node_fixer) (Some (rec_get_error get_error)) g (w, []) in
  (∀ g w, (node_fixer g w c).1 = Fatal) ->
  (∃ node i, node ∈ all_ancestor_nodes g ∧ inputs g node !! i = Some c) ->
  get_error_calls c out.2.2 = 1
  ∧ (∀ node i e, get_error_call node i (Some c) (Some e) ∈ out.2.2 -> e ∈ out.1.1.2).
Proof.
  intros out Hfatal (node & i & Hin & Hc). unfold out, ancestors_first. simpl.
  pose proof (recorded_pass_accounted update_type node_fixer (Some get_error)
                (all_ancestor_nodes g) (start g (w, [])) (start_accounted g w 1))
    as [Hreport Hcount].
  simpl in Hreport, Hcount. split.
  - rewrite Hcount. rewrite decide_True; [done|].
    assert (∀ g' (wl : W * Log E), ¬ declines (rec_node_fixer node_fixer g' wl c).1)
      as Hdecides'.
    { intros g' wl. rewrite rec_node_fixer_result, Hfatal. by intros [?|?]. }
    destruct (run_nodes_reaches (rec_update_type update_type)
                (rec_node_fixer node_fixer) (Some (rec_get_error get_error)) c Hdecides'
                (all_ancestor_nodes g) (start g (w, [])) node i
                (proj1 (proj2 (start_well_formed g (w, [])))) Hin Hc)
      as (x & [(Hrep & _)|Hsome]); [done|].
    pose proof (recorded_pass_never_replaced update_type node_fixer (Some get_error)
                  c (all_ancestor_nodes g) (start g (w, [])) Hfatal) as Hnone.
    change (rec_get_error <$> Some get_error)
      with (Some (rec_get_error get_error)) in Hnone.
    rewrite Hnone in Hsome; done.
  - intros node' i' e He. rewrite Hreport. simpl. by eapply elem_of_diagnostics.
Qed.

Lemma fatal_does_not_stop_pass_witness :
  let out :=
    ancestors_first shared_nodes (rec_update_type no_typer)
      (rec_node_fixer (always Fatal)) (Some (rec_get_error edge_error))
      fan_in_graph ((), []) in
  get_error_calls 2%positive out.2.2 = 1
  ∧ (∀ node i e,
       get_error_call node i (Some 2%positive) (Some e) ∈ out.2.2 -> e ∈ out.1.1.2).
Proof.
  apply (fatal_does_not_stop_pass shared_nodes no_typer (always Fatal) edge_error
           fan_in_graph () 2%positive).
  - reflexivity.
  - exists 3%positive, 1. split; [|reflexivity].
    apply (bool_decide_unpack _). by vm_compute.
Defined.

(** ** The template method, one edge at a time *)

Ltac pfields :=
  cbn [ProblemFixerBase.bmg ProblemFixerBase.world ProblemFixerBase.errors
       ProblemFixerBase.replacements ProblemFixerBase.reported fst snd] in *.

(** The seven paths through the body of the inner loop of [fix_problems]. *)
Ltac pstep_cases H :=
  destruct H as
    [ Hcached
    | r Hcached Hne
    | w1 Hcached Hneeds
    | w1 w2 Hcached Hneeds Hrepl
    | w1 r w2 Hcached Hneeds Hrepl Hne
    | w1 w2 Hcached Hneeds Hrepl Hin
    | w1 w2 error w3 Hcached Hneeds Hrepl Hnin Hask ];
  pfields.

Section ProblemFixerFacts.
Import ProblemFixerBase ProblemFixerSteps.
Context {W E : Type}.
Variable update_type : Graph -> W -> BMGNode -> W.
Variable _needs_fixing : Graph -> W -> BMGNode -> bool * W.
Variable _get_replacement : Graph -> W -> BMGNode -> option BMGNode * W.
Variable _get_error : Graph -> W -> BMGNode -> nat -> option E * W.
Implicit Types (t : State W E) (node c : BMGNode) (i : nat) (u : bool).

Local Abbreviation fix_input' := (fix_input _needs_fixing _get_replacement _get_error).
Local Abbreviation fix_inputs' := (fix_inputs _needs_fixing _get_replacement _get_error).
Local Abbreviation fix_node' :=
  (fix_node update_type _needs_fixing _get_replacement _get_error).
Local Abbreviation run_nodes' :=
  (run_nodes update_type _needs_fixing _get_replacement _get_error).
Local Abbreviation input_step' :=
  (input_step _needs_fixing _get_replacement _get_error).

Lemma pf_fix_input_cases node t u i :
  (inputs (bmg t) node !! i = None ∧ fix_input' node (t, u) i = (t, u))
  ∨ (∃ c t' wrote,
       inputs (bmg t) node !! i = Some c
       ∧ fix_input' node (t, u) i = (t', wrote || u)
       ∧ input_step' node i c t t' wrote).
Proof.
  unfold fix_input. destruct (inputs (bmg t) node !! i) as [c|] eqn:Hc; [|by left].
  right. exists c.
  destruct (replacements t !! c) as [r|] eqn:Hcached.
  { destruct (decide (c = r)) as [<-|Hne].
    - exists t, false. split_and!; [done|done|]. by apply step_cached_same.
    - eexists _, true. split_and!; [done|done|]. by apply step_cached_write. }
  destruct (_needs_fixing (bmg t) (world t) c) as [[|] w1] eqn:Hneeds; simpl.
  2:{ eexists _, false. split_and!; [done|done|]. by apply step_fine. }
  destruct (_get_replacement (bmg t) w1 c) as [[r|] w2] eqn:Hrepl.
  { destruct (decide (c = r)) as [<-|Hne].
    - eexists _, false. split_and!; [done|done|]. by eapply step_fixed_same.
    - eexists _, true. split_and!; [done|done|]. by eapply step_fixed_write. }
  destruct (decide (c ∈ reported t)) as [Hin|Hnin].
  { eexists _, false. split_and!; [done|done|]. by eapply step_known_error. }
  destruct (_get_error (bmg t) w2 node i) as [error w3] eqn:Hask.
  exists (mkState (bmg t) w3 (report_error (errors t) error) (replacements t)
            ({[c]} ∪ reported t)), false.
  split_and!; [done| |by eapply step_new_error]. by destruct error.
Qed.

Lemma pf_input_step_graph node i c t t' wrote :
  input_step' node i c t t' wrote ->
  (wrote = false ∧ bmg t' = bmg t)
  ∨ (wrote = true ∧ ∃ r, c ≠ r ∧ bmg t' = set_input (bmg t) node i r).
Proof.
  intros Hstep. pstep_cases Hstep; try (by left); right; split; try done; by exists r.
Qed.

Lemma pf_fix_inputs_loop_inv (P : State W E -> Prop) node :
  (∀ i c t t' wrote,
      input_step' node i c t t' wrote -> inputs (bmg t) node !! i = Some c ->
      P t -> P t') ->
  ∀ indices t u, P t -> P (foldl (fix_input' node) (t, u) indices).1.
Proof.
  intros Hkeep indices. induction indices as [|i indices IH]; intros t u HP; [done|].
  rewrite foldl_step. destruct (pf_fix_input_cases node t u i)
    as [(_ & ->)|(c & t' & wrote & Hc & -> & Hstep)]; eauto.
Qed.

Lemma pf_fix_inputs_loop_graph node indices :
  ∀ t u t' u',
    NoDup indices ->
    foldl (fix_input' node) (t, u) indices = (t', u') ->
    (∀ q, node ≠ q -> bmg t' !! q = bmg t !! q)
    ∧ (∀ j, j ∉ indices -> inputs (bmg t') node !! j = inputs (bmg t) node !! j)
    ∧ ((bmg t' = bmg t ∧ u' = u)
       ∨ (u' = true ∧ inputs (bmg t') node ≠ inputs (bmg t) node)).
Proof.
  induction indices as [|i indices IH]; intros t u t' u' Hnodup Hrun.
  { simpl in Hrun. injection Hrun as <- <-. split_and!; auto. }
  apply NoDup_cons in Hnodup as [Hi Hnodup]. rewrite foldl_step in Hrun.
  destruct (pf_fix_input_cases node t u i)
    as [(_ & Heq)|(c & t1 & wrote & Hc & Heq & Hstep)]; rewrite Heq in Hrun.
  { destruct (IH _ _ _ _ Hnodup Hrun) as (Hq & Hj & Hcases).
    split_and!; auto. intros j Hjn. apply Hj.
    by apply not_elem_of_cons in Hjn as [_ Hjn]. }
  destruct (IH _ _ _ _ Hnodup Hrun) as (Hq & Hj & Hcases).
  destruct (pf_input_step_graph _ _ _ _ _ _ Hstep)
    as [(-> & Hg)|(-> & r & Hr & Hg)]; cbn [orb] in *.
  - rewrite Hg in *. split_and!; auto.
    intros j Hjn. apply Hj. by apply not_elem_of_cons in Hjn as [_ Hjn].
  - split_and!.
    + intros q Hne. rewrite Hq, Hg by done. by apply lookup_set_input_ne.
    + intros j Hjn. apply not_elem_of_cons in Hjn as [Hji Hjn].
      rewrite Hj, Hg by done. by apply inputs_set_input_lookup_ne.
    + right.
      assert (inputs (bmg t') node ≠ inputs (bmg t) node) as Hchanged.
      { intros Heq'. specialize (Hj i Hi). rewrite Heq', Hg in Hj.
        rewrite (inputs_set_input_lookup _ _ _ _ _ Hc) in Hj. congruence. }
      destruct Hcases as [(_ & ->)|(-> & _)]; done.
Qed.

Lemma pf_fix_node_cases t node :
  (∀ q, node ≠ q -> bmg (fix_node' t node) !! q = bmg t !! q)
  ∧ ((bmg (fix_node' t node) = bmg t
      ∧ (fix_inputs' node t).2 = false
      ∧ fix_node' t node = (fix_inputs' node t).1)
     ∨ (inputs (bmg (fix_node' t node)) node ≠ inputs (bmg t) node
        ∧ (fix_inputs' node t).2 = true
        ∧ world (fix_node' t node)
          = update_type (bmg (fix_inputs' node t).1) (world (fix_inputs' node t).1) node)).
Proof.
  unfold fix_node. destruct (fix_inputs' node t) as [t' u'] eqn:Hrun.
  unfold fix_inputs in Hrun.
  destruct (pf_fix_inputs_loop_graph _ _ _ _ _ _ (NoDup_seq _ _) Hrun)
    as (Hq & _ & Hcases).
  destruct Hcases as [(Hg & ->)|(-> & Hchanged)]; pfields.
  - split_and!; auto.
  - split_and!; auto.
Qed.

Lemma pf_run_nodes_cons t node nodes :
  run_nodes' t (node :: nodes) = run_nodes' (fix_node' t node) nodes.
Proof. reflexivity. Qed.

Lemma pf_run_nodes_inv (P : State W E -> Prop) :
  (∀ node i c t t' wrote,
      input_step' node i c t t' wrote -> inputs (bmg t) node !! i = Some c ->
      P t -> P t') ->
  (∀ t node,
      P t ->
      P (mkState (bmg t) (update_type (bmg t) (world t) node) (errors t)
           (replacements t) (reported t))) ->
  ∀ nodes t, P t -> P (run_nodes' t nodes).
Proof.
  intros Hstep Htyper nodes.
  induction nodes as [|node nodes IH]; intros t HP; [done|].
  unfold run_nodes. rewrite foldl_step. apply IH. unfold fix_node.
  destruct (fix_inputs' node t) as [t' u'] eqn:Hrun.
  assert (P t') as HP'.
  { unfold fix_inputs in Hrun.
    pose proof (pf_fix_inputs_loop_inv P node (Hstep node)
                  (seq 0 (length (inputs (bmg t) node))) t false HP) as HP'.
    by rewrite Hrun in HP'. }
  destruct u'; auto.
Qed.
End ProblemFixerFacts.

(** ** The template method with recording collaborators *)

Section RecordedProblemFixer.
Import ProblemFixerBase ProblemFixerSteps.
Context {W E : Type}.
Variable update_type : Graph -> W -> BMGNode -> W.
Variable _needs_fixing : Graph -> W -> BMGNode -> bool * W.
Variable _get_replacement : Graph -> W -> BMGNode -> option BMGNode * W.
Variable _get_error : Graph -> W -> BMGNode -> nat -> option E * W.
Implicit Types (t : State (W * Log E) E) (node c : BMGNode) (i : nat).

Local Abbreviation r_update_type := (rec_update_type (E := E) update_type).
Local Abbreviation r_needs_fixing := (rec_needs_fixing (E := E) _needs_fixing).
Local Abbreviation r_get_replacement := (rec_get_replacement (E := E) _get_replacement).
Local Abbreviation r_get_error := (rec_get_error _get_error).
Local Abbreviation r_input_step :=
  (input_step r_needs_fixing r_get_replacement r_get_error).
Local Abbreviation r_fix_node :=
  (fix_node r_update_type r_needs_fixing r_get_replacement r_get_error).
Local Abbreviation r_run_nodes :=
  (run_nodes r_update_type r_needs_fixing r_get_replacement r_get_error).

Lemma rec_needs_fixing_inv g (wl : W * Log E) c needs wl' :
  r_needs_fixing g wl c = (needs, wl') ->
  (_needs_fixing g wl.1 c).1 = needs ∧ wl'.2 = wl.2 ++ [needs_fixing_call c needs].
Proof.
  unfold rec_needs_fixing. destruct (_needs_fixing g wl.1 c) as [needs' w].
  by intros [= <- <-].
Qed.

Lemma rec_get_replacement_inv g (wl : W * Log E) c replacement wl' :
  r_get_replacement g wl c = (replacement, wl') ->
  (_get_replacement g wl.1 c).1 = replacement
  ∧ wl'.2 = wl.2 ++ [get_replacement_call c replacement].
Proof.
  unfold rec_get_replacement. destruct (_get_replacement g wl.1 c) as [r' w].
  by intros [= <- <-].
Qed.

Lemma rec_get_error_inv g (wl : W * Log E) node i error wl' :
  r_get_error g wl node i = (error, wl') ->
  wl'.2 = wl.2 ++ [get_error_call node i (inputs g node !! i) error].
Proof.
  unfold rec_get_error. destruct (_get_error g wl.1 node i) as [error' w].
  by intros [= <- <-].
Qed.

Lemma pf_recorded_step_accounted before node i c t t' wrote :
  r_input_step node i c t t' wrote ->
  inputs (bmg t) node !! i = Some c ->
  accounted before 1 (errors t) (reported t) (world t).2 ->
  accounted before 1 (errors t') (reported t') (world t').2.
Proof.
  intros Hstep Hc Hacc. pstep_cases Hstep; try done.
  - apply rec_needs_fixing_inv in Hneeds as [_ ->]. by apply accounted_snoc.
  - apply rec_needs_fixing_inv in Hneeds as [_ Hlog1].
    apply rec_get_replacement_inv in Hrepl as [_ ->]. rewrite Hlog1.
    apply accounted_snoc; [done|]. by apply accounted_snoc.
  - apply rec_needs_fixing_inv in Hneeds as [_ Hlog1].
    apply rec_get_replacement_inv in Hrepl as [_ ->]. rewrite Hlog1.
    apply accounted_snoc; [done|]. by apply accounted_snoc.
  - apply rec_needs_fixing_inv in Hneeds as [_ Hlog1].
    apply rec_get_replacement_inv in Hrepl as [_ ->]. rewrite Hlog1.
    apply accounted_snoc; [done|]. by apply accounted_snoc.
  - apply rec_needs_fixing_inv in Hneeds as [_ Hlog1].
    apply rec_get_replacement_inv in Hrepl as [_ Hlog2].
    apply rec_get_error_inv in Hask as ->. rewrite Hlog2, Hlog1, Hc.
    apply accounted_error; [done|].
    apply accounted_snoc; [done|]. by apply accounted_snoc.
Qed.

Lemma pf_recorded_pass_accounted before nodes t :
  accounted before 1 (errors t) (reported t) (world t).2 ->
  accounted before 1 (errors (r_run_nodes t nodes)) (reported (r_run_nodes t nodes))
    (world (r_run_nodes t nodes)).2.
Proof.
  apply (pf_run_nodes_inv r_update_type r_needs_fixing r_get_replacement r_get_error
           (λ t, accounted before 1 (errors t) (reported t) (world t).2)).
  - intros node i c t1 t2 wrote. apply pf_recorded_step_accounted.
  - intros t1 node Hacc. pfields. simpl. by apply accounted_snoc.
Qed.

Lemma pf_recorded_step_typer_calls node i c t t' wrote :
  r_input_step node i c t t' wrote ->
  update_type_calls (world t').2 = update_type_calls (world t).2.
Proof.
  intros Hstep. pstep_cases Hstep; try done.
  - apply rec_needs_fixing_inv in Hneeds as [_ ->].
    by rewrite update_type_calls_snoc, app_nil_r.
  - apply rec_needs_fixing_inv in Hneeds as [_ Hlog1].
    apply rec_get_replacement_inv in Hrepl as [_ ->]. rewrite Hlog1.
    by rewrite !update_type_calls_snoc, !app_nil_r.
  - apply rec_needs_fixing_inv in Hneeds as [_ Hlog1].
    apply rec_get_replacement_inv in Hrepl as [_ ->]. rewrite Hlog1.
    by rewrite !update_type_calls_snoc, !app_nil_r.
  - apply rec_needs_fixing_inv in Hneeds as [_ Hlog1].
    apply rec_get_replacement_inv in Hrepl as [_ ->]. rewrite Hlog1.
    by rewrite !update_type_calls_snoc, !app_nil_r.
  - apply rec_needs_fixing_inv in Hneeds as [_ Hlog1].
    apply rec_get_replacement_inv in Hrepl as [_ Hlog2].
    apply rec_get_error_inv in Hask as ->. rewrite Hlog2, Hlog1.
    by rewrite !update_type_calls_snoc, !app_nil_r.
Qed.

Lemma pf_recorded_fix_node_typer t node :
  let t' := r_fix_node t node in
  update_type_calls (world t').2
  = update_type_calls (world t).2
    ++ (if decide (inputs (bmg t') node = inputs (bmg t) node) then [] else [node]).
Proof.
  intros t'.
  assert (update_type_calls
            (world (fix_inputs r_needs_fixing r_get_replacement r_get_error node t).1).2
          = update_type_calls (world t).2) as Hloop.
  { unfold fix_inputs.
    apply (pf_fix_inputs_loop_inv r_needs_fixing r_get_replacement r_get_error
             (λ t1, update_type_calls (world t1).2 = update_type_calls (world t).2));
      [|done].
    intros i c t1 t2 wrote Hstep _ <-. by eapply pf_recorded_step_typer_calls. }
  destruct (pf_fix_node_cases r_update_type r_needs_fixing r_get_replacement
              r_get_error t node) as (_ & Hcases).
  fold t' in Hcases.
  destruct Hcases as [(Hg & _ & Ht')|(Hchanged & _ & Ht')].
  - rewrite decide_True by (by rewrite Hg). by rewrite app_nil_r, Ht'.
  - rewrite decide_False by done. rewrite Ht'. simpl.
    by rewrite update_type_calls_snoc, Hloop.
Qed.
End RecordedProblemFixer.

(** C4.  In one pass of either driver, [get_error] is called at most once for
    edges pointing at any one node [c] (a call is counted for [c] when the
    edge it is made for points at [c] at the time), so at most one diagnostic
    for [c] is appended to the report, whether or not a diagnostic function
    is supplied and whatever it yields; and the report holds exactly the
    diagnostics these calls yielded, after what it held before. *)
Theorem one_diagnostic_per_node {W E : Type}
  (all_ancestor_nodes : Graph -> list BMGNode)
  (update_type : Graph -> W -> BMGNode -> W) (node_fixer : NodeFixer W)
  (get_error : option (Graph -> W -> BMGNode -> nat -> option E * W))
  (_needs_fixing : Graph -> W -> BMGNode -> bool * W)
  (_get_replacement : Graph -> W -> BMGNode -> option BMGNode * W)
  (_get_error : Graph -> W -> BMGNode -> nat -> option E * W)
  (g : Graph) (w : W) (report : ErrorReport E) (c : BMGNode) :
  let out :=
    ancestors_first all_ancestor_nodes (rec_update_type update_type)
      (rec_node_fixer node_fixer) (rec_get_error <$> get_error) g (w, []) in
  let out' :=
    ProblemFixerBase.fix_problems all_ancestor_nodes (rec_update_type update_type)
      (rec_needs_fixing _needs_fixing) (rec_get_replacement _get_replacement)
      (rec_get_error _get_error) g (w, []) report in
  (out.1.1.2 = diagnostics out.2.2
   ∧ get_error_calls c out.2.2 ≤ 1
   ∧ length (diagnostics_for c out.2.2) ≤ 1)
  ∧ (out'.1.1 = report ++ diagnostics out'.2.2
     ∧ get_error_calls c out'.2.2 ≤ 1
     ∧ length (diagnostics_for c out'.2.2) ≤ 1).
Proof.
  intros out out'. split.
  - pose proof (recorded_pass_accounted update_type node_fixer get_error
                  (all_ancestor_nodes g) (start g (w, []))
                  (start_accounted g w
                     (match get_error with Some _ => 1 | None => 0 end))) as Hacc.
    split; [apply Hacc|].
    eapply accounted_at_most_once; [|exact Hacc]. destruct get_error; lia.
  - pose proof (pf_recorded_pass_accounted update_type _needs_fixing _get_replacement
                  _get_error report (all_ancestor_nodes g)
                  (ProblemFixerBase.start g (w, []) report)) as Hacc.
    unfold out', ProblemFixerBase.fix_problems. simpl.
    destruct Hacc as [Hreport Hcount].
    { split; [by rewrite app_nil_r|]. intros c'. simpl. by rewrite decide_False. }
    split; [done|]. eapply accounted_at_most_once; [|by split]. lia.
Qed.

(** ** The typer is told last *)

Lemma update_type_calls_app {E : Type} (l1 l2 : Log E) :
  update_type_calls (l1 ++ l2) = update_type_calls l1 ++ update_type_calls l2.
Proof. unfold update_type_calls. apply omap_app. Qed.

Section TyperLast.
Context {W E : Type}.
Variable update_type : Graph -> W -> BMGNode -> W.
Variable node_fixer : NodeFixer W.
Variable get_error : option (Graph -> W -> BMGNode -> nat -> option E * W).
Variable _needs_fixing : Graph -> W -> BMGNode -> bool * W.
Variable _get_replacement : Graph -> W -> BMGNode -> option BMGNode * W.
Variable _get_error : Graph -> W -> BMGNode -> nat -> option E * W.

Local Abbreviation r_update_type := (rec_update_type (E := E) update_type).
Local Abbreviation r_node_fixer := (rec_node_fixer (E := E) node_fixer).
Local Abbreviation r_get_error := (rec_get_error <$> get_error).
Local Abbreviation r_needs_fixing := (rec_needs_fixing (E := E) _needs_fixing).
Local Abbreviation r_get_replacement := (rec_get_replacement (E := E) _get_replacement).

(** A turn of the inner loop adds calls to the log, none of them of the
    typer. *)
Lemma recorded_step_log_grows node i c (s s' : PassState (W * Log E) E) wrote :
  input_step r_node_fixer r_get_error node i c s s' wrote ->
  ∃ extra, (world s').2 = (world s).2 ++ extra ∧ update_type_calls extra = [].
Proof.
  intros Hstep. step_cases Hstep.
  - exists []. by rewrite app_nil_r.
  - exists []. by rewrite app_nil_r.
  - exists []. by rewrite app_nil_r.
  - apply rec_node_fixer_inv in Hfix as [_ ->]. by eexists.
  - apply rec_node_fixer_inv in Hfix as [_ ->]. by eexists.
  - apply rec_node_fixer_inv in Hfix as [_ Hlog].
    apply rec_ask_error_inv in Hask as [(_ & _ & ->)|(_ & ->)]; rewrite Hlog.
    + by eexists.
    + rewrite <- app_assoc. by eexists.
  - apply rec_node_fixer_inv in Hfix as [_ ->]. by eexists.
Qed.

Lemma recorded_loop_log_grows node indices (s : PassState (W * Log E) E) u :
  ∃ during,
    (world (foldl (fix_input r_node_fixer r_get_error node) (s, u) indices).1).2
    = (world s).2 ++ during
    ∧ update_type_calls during = [].
Proof.
  apply (fix_inputs_loop_inv r_node_fixer r_get_error
           (λ s1, ∃ during, (world s1).2 = (world s).2 ++ during
                            ∧ update_type_calls during = [])).
  - intros i c s1 s2 wrote Hstep _ (during & Hlog & Hnone).
    destruct (recorded_step_log_grows _ _ _ _ _ _ Hstep) as (extra & -> & Hextra).
    exists (during ++ extra). rewrite Hlog, app_assoc. split; [done|].
    by rewrite update_type_calls_app, Hnone, Hextra.
  - exists []. by rewrite app_nil_r.
Qed.

(** After its inputs have been gone through, and only then, the typer is
    told of the node, if its input list has changed. *)
Lemma recorded_fix_node_typer_last (s : PassState (W * Log E) E) node :
  let s1 := (fix_inputs r_node_fixer r_get_error node s).1 in
  let s' := fix_node r_update_type r_node_fixer r_get_error s node in
  s' = (if decide (inputs (bmg s') node = inputs (bmg s) node) then s1
        else with_world s1 (r_update_type (bmg s1) (world s1) node))
  ∧ ∃ during,
      (world s1).2 = (world s).2 ++ during
      ∧ update_type_calls during = []
      ∧ (world s').2
        = (world s1).2
          ++ (if decide (inputs (bmg s') node = inputs (bmg s) node) then []
              else [update_type_call node]).
Proof.
  intros s1 s'.
  destruct (recorded_loop_log_grows node (seq 0 (length (inputs (bmg s) node))) s false)
    as (during & Hduring & Hnone).
  destruct (fix_node_cases r_update_type r_node_fixer r_get_error s node)
    as (_ & Hcases & _).
  fold s' in Hcases. fold s1 in Hcases.
  destruct Hcases as [(Hg & _ & _ & Hs')|(Hchanged & _ & Hs' & _)].
  - rewrite !decide_True by (by rewrite Hg). split; [done|].
    exists during. split_and!; [done|done|]. by rewrite Hs', app_nil_r.
  - rewrite !decide_False by done. split; [done|].
    exists during. split_and!; [done|done|]. by rewrite Hs'.
Qed.

Lemma pf_recorded_step_log_grows node i c
  (t t' : ProblemFixerBase.State (W * Log E) E) wrote :
  ProblemFixerSteps.input_step r_needs_fixing r_get_replacement
    (rec_get_error _get_error) node i c t t' wrote ->
  ∃ extra,
    (ProblemFixerBase.world t').2 = (ProblemFixerBase.world t).2 ++ extra
    ∧ update_type_calls extra = [].
Proof.
  intros Hstep. pstep_cases Hstep.
  - exists []. by rewrite app_nil_r.
  - exists []. by rewrite app_nil_r.
  - apply rec_needs_fixing_inv in Hneeds as [_ ->]. by eexists.
  - apply rec_needs_fixing_inv in Hneeds as [_ Hlog1].
    apply rec_get_replacement_inv in Hrepl as [_ ->]. rewrite Hlog1, <- app_assoc.
    by eexists.
  - apply rec_needs_fixing_inv in Hneeds as [_ Hlog1].
    apply rec_get_replacement_inv in Hrepl as [_ ->]. rewrite Hlog1, <- app_assoc.
    by eexists.
  - apply rec_needs_fixing_inv in Hneeds as [_ Hlog1].
    apply rec_get_replacement_inv in Hrepl as [_ ->]. rewrite Hlog1, <- app_assoc.
    by eexists.
  - apply rec_needs_fixing_inv in Hneeds as [_ Hlog1].
    apply rec_get_replacement_inv in Hrepl as [_ Hlog2].
    apply rec_get_error_inv in Hask as ->. rewrite Hlog2, Hlog1, <- !app_assoc.
    by eexists.
Qed.

Lemma pf_recorded_loop_log_grows node indices
  (t : ProblemFixerBase.State (W * Log E) E) u :
  ∃ during,
    (ProblemFixerBase.world
       (foldl (ProblemFixerBase.fix_input r_needs_fixing r_get_replacement
                 (rec_get_error _get_error) node) (t, u) indices).1).2
    = (ProblemFixerBase.world t).2 ++ during
    ∧ update_type_calls during = [].
Proof.
  apply (pf_fix_inputs_loop_inv r_needs_fixing r_get_replacement
           (rec_get_error _get_error)
           (λ t1, ∃ during,
              (ProblemFixerBase.world t1).2 = (ProblemFixerBase.world t).2 ++ during
              ∧ update_type_calls during = [])).
  - intros i c t1 t2 wrote Hstep _ (during & Hlog & Hnone).
    destruct (pf_recorded_step_log_grows _ _ _ _ _ _ Hstep) as (extra & -> & Hextra).
    exists (during ++ extra). rewrite Hlog, app_assoc. split; [done|].
    by rewrite update_type_calls_app, Hnone, Hextra.
  - exists []. by rewrite app_nil_r.
Qed.

Lemma pf_recorded_fix_node_typer_last (t : ProblemFixerBase.State (W * Log E) E) node :
  let t1 :=
    (ProblemFixerBase.fix_inputs r_needs_fixing r_get_replacement
       (rec_get_error _get_error) node t).1 in
  let t' :=
    ProblemFixerBase.fix_node r_update_type r_needs_fixing r_get_replacement
      (rec_get_error _get_error) t node in
  t' = (if decide (inputs (ProblemFixerBase.bmg t') node
                   = inputs (ProblemFixerBase.bmg t) node) then t1
        else ProblemFixerBase.mkState (ProblemFixerBase.bmg t1)
               (r_update_type (ProblemFixerBase.bmg t1) (ProblemFixerBase.world t1) node)
               (ProblemFixerBase.errors t1) (ProblemFixerBase.replacements t1)
               (ProblemFixerBase.reported t1))
  ∧ ∃ during,
      (ProblemFixerBase.world t1).2 = (ProblemFixerBase.world t).2 ++ during
      ∧ update_type_calls during = []
      ∧ (ProblemFixerBase.world t').2
        = (ProblemFixerBase.world t1).2
          ++ (if decide (inputs (ProblemFixerBase.bmg t') node
                         = inputs (ProblemFixerBase.bmg t) node) then []
              else [update_type_call node]).
Proof.
  intros t1 t'.
  destruct (pf_recorded_loop_log_grows node
              (seq 0 (length (inputs (ProblemFixerBase.bmg t) node))) t false)
    as (during & Hduring & Hnone).
  unfold t', t1, ProblemFixerBase.fix_node in *.
  unfold ProblemFixerBase.fix_inputs in *.
  destruct (foldl _ (t, false) _) as [t2 u2] eqn:Hrun.
  destruct (pf_fix_inputs_loop_graph _ _ _ _ _ _ _ _ _ (NoDup_seq _ _) Hrun)
    as (_ & _ & [(Hg & ->)|(-> & Hchanged)]); pfields.
  - rewrite !decide_True by (by rewrite Hg). split; [done|].
    exists during. split_and!; [done|done|]. by rewrite app_nil_r.
  - rewrite !decide_False by done. split; [done|].
    exists during. by split_and!.
Qed.
End TyperLast.

(** C5.  In both drivers, enumerating a node first goes through all its
    inputs, with calls of the policy and of [get_error] only, and then, after
    the inputs have been processed, calls [typer.update_type] for the node
    exactly when the node's input list is no longer what it was when the
    enumeration began, that is, when one of its edges was assigned a node
    other than the one it pointed at.  The typer is called on the graph and
    the world as the loop over the inputs left them, the call is the last
    thing enumerating the node does, and no other call of the typer is made
    meanwhile. *)
Theorem typer_notified_iff_rewritten {W E : Type}
  (update_type : Graph -> W -> BMGNode -> W) (node_fixer : NodeFixer W)
  (get_error : option (Graph -> W -> BMGNode -> nat -> option E * W))
  (_needs_fixing : Graph -> W -> BMGNode -> bool * W)
  (_get_replacement : Graph -> W -> BMGNode -> option BMGNode * W)
  (_get_error : Graph -> W -> BMGNode -> nat -> option E * W)
  (s : PassState (W * Log E) E) (t : ProblemFixerBase.State (W * Log E) E)
  (node : BMGNode) :
  let s1 :=
    (fix_inputs (rec_node_fixer node_fixer) (rec_get_error <$> get_error) node s).1 in
  let s' :=
    fix_node (rec_update_type update_type) (rec_node_fixer node_fixer)
      (rec_get_error <$> get_error) s node in
  let t1 :=
    (ProblemFixerBase.fix_inputs (rec_needs_fixing _needs_fixing)
       (rec_get_replacement _get_replacement) (rec_get_error _get_error) node t).1 in
  let t' :=
    ProblemFixerBase.fix_node (rec_update_type update_type)
      (rec_needs_fixing _needs_fixing) (rec_get_replacement _get_replacement)
      (rec_get_error _get_error) t node in
  (s' = (if decide (inputs (bmg s') node = inputs (bmg s) node) then s1
         else with_world s1 (rec_update_type update_type (bmg s1) (world s1) node))
   ∧ ∃ during,
       (world s1).2 = (world s).2 ++ during
       ∧ update_type_calls during = []
       ∧ (world s').2
         = (world s1).2
           ++ (if decide (inputs (bmg s') node = inputs (bmg s) node) then []
               else [update_type_call node]))
  ∧ (t' = (if decide (inputs (ProblemFixerBase.bmg t') node
                      = inputs (ProblemFixerBase.bmg t) node) then t1
           else ProblemFixerBase.mkState (ProblemFixerBase.bmg t1)
                  (rec_update_type update_type (ProblemFixerBase.bmg t1)
                     (ProblemFixerBase.world t1) node)
                  (ProblemFixerBase.errors t1) (ProblemFixerBase.replacements t1)
                  (ProblemFixerBase.reported t1))
     ∧ ∃ during,
         (ProblemFixerBase.world t1).2 = (ProblemFixerBase.world t).2 ++ during
         ∧ update_type_calls during = []
         ∧ (ProblemFixerBase.world t').2
           = (ProblemFixerBase.world t1).2
             ++ (if decide (inputs (ProblemFixerBase.bmg t') node
                            = inputs (ProblemFixerBase.bmg t) node) then []
                 else [update_type_call node])).
Proof.
  intros s1 s' t1 t'. split.
  - apply recorded_fix_node_typer_last.
  - apply pf_recorded_fix_node_typer_last.
Qed.

(** ** The two drivers side by side *)

Section SideBySide.
Context {W E : Type}.
Variable update_type : Graph -> W -> BMGNode -> W.
Variable policy : BMGNode -> NodeFixerResult.
Variable needs : BMGNode -> bool.
Variable replacement : BMGNode -> option BMGNode.
Variable get_error : option (Graph -> W -> BMGNode -> nat -> option E * W).
Hypothesis same : same_policy policy needs replacement.
Variable before : ErrorReport E.
Implicit Types (s : PassState W E) (t : ProblemFixerBase.State W E).

Local Abbreviation g_fix_input := (fix_input (pure_fixer policy) get_error).
Local Abbreviation p_fix_input :=
  (ProblemFixerBase.fix_input (pure_needs_fixing needs)
     (pure_get_replacement replacement) (ask_error get_error)).
Local Abbreviation g_fix_node := (fix_node update_type (pure_fixer policy) get_error).
Local Abbreviation p_fix_node :=
  (ProblemFixerBase.fix_node update_type (pure_needs_fixing needs)
     (pure_get_replacement replacement) (ask_error get_error)).

Lemma needs_of_result c :
  needs c = match policy c with
            | ANode r => if decide (c = r) then false else true
            | Fatal => true
            | PyNone | Inapplicable => false
            end.
Proof.
  destruct same as (Hneeds & _ & _). specialize (Hneeds c).
  unfold declines in Hneeds.
  destruct (policy c) as [r| | |] eqn:Hp.
  - destruct (decide (c = r)) as [<-|Hne].
    + destruct (needs c); [|done]. by destruct Hneeds as [[? _] _].
    + apply Hneeds. split; [congruence|]. by intros [?|?].
  - destruct (needs c); [|done]. destruct Hneeds as [[_ Hd] _]; [done|].
    destruct Hd. by left.
  - destruct (needs c); [|done]. destruct Hneeds as [[_ Hd] _]; [done|].
    destruct Hd. by right.
  - apply Hneeds. split; [congruence|]. by intros [?|?].
Qed.

Lemma follows_fix_input node i u s t :
  follows policy before s t ->
  ∃ t', p_fix_input node (t, u) i = (t', (g_fix_input node (s, u) i).2)
        ∧ follows policy before (g_fix_input node (s, u) i).1 t'.
Proof.
  intros Hfol.
  pose proof Hfol as (Hg & Hw & He & Hrep & Hrepl & Hfatal & Hnode).
  destruct same as (_ & Hsome & Hnone).
  destruct (fix_input_cases (pure_fixer policy) get_error node s u i)
    as [(Hc & ->)|(c & s' & wrote & Hc & -> & Hstep)];
    unfold ProblemFixerBase.fix_input; rewrite Hg, Hc; [by exists t|].
  rewrite (Hrepl c), Hw, Hrep, He. simpl. rewrite (needs_of_result c).
  unfold follows. step_cases Hstep.
  - rewrite (Hfatal c Hin).
    destruct (replacements s !! c) as [r|] eqn:Hr.
    { apply Hnode in Hr. rewrite (Hfatal c Hin) in Hr. done. }
    simpl. rewrite (Hnone c (Hfatal c Hin)). rewrite decide_True by done.
    eexists. split; [done|]. by pfields.
  - rewrite Hcached, decide_True by done. rewrite (Hnode c c Hcached).
    rewrite decide_True by done. simpl.
    eexists. split; [done|]. by pfields.
  - rewrite Hcached, decide_False by done. rewrite decide_False by done.
    eexists. split; [done|]. by pfields.
  - injection Hfix as Hp <-. rewrite Hcached, Hp, decide_True by done. simpl.
    eexists. split; [done|]. pfields. split_and!; try done.
    + intros c'. rewrite Hrepl. destruct (decide (c = c')) as [<-|Hne'].
      * rewrite lookup_insert_eq, Hcached. by rewrite decide_True.
      * by rewrite lookup_insert_ne.
    + intros c' r'. destruct (decide (c = c')) as [<-|Hne'].
      * rewrite lookup_insert_eq. congruence.
      * rewrite lookup_insert_ne by done. apply Hnode.
  - injection Hfix as Hp <-. rewrite Hcached, Hp, decide_False by done. simpl.
    rewrite (Hsome c r Hp Hne), decide_False by done.
    eexists. split; [done|]. pfields. split_and!; try done.
    + intros c'. destruct (decide (c = c')) as [<-|Hne'].
      * rewrite !lookup_insert_eq. by rewrite decide_False.
      * rewrite !lookup_insert_ne by done. apply Hrepl.
    + intros c' r'. destruct (decide (c = c')) as [<-|Hne'].
      * rewrite lookup_insert_eq. congruence.
      * rewrite lookup_insert_ne by done. apply Hnode.
  - injection Hfix as Hp <-. rewrite Hcached, Hp. simpl.
    rewrite (Hnone c Hp), decide_False by done. rewrite Hask.
    exists (ProblemFixerBase.mkState (bmg s) w'
              (report_error (before ++ errors s) error)
              (ProblemFixerBase.replacements t) ({[c]} ∪ reported s)).
    split; [by destruct error|]. pfields. split_and!; try done.
    + destruct error; simpl; [|done]. unfold add_error. by rewrite app_assoc.
    + intros c' Hc'. apply elem_of_union in Hc' as [Hc'|Hc']; [|auto].
      by apply elem_of_singleton in Hc' as ->.
  - injection Hfix as Hp <-. rewrite Hcached.
    assert (needs_false :
      match policy c with
      | ANode r => if decide (c = r) then false else true
      | Fatal => true
      | _ => false
      end = false).
    { destruct Hdec as [Hd|Hd]; rewrite Hd in Hp; by rewrite Hp. }
    rewrite needs_false. simpl.
    eexists. split; [done|]. by pfields.
Qed.
Lemma follows_fix_inputs node indices :
  ∀ u s t,
    follows policy before s t ->
    ∃ t', foldl (p_fix_input node) (t, u) indices
          = (t', (foldl (g_fix_input node) (s, u) indices).2)
          ∧ follows policy before (foldl (g_fix_input node) (s, u) indices).1 t'.
Proof.
  induction indices as [|i indices IH]; intros u s t Hfol; [by exists t|].
  rewrite !foldl_step.
  destruct (follows_fix_input node i u s t Hfol) as (t1 & -> & Hfol1).
  destruct (g_fix_input node (s, u) i) as [s1 u1]. by apply IH.
Qed.

Lemma follows_fix_node node s t :
  follows policy before s t ->
  follows policy before (g_fix_node s node) (p_fix_node t node).
Proof.
  intros Hfol. unfold fix_node, ProblemFixerBase.fix_node.
  unfold fix_inputs, ProblemFixerBase.fix_inputs.
  pose proof Hfol as (Hg & _).
  rewrite Hg.
  destruct (follows_fix_inputs node (seq 0 (length (inputs (bmg s) node))) false s t Hfol)
    as (t' & -> & Hfol').
  destruct (foldl (g_fix_input node) (s, false) _) as [s' u'].
  destruct u'; [|done].
  destruct Hfol' as (Hg' & Hw' & He' & Hrep' & Hrepl' & Hfatal' & Hnode').
  unfold follows. fields. pfields. rewrite Hg', Hw'. by split_and!.
Qed.

Lemma follows_run_nodes nodes :
  ∀ s t,
    follows policy before s t ->
    follows policy before
      (run_nodes update_type (pure_fixer policy) get_error s nodes)
      (ProblemFixerBase.run_nodes update_type (pure_needs_fixing needs)
         (pure_get_replacement replacement) (ask_error get_error) t nodes).
Proof.
  induction nodes as [|node nodes IH]; intros s t Hfol; [done|].
  unfold run_nodes, ProblemFixerBase.run_nodes. rewrite !foldl_step.
  apply IH. by apply follows_fix_node.
Qed.

Lemma follows_start g (w : W) :
  follows policy before (start g w) (ProblemFixerBase.start g w before).
Proof.
  unfold follows, start, ProblemFixerBase.start. fields. pfields.
  split_and!; try done.
  by rewrite app_nil_r.
Qed.

Lemma fix_problems_follows all_ancestor_nodes g (w : W) :
  ProblemFixerBase.fix_problems all_ancestor_nodes update_type
    (pure_needs_fixing needs) (pure_get_replacement replacement)
    (ask_error get_error) g w before
  = (before
       ++ (ancestors_first all_ancestor_nodes update_type (pure_fixer policy)
             get_error g w).1.1.2,
     (ancestors_first all_ancestor_nodes update_type (pure_fixer policy)
        get_error g w).1.2,
     (ancestors_first all_ancestor_nodes update_type (pure_fixer policy)
        get_error g w).2).
Proof.
  unfold ProblemFixerBase.fix_problems, ancestors_first. simpl.
  destruct (follows_run_nodes (all_ancestor_nodes g) _ _ (follows_start g w))
    as (-> & -> & -> & _). done.
Qed.
End SideBySide.

(** C1, as amended.  Let a policy that looks at the node only be told in the
    two ways, [needs] being true iff the fixer's result is neither the node
    itself nor [None] or [Inapplicable], [replacement] being the replacement
    when the fixer yields one and nothing when it yields [Fatal], and
    [_get_error] being the diagnostic function of the graph fixer (or the
    default returning nothing when none is supplied).  Then [fix_problems]
    leaves the same graph and the same world as [ancestors_first] and adds the
    same diagnostics to its report; with a typer and a diagnostic function
    that record their calls, the two drivers call [typer.update_type] with the
    same nodes in the same order and [get_error] for the same edges with the
    same results.  Nothing is said of how often the policy is consulted. *)
Theorem fix_problems_matches_graph_fixer {W E : Type}
  (all_ancestor_nodes : Graph -> list BMGNode)
  (update_type : Graph -> W -> BMGNode -> W)
  (policy : BMGNode -> NodeFixerResult)
  (needs : BMGNode -> bool) (replacement : BMGNode -> option BMGNode)
  (get_error : option (Graph -> W -> BMGNode -> nat -> option E * W))
  (g : Graph) (w : W) (report : ErrorReport E) :
  same_policy policy needs replacement ->
  (let out :=
     ancestors_first all_ancestor_nodes update_type (pure_fixer policy) get_error g w in
   ProblemFixerBase.fix_problems all_ancestor_nodes update_type
     (pure_needs_fixing needs) (pure_get_replacement replacement)
     (ask_error get_error) g w report
   = (report ++ out.1.1.2, out.1.2, out.2))
  ∧ (let out :=
       ancestors_first all_ancestor_nodes (rec_update_type update_type)
         (pure_fixer policy) (rec_get_error <$> get_error) g (w, []) in
     let out' :=
       ProblemFixerBase.fix_problems all_ancestor_nodes (rec_update_type update_type)
         (pure_needs_fixing needs) (pure_get_replacement replacement)
         (ask_error (rec_get_error <$> get_error)) g (w, []) report in
     out'.1.2 = out.1.2
     ∧ update_type_calls out'.2.2 = update_type_calls out.2.2
     ∧ out'.2.2 = out.2.2).
Proof.
  intros Hsame. split.
  - intros out. by apply fix_problems_follows.
  - intros out out'. unfold out'.
    rewrite (fix_problems_follows (rec_update_type update_type) policy needs
               replacement (rec_get_error <$> get_error) Hsame report
               all_ancestor_nodes g (w, [])).
    done.
Qed.

Lemma fix_problems_matches_graph_fixer_witness :
  ProblemFixerBase.fix_problems shared_nodes no_typer
    (pure_needs_fixing (λ n, bool_decide (n = 1%positive)))
    (pure_get_replacement (λ n, if decide (n = 1%positive) then Some 9%positive else None))
    (ask_error (Some edge_error)) shared_graph () []
  = ([], <[3%positive := [9%positive]]> (<[2%positive := [9%positive]]> shared_graph), ()).
Proof.
  etrans.
  - apply (fix_problems_matches_graph_fixer shared_nodes no_typer
             (λ n, if decide (n = 1%positive) then ANode 9%positive else Inapplicable)).
    unfold same_policy, declines. split_and!.
    + intros n. destruct (decide (n = 1%positive)) as [->|Hne].
      * rewrite bool_decide_eq_true_2 by done. split; [|done]. intros _.
        split; [discriminate|]. intros [H|H]; discriminate H.
      * rewrite bool_decide_eq_false_2 by done. split; [done|].
        intros [_ H]. destruct H. by right.
    + intros n r. destruct (decide (n = 1%positive)); [|done]. by intros [= <-].
    + intros n. by destruct (decide (n = 1%positive)).
  - by vm_compute.
Defined.

(** C1 as it stands fails: for the policy that finds every node fatal, told
    in the two ways, the graph fixer consults the policy about node 1, an
    input of the two nodes 2 and 3, once, and [fix_problems] consults it
    twice. *)
Lemma fix_problems_asks_more_often :
  same_policy (λ _, Fatal) (λ _, true) (λ _, None)
  ∧ node_fixer_calls 1%positive
      (ancestors_first shared_nodes (rec_update_type no_typer)
         (rec_node_fixer (pure_fixer (λ _, Fatal))) (Some (rec_get_error edge_error))
         shared_graph ((), [])).2.2 = 1
  ∧ needs_fixing_calls 1%positive
      (ProblemFixerBase.fix_problems shared_nodes (rec_update_type no_typer)
         (rec_needs_fixing (pure_needs_fixing (λ _, true)))
         (rec_get_replacement (pure_get_replacement (λ _, None)))
         (rec_get_error edge_error) shared_graph ((), []) []).2.2 = 2.
Proof.
  split; [|by vm_compute].
  unfold same_policy, declines. split_and!; try done.
  intros n. split; [|done]. intros _. split; [done|]. intros [H|H]; discriminate H.
Qed.

(** ** Recording changes nothing else

    A pass run with recording collaborators is, the log apart, the pass run
    with the collaborators they wrap. *)

Section Transparency.
Context {W E : Type}.
Variable all_ancestor_nodes : Graph -> list BMGNode.
Variable update_type : Graph -> W -> BMGNode -> W.
Variable node_fixer : NodeFixer W.
Variable get_error : option (Graph -> W -> BMGNode -> nat -> option E * W).
Variable _needs_fixing : Graph -> W -> BMGNode -> bool * W.
Variable _get_replacement : Graph -> W -> BMGNode -> option BMGNode * W.
Variable _get_error : Graph -> W -> BMGNode -> nat -> option E * W.

Local Abbreviation r_update_type := (rec_update_type (E := E) update_type).
Local Abbreviation r_node_fixer := (rec_node_fixer (E := E) node_fixer).
Local Abbreviation r_get_error := (rec_get_error <$> get_error).
Local Abbreviation r_needs_fixing := (rec_needs_fixing (E := E) _needs_fixing).
Local Abbreviation r_get_replacement := (rec_get_replacement (E := E) _get_replacement).

Lemma erase_fix_input node (s : PassState (W * Log E) E) u i :
  fix_input node_fixer get_error node (erase s, u) i
  = (erase (fix_input r_node_fixer r_get_error node (s, u) i).1,
     (fix_input r_node_fixer r_get_error node (s, u) i).2).
Proof.
  unfold fix_input, erase. fields.
  destruct (inputs (bmg s) node !! i) as [c|]; [|done].
  destruct (decide (c ∈ reported s)); [done|].
  destruct (replacements s !! c) as [r|].
  { by destruct (decide (c = r)). }
  unfold rec_node_fixer.
  destruct (node_fixer (bmg s) (world s).1 c) as [[r| | |] w]; fields; try done.
  - by destruct (decide (c = r)).
  - destruct get_error as [ge|]; simpl; [|done].
    unfold rec_get_error. fields.
    by destruct (ge (bmg s) w node i) as [[e|] w'].
Qed.

Lemma erase_fix_inputs node indices :
  ∀ (s : PassState (W * Log E) E) u,
    foldl (fix_input node_fixer get_error node) (erase s, u) indices
    = (erase (foldl (fix_input r_node_fixer r_get_error node) (s, u) indices).1,
       (foldl (fix_input r_node_fixer r_get_error node) (s, u) indices).2).
Proof.
  induction indices as [|i indices IH]; intros s u; [done|].
  rewrite !foldl_step, erase_fix_input.
  destruct (fix_input r_node_fixer r_get_error node (s, u) i) as [s1 u1].
  apply IH.
Qed.

Lemma erase_run_nodes nodes :
  ∀ s : PassState (W * Log E) E,
    run_nodes update_type node_fixer get_error (erase s) nodes
    = erase (run_nodes r_update_type r_node_fixer r_get_error s nodes).
Proof.
  induction nodes as [|node nodes IH]; intros s; [done|].
  rewrite !run_nodes_cons, <- IH. f_equal.
  unfold fix_node, fix_inputs.
  change (bmg (erase s)) with (bmg s). rewrite erase_fix_inputs.
  destruct (foldl (fix_input r_node_fixer r_get_error node) (s, false) _) as [s1 u1].
  fields. by destruct u1.
Qed.

Lemma recording_is_transparent (g : Graph) (w : W) (log : Log E) :
  let out :=
    ancestors_first all_ancestor_nodes r_update_type r_node_fixer r_get_error
      g (w, log) in
  ancestors_first all_ancestor_nodes update_type node_fixer get_error g w
  = (out.1.1.1, out.1.1.2, out.1.2, out.2.1).
Proof.
  unfold ancestors_first. cbn [fst snd].
  change (start g w) with (erase (start (E := E) g (w, log))).
  by rewrite erase_run_nodes.
Qed.

Lemma pf_erase_fix_input node (t : ProblemFixerBase.State (W * Log E) E) u i :
  ProblemFixerBase.fix_input _needs_fixing _get_replacement _get_error node
    (pf_erase t, u) i
  = (pf_erase
       (ProblemFixerBase.fix_input r_needs_fixing r_get_replacement
          (rec_get_error _get_error) node (t, u) i).1,
     (ProblemFixerBase.fix_input r_needs_fixing r_get_replacement
        (rec_get_error _get_error) node (t, u) i).2).
Proof.
  unfold ProblemFixerBase.fix_input, pf_erase. pfields.
  destruct (inputs (ProblemFixerBase.bmg t) node !! i) as [c|]; [|done].
  destruct (ProblemFixerBase.replacements t !! c) as [r|].
  { by destruct (decide (c = r)). }
  unfold rec_needs_fixing.
  destruct (_needs_fixing (ProblemFixerBase.bmg t) (ProblemFixerBase.world t).1 c)
    as [[|] w1]; pfields; simpl; [|done].
  unfold rec_get_replacement. pfields.
  destruct (_get_replacement (ProblemFixerBase.bmg t) w1 c) as [[r|] w2]; pfields.
  { by destruct (decide (c = r)). }
  destruct (decide (c ∈ ProblemFixerBase.reported t)); [done|].
  unfold rec_get_error. pfields.
  by destruct (_get_error (ProblemFixerBase.bmg t) w2 node i) as [[e|] w3].
Qed.

Lemma pf_erase_fix_inputs node indices :
  ∀ (t : ProblemFixerBase.State (W * Log E) E) u,
    foldl (ProblemFixerBase.fix_input _needs_fixing _get_replacement _get_error node)
      (pf_erase t, u) indices
    = (pf_erase
         (foldl (ProblemFixerBase.fix_input r_needs_fixing r_get_replacement
                   (rec_get_error _get_error) node) (t, u) indices).1,
       (foldl (ProblemFixerBase.fix_input r_needs_fixing r_get_replacement
                 (rec_get_error _get_error) node) (t, u) indices).2).
Proof.
  induction indices as [|i indices IH]; intros t u; [done|].
  rewrite !foldl_step, pf_erase_fix_input.
  destruct (ProblemFixerBase.fix_input r_needs_fixing r_get_replacement
              (rec_get_error _get_error) node (t, u) i) as [t1 u1].
  apply IH.
Qed.

Lemma pf_erase_run_nodes nodes :
  ∀ t : ProblemFixerBase.State (W * Log E) E,
    ProblemFixerBase.run_nodes update_type _needs_fixing _get_replacement _get_error
      (pf_erase t) nodes
    = pf_erase
        (ProblemFixerBase.run_nodes r_update_type r_needs_fixing r_get_replacement
           (rec_get_error _get_error) t nodes).
Proof.
  induction nodes as [|node nodes IH]; intros t; [done|].
  rewrite !pf_run_nodes_cons, <- IH. f_equal.
  unfold ProblemFixerBase.fix_node, ProblemFixerBase.fix_inputs.
  change (ProblemFixerBase.bmg (pf_erase t)) with (ProblemFixerBase.bmg t).
  rewrite pf_erase_fix_inputs.
  destruct (foldl _ (t, false) _) as [t1 u1].
  pfields. by destruct u1.
Qed.

Lemma pf_recording_is_transparent (g : Graph) (w : W) (log : Log E)
  (report : ErrorReport E) :
  let out :=
    ProblemFixerBase.fix_problems all_ancestor_nodes r_update_type r_needs_fixing
      r_get_replacement (rec_get_error _get_error) g (w, log) report in
  ProblemFixerBase.fix_problems all_ancestor_nodes update_type _needs_fixing
    _get_replacement _get_error g w report
  = (out.1.1, out.1.2, out.2.1).
Proof.
  unfold ProblemFixerBase.fix_problems. cbn [fst snd].
  change (ProblemFixerBase.start g w report)
    with (pf_erase (ProblemFixerBase.start (E := E) g (w, log) report)).
  by rewrite pf_erase_run_nodes.
Qed.
End Transparency.

(** * Further properties *)

(** ** Composing the combinators *)

Section CombinatorComposition.
Context {W T : Type}.
Variable isinstance : BMGNode -> T -> bool.
Implicit Types (fixers : list (NodeFixer W)) (g : Graph) (w : W) (node : BMGNode).

Lemma first_match_cons_nested fixers (rest : list (NodeFixer W)) g w node :
  first_match (node_fixer_first_match fixers :: rest) g w node
  = first_match (fixers ++ rest) g w node.
Proof.
  revert w. induction fixers as [|fixer fixers IH]; intros w; [done|].
  unfold node_fixer_first_match in *. cbn [first_match app] in *.
  destruct (fixer g w node) as [result w1].
  destruct (is_not_None result && is_not_Inapplicable result) eqn:Hdec.
  - by rewrite Hdec.
  - apply IH.
Qed.
End CombinatorComposition.

(** X1.  First-match fixers nest: the first-match of a list of first-match
    fixers is the first-match of the concatenation of their lists, results
    and effects alike. *)
Theorem first_match_flattens {W : Type} (groups : list (list (NodeFixer W)))
  (g : Graph) (w : W) (node : BMGNode) :
  node_fixer_first_match (node_fixer_first_match <$> groups) g w node
  = node_fixer_first_match (concat groups) g w node.
Proof.
  unfold node_fixer_first_match at 1 3. revert w.
  induction groups as [|fixers groups IH]; intros w; [done|].
  rewrite fmap_cons. cbn [concat].
  rewrite <- first_match_cons_nested.
  unfold node_fixer_first_match at 1 3. cbn [first_match].
  destruct (first_match fixers g w node) as [result w1].
  destruct (is_not_None result && is_not_Inapplicable result); [done|].
  apply IH.
Qed.

(** X2.  A first-match over guarded fixers dispatches on the class of the
    node: it is the first-match over the fixers whose guard the node passes,
    in the same order; the others are not invoked. *)
Theorem first_match_dispatches {W T : Type} (isinstance : BMGNode -> T -> bool)
  (cases : list (T * NodeFixer W)) (g : Graph) (w : W) (node : BMGNode) :
  node_fixer_first_match ((λ tf, type_guard isinstance tf.1 tf.2) <$> cases) g w node
  = node_fixer_first_match
      ((filter (λ tf, isinstance node tf.1 = true) cases).*2) g w node.
Proof.
  unfold node_fixer_first_match. revert w.
  induction cases as [|[t fixer] cases IH]; intros w; [done|].
  rewrite fmap_cons. cbn [first_match fst snd]. unfold type_guard at 1.
  destruct (isinstance node t) eqn:Hinst.
  - rewrite filter_cons_True by done. rewrite fmap_cons. cbn [first_match snd].
    destruct (fixer g w node) as [result w1].
    destruct (is_not_None result && is_not_Inapplicable result); [done|]. apply IH.
  - rewrite filter_cons_False by (simpl; congruence). cbn. apply IH.
Qed.

(** ** What the drivers leave alone *)

Lemma length_inputs_set_input (g : Graph) node i r q :
  length (inputs (set_input g node i r) q) = length (inputs g q).
Proof.
  destruct (decide (node = q)) as [->|Hne].
  - by rewrite inputs_set_input_eq, length_insert.
  - by rewrite inputs_set_input_ne.
Qed.

Lemma same_shape_set_input (g0 g : Graph) node i r :
  same_shape g0 g -> same_shape g0 (set_input g node i r).
Proof. intros Hshape q Hq. rewrite length_inputs_set_input. by apply Hshape. Qed.

Lemma same_shape_refl (g : Graph) : same_shape g g.
Proof. by intros q Hq. Qed.

(** X3.  The assignments a pass of the graph fixer makes to
    [node.inputs[i]] replace one input by another and do nothing else: every
    node the graph had before the pass has as many inputs after it as before,
    and such a node, when the traversal does not enumerate it, has the very
    inputs it had.  Nodes the graph did not have before the pass, such as
    those a fixer makes, are not spoken of. *)
Theorem ancestors_first_keeps_shape {W E : Type}
  (all_ancestor_nodes : Graph -> list BMGNode)
  (update_type : Graph -> W -> BMGNode -> W) (node_fixer : NodeFixer W)
  (get_error : option (Graph -> W -> BMGNode -> nat -> option E * W))
  (g : Graph) (w : W) :
  let g' :=
    (ancestors_first all_ancestor_nodes update_type node_fixer get_error g w).1.2 in
  (∀ node, node ∈ dom g -> length (inputs g' node) = length (inputs g node))
  ∧ (∀ node, node ∈ dom g -> node ∉ all_ancestor_nodes g ->
       inputs g' node = inputs g node).
Proof.
  intros g'. unfold g', ancestors_first. cbn [fst snd]. split.
  - change (same_shape g
              (bmg (run_nodes update_type node_fixer get_error (start g w)
                      (all_ancestor_nodes g)))).
    apply (run_nodes_inv update_type node_fixer get_error
             (λ s, same_shape g (bmg s))); [|done|apply same_shape_refl].
    intros node i c s s' wrote Hstep Hc Hshape.
    destruct (input_step_graph _ _ _ _ _ _ _ _ Hstep)
      as [(_ & -> & _)|(_ & r & _ & -> & _)]; [done|].
    by apply same_shape_set_input.
  - intros node _ Hnode. unfold inputs. by rewrite run_nodes_frame.
Qed.

Lemma ancestors_first_keeps_shape_witness :
  let g' :=
    (ancestors_first (λ _, [2%positive]) no_typer replace_1_by_9 (Some edge_error)
       shared_graph ()).1.2 in
  length (inputs g' 2%positive) = 1 ∧ inputs g' 3%positive = [1%positive].
Proof.
  destruct (ancestors_first_keeps_shape (λ _, [2%positive]) no_typer replace_1_by_9
              (Some edge_error) shared_graph ()) as [Hlen Hframe].
  split.
  - apply (Hlen 2%positive). apply (bool_decide_unpack _). by vm_compute.
  - apply (Hframe 3%positive).
    + apply (bool_decide_unpack _). by vm_compute.
    + apply (bool_decide_unpack _). by vm_compute.
Defined.

Section ProblemFixerFrame.
Context {W E : Type}.
Variable update_type : Graph -> W -> BMGNode -> W.
Variable _needs_fixing : Graph -> W -> BMGNode -> bool * W.
Variable _get_replacement : Graph -> W -> BMGNode -> option BMGNode * W.
Variable _get_error : Graph -> W -> BMGNode -> nat -> option E * W.

Lemma pf_run_nodes_frame nodes :
  ∀ (t : ProblemFixerBase.State W E) q,
    q ∉ nodes ->
    ProblemFixerBase.bmg
      (ProblemFixerBase.run_nodes update_type _needs_fixing _get_replacement
         _get_error t nodes) !! q
    = ProblemFixerBase.bmg t !! q.
Proof.
  induction nodes as [|n nodes IH]; intros t q Hq; [done|].
  apply not_elem_of_cons in Hq as [Hqn Hq].
  rewrite pf_run_nodes_cons. etrans; [by apply IH|].
  destruct (pf_fix_node_cases update_type _needs_fixing _get_replacement
              _get_error t n) as (Hframe & _).
  by apply Hframe.
Qed.
End ProblemFixerFrame.

(** X4.  The assignments [fix_problems] makes to [node.inputs[i]] replace
    one input by another and do nothing else: every node the graph had before
    has as many inputs afterwards as before, and such a node, when the
    traversal does not enumerate it, has the very inputs it had.  Nodes the
    graph did not have before, such as those [_get_replacement] makes, are
    not spoken of. *)
Theorem fix_problems_keeps_shape {W E : Type}
  (all_ancestor_nodes : Graph -> list BMGNode)
  (update_type : Graph -> W -> BMGNode -> W)
  (_needs_fixing : Graph -> W -> BMGNode -> bool * W)
  (_get_replacement : Graph -> W -> BMGNode -> option BMGNode * W)
  (_get_error : Graph -> W -> BMGNode -> nat -> option E * W)
  (g : Graph) (w : W) (report : ErrorReport E) :
  let g' :=
    (ProblemFixerBase.fix_problems all_ancestor_nodes update_type _needs_fixing
       _get_replacement _get_error g w report).1.2 in
  (∀ node, node ∈ dom g -> length (inputs g' node) = length (inputs g node))
  ∧ (∀ node, node ∈ dom g -> node ∉ all_ancestor_nodes g ->
       inputs g' node = inputs g node).
Proof.
  intros g'. unfold g', ProblemFixerBase.fix_problems. cbn [fst snd]. split.
  - change (same_shape g
              (ProblemFixerBase.bmg
                 (ProblemFixerBase.run_nodes update_type _needs_fixing _get_replacement
                    _get_error (ProblemFixerBase.start g w report)
                    (all_ancestor_nodes g)))).
    apply (pf_run_nodes_inv update_type _needs_fixing _get_replacement _get_error
             (λ t, same_shape g (ProblemFixerBase.bmg t))); [|done|apply same_shape_refl].
    intros node i c t t' wrote Hstep Hc Hshape.
    destruct (pf_input_step_graph _ _ _ _ _ _ _ _ _ Hstep)
      as [(_ & ->)|(_ & r & _ & ->)]; [done|].
    by apply same_shape_set_input.
  - intros node _ Hnode. unfold inputs. by rewrite pf_run_nodes_frame.
Qed.

Lemma fix_problems_keeps_shape_witness :
  let g' :=
    (ProblemFixerBase.fix_problems (λ _, [2%positive]) no_typer
       (pure_needs_fixing (λ n, bool_decide (n = 1%positive)))
       (pure_get_replacement (λ n, if decide (n = 1%positive) then Some 9%positive else None))
       edge_error shared_graph () []).1.2 in
  length (inputs g' 2%positive) = 1 ∧ inputs g' 3%positive = [1%positive].
Proof.
  destruct (fix_problems_keeps_shape (λ _, [2%positive]) no_typer
              (pure_needs_fixing (λ n, bool_decide (n = 1%positive)))
              (pure_get_replacement
                 (λ n, if decide (n = 1%positive) then Some 9%positive else None))
              edge_error shared_graph () []) as [Hlen Hframe].
  split.
  - apply (Hlen 2%positive). apply (bool_decide_unpack _). by vm_compute.
  - apply (Hframe 3%positive).
    + apply (bool_decide_unpack _). by vm_compute.
    + apply (bool_decide_unpack _). by vm_compute.
Defined.

(** ** Diagnostics that are not made *)

Lemma run_nodes_silent {W E : Type}
  (update_type : Graph -> W -> BMGNode -> W) (node_fixer : NodeFixer W)
  (get_error : option (Graph -> W -> BMGNode -> nat -> option E * W))
  (nodes : list BMGNode) (s : PassState W E) :
  match get_error with
  | Some get_error => ∀ g w node i, (get_error g w node i).1 = None
  | None => True
  end ->
  errors s = [] ->
  errors (run_nodes update_type node_fixer get_error s nodes) = [].
Proof.
  intros Hsilent.
  apply (run_nodes_inv update_type node_fixer get_error (λ s, errors s = [])); [|done].
  intros node i c s1 s2 wrote Hstep _ Herr. step_cases Hstep; try done.
  rewrite Herr. unfold ask_error in Hask. destruct get_error as [ge|].
  - specialize (Hsilent (bmg s1) w node i). rewrite Hask in Hsilent.
    simpl in Hsilent. by subst error.
  - by injection Hask as <- <-.
Qed.

(** X5.  When no diagnostic function is supplied, or the one supplied never
    yields a diagnostic, the pass returns an empty report whatever the fixer
    finds: nodes found fatal are skipped in silence. *)
Theorem no_diagnostic_no_report {W E : Type}
  (all_ancestor_nodes : Graph -> list BMGNode)
  (update_type : Graph -> W -> BMGNode -> W) (node_fixer : NodeFixer W)
  (get_error : option (Graph -> W -> BMGNode -> nat -> option E * W))
  (g : Graph) (w : W) :
  match get_error with
  | Some get_error => ∀ g w node i, (get_error g w node i).1 = None
  | None => True
  end ->
  (ancestors_first all_ancestor_nodes update_type node_fixer get_error g w).1.1.2 = [].
Proof.
  intros Hsilent. unfold ancestors_first. cbn [fst snd].
  by apply run_nodes_silent.
Qed.

Lemma no_diagnostic_no_report_witness :
  (ancestors_first shared_nodes no_typer (always Fatal)
     (Some (λ _ w _ _, (@None (BMGNode * nat), w))) fan_in_graph ()).1.1.2 = [].
Proof.
  apply (no_diagnostic_no_report shared_nodes no_typer (always Fatal)
           (Some (λ _ w _ _, (@None (BMGNode * nat), w))) fan_in_graph ()).
  intros g w node i. reflexivity.
Defined.

(** ** The typer is told of enumerated nodes only *)

Section TyperCalls.
Context {W E : Type}.
Variable update_type : Graph -> W -> BMGNode -> W.
Variable node_fixer : NodeFixer W.
Variable get_error : option (Graph -> W -> BMGNode -> nat -> option E * W).
Variable _needs_fixing : Graph -> W -> BMGNode -> bool * W.
Variable _get_replacement : Graph -> W -> BMGNode -> option BMGNode * W.
Variable _get_error : Graph -> W -> BMGNode -> nat -> option E * W.

Lemma recorded_run_nodes_typer nodes :
  ∀ s : PassState (W * Log E) E,
    ∃ called,
      update_type_calls
        (world (run_nodes (rec_update_type update_type) (rec_node_fixer node_fixer)
                  (rec_get_error <$> get_error) s nodes)).2
      = update_type_calls (world s).2 ++ called
      ∧ called `sublist_of` nodes.
Proof.
  induction nodes as [|node nodes IH]; intros s.
  { exists []. split; [by rewrite app_nil_r|done]. }
  rewrite run_nodes_cons.
  destruct (IH (fix_node (rec_update_type update_type) (rec_node_fixer node_fixer)
                  (rec_get_error <$> get_error) s node)) as (called & -> & Hsub).
  rewrite recorded_fix_node_typer. rewrite <- app_assoc.
  eexists. split; [done|].
  case_decide; simpl; by constructor.
Qed.

Lemma pf_recorded_run_nodes_typer nodes :
  ∀ t : ProblemFixerBase.State (W * Log E) E,
    ∃ called,
      update_type_calls
        (ProblemFixerBase.world
           (ProblemFixerBase.run_nodes (rec_update_type update_type)
              (rec_needs_fixing _needs_fixing) (rec_get_replacement _get_replacement)
              (rec_get_error _get_error) t nodes)).2
      = update_type_calls (ProblemFixerBase.world t).2 ++ called
      ∧ called `sublist_of` nodes.
Proof.
  induction nodes as [|node nodes IH]; intros t.
  { exists []. split; [by rewrite app_nil_r|done]. }
  rewrite pf_run_nodes_cons.
  destruct (IH (ProblemFixerBase.fix_node (rec_update_type update_type)
                  (rec_needs_fixing _needs_fixing)
                  (rec_get_replacement _get_replacement)
                  (rec_get_error _get_error) t node)) as (called & -> & Hsub).
  rewrite pf_recorded_fix_node_typer. rewrite <- app_assoc.
  eexists. split; [done|].
  case_decide; simpl; by constructor.
Qed.
End TyperCalls.

(** X6.  In a pass of either driver the calls of [typer.update_type] are made
    for enumerated nodes, in the order of the traversal, at most once for
    each time a node is enumerated: the nodes the typer is called with form a
    sublist of the traversal. *)
Theorem typer_calls_follow_traversal {W E : Type}
  (all_ancestor_nodes : Graph -> list BMGNode)
  (update_type : Graph -> W -> BMGNode -> W) (node_fixer : NodeFixer W)
  (get_error : option (Graph -> W -> BMGNode -> nat -> option E * W))
  (_needs_fixing : Graph -> W -> BMGNode -> bool * W)
  (_get_replacement : Graph -> W -> BMGNode -> option BMGNode * W)
  (_get_error : Graph -> W -> BMGNode -> nat -> option E * W)
  (g : Graph) (w : W) (report : ErrorReport E) :
  update_type_calls
    (ancestors_first all_ancestor_nodes (rec_update_type update_type)
       (rec_node_fixer node_fixer) (rec_get_error <$> get_error) g (w, [])).2.2
  `sublist_of` all_ancestor_nodes g
  ∧ update_type_calls
      (ProblemFixerBase.fix_problems all_ancestor_nodes (rec_update_type update_type)
         (rec_needs_fixing _needs_fixing) (rec_get_replacement _get_replacement)
         (rec_get_error _get_error) g (w, []) report).2.2
    `sublist_of` all_ancestor_nodes g.
Proof.
  split.
  - unfold ancestors_first. cbn [fst snd].
    destruct (recorded_run_nodes_typer update_type node_fixer get_error
                (all_ancestor_nodes g) (start g (w, []))) as (called & -> & Hsub).
    done.
  - unfold ProblemFixerBase.fix_problems. cbn [fst snd].
    destruct (pf_recorded_run_nodes_typer update_type _needs_fixing _get_replacement
                _get_error (all_ancestor_nodes g)
                (ProblemFixerBase.start g (w, []) report)) as (called & -> & Hsub).
    done.
Qed.

(** ** The defaults of [ProblemFixerBase] *)

Section BaseClassDefaults.
Context {W E : Type}.
Variable update_type : Graph -> W -> BMGNode -> W.
Variable _needs_fixing : Graph -> W -> BMGNode -> bool * W.
Variable g : Graph.
Variable report : ErrorReport E.
Implicit Types t : ProblemFixerBase.State (W * Log E) E.

Local Abbreviation d_fix_node :=
  (ProblemFixerBase.fix_node (rec_update_type update_type)
     (rec_needs_fixing _needs_fixing)
     (rec_get_replacement (E := E) ProblemFixerBase.default_get_replacement)
     (rec_get_error ProblemFixerBase.default_get_error)).
Local Abbreviation d_run_nodes :=
  (ProblemFixerBase.run_nodes (rec_update_type update_type)
     (rec_needs_fixing _needs_fixing)
     (rec_get_replacement (E := E) ProblemFixerBase.default_get_replacement)
     (rec_get_error ProblemFixerBase.default_get_error)).

Lemma defaults_run_nodes_untouched nodes t :
  untouched g report t -> untouched g report (d_run_nodes t nodes).
Proof.
  apply (pf_run_nodes_inv (rec_update_type update_type)
           (rec_needs_fixing _needs_fixing)
           (rec_get_replacement (E := E) ProblemFixerBase.default_get_replacement)
           (rec_get_error ProblemFixerBase.default_get_error) (untouched g report));
    [|done].
  intros node i c t1 t2 wrote Hstep _ (Hg & He & Hr). unfold untouched.
  pstep_cases Hstep; try done.
  all: try (by rewrite Hr, lookup_empty in Hcached).
  all: try (by apply rec_get_replacement_inv in Hrepl as [? _]).
  unfold rec_get_error, ProblemFixerBase.default_get_error in Hask.
  by injection Hask as <- <-.
Qed.

Lemma defaults_run_nodes_typer nodes :
  ∀ t,
    untouched g report t ->
    update_type_calls (ProblemFixerBase.world (d_run_nodes t nodes)).2
    = update_type_calls (ProblemFixerBase.world t).2.
Proof.
  induction nodes as [|node nodes IH]; intros t Ht; [done|].
  rewrite pf_run_nodes_cons.
  pose proof (defaults_run_nodes_untouched [node] t Ht) as Ht'.
  change (d_run_nodes t [node]) with (d_fix_node t node) in Ht'.
  rewrite (IH _ Ht'), pf_recorded_fix_node_typer.
  destruct Ht as (Hg & _), Ht' as (Hg' & _).
  rewrite decide_True by (by rewrite Hg, Hg'). by rewrite app_nil_r.
Qed.
End BaseClassDefaults.

(** X7.  A subclass that overrides [_needs_fixing] only, leaving
    [_get_replacement] and [_get_error] as the base class defines them, fixes
    and reports nothing: [fix_problems] leaves the graph and the report as
    they were and never calls the typer, whatever [_needs_fixing] answers. *)
Theorem base_class_defaults_change_nothing {W E : Type}
  (all_ancestor_nodes : Graph -> list BMGNode)
  (update_type : Graph -> W -> BMGNode -> W)
  (_needs_fixing : Graph -> W -> BMGNode -> bool * W)
  (g : Graph) (w : W) (report : ErrorReport E) :
  let out :=
    ProblemFixerBase.fix_problems all_ancestor_nodes (rec_update_type update_type)
      (rec_needs_fixing _needs_fixing)
      (rec_get_replacement ProblemFixerBase.default_get_replacement)
      (rec_get_error ProblemFixerBase.default_get_error) g (w, []) report in
  out.1.1 = report ∧ out.1.2 = g ∧ update_type_calls out.2.2 = [].
Proof.
  intros out. unfold out, ProblemFixerBase.fix_problems. cbn [fst snd].
  assert (untouched g report
            (ProblemFixerBase.start (E := E) g (w, @nil (Call E)) report))
    as Hstart by done.
  destruct (defaults_run_nodes_untouched update_type _needs_fixing g report
              (all_ancestor_nodes g) _ Hstart) as (Hg & He & _).
  split_and!; [done|done|].
  by rewrite (defaults_run_nodes_typer update_type _needs_fixing g report
                (all_ancestor_nodes g) _ Hstart).
Qed.

(** X8.  A node for which [_get_replacement] always has an answer is never
    diagnosed by [fix_problems]: [_get_error] is not called for an edge
    pointing at it.  This holds in particular when the answer is the node
    itself, which is then recorded as its own replacement. *)
Theorem replaceable_never_diagnosed {W E : Type}
  (all_ancestor_nodes : Graph -> list BMGNode)
  (update_type : Graph -> W -> BMGNode -> W)
  (_needs_fixing : Graph -> W -> BMGNode -> bool * W)
  (_get_replacement : Graph -> W -> BMGNode -> option BMGNode * W)
  (_get_error : Graph -> W -> BMGNode -> nat -> option E * W)
  (g : Graph) (w : W) (report : ErrorReport E) (c : BMGNode) :
  (∀ g w, is_Some (_get_replacement g w c).1) ->
  let log :=
    (ProblemFixerBase.fix_problems all_ancestor_nodes (rec_update_type update_type)
       (rec_needs_fixing _needs_fixing) (rec_get_replacement _get_replacement)
       (rec_get_error _get_error) g (w, []) report).2.2 in
  get_error_calls c log = 0 ∧ diagnostics_for c log = [].
Proof.
  intros Hsome log.
  assert (get_error_calls c log = 0) as Hcalls.
  { unfold log, ProblemFixerBase.fix_problems. cbn [fst snd].
    pose proof (pf_recorded_pass_accounted update_type _needs_fixing _get_replacement
                  _get_error report (all_ancestor_nodes g)
                  (ProblemFixerBase.start g (w, []) report)) as [_ Hcount].
    { split; [by rewrite app_nil_r|]. intros c'. simpl. by rewrite decide_False. }
    rewrite Hcount. rewrite decide_False; [done|].
    apply (pf_run_nodes_inv (rec_update_type update_type)
             (rec_needs_fixing _needs_fixing) (rec_get_replacement _get_replacement)
             (rec_get_error _get_error)
             (λ t, c ∉ ProblemFixerBase.reported t)); [|done|by apply not_elem_of_empty].
    intros node i c' t1 t2 wrote Hstep _ Hc. pstep_cases Hstep; try done.
    intros Hin. apply elem_of_union in Hin as [Hin|Hin]; [|done].
    apply elem_of_singleton in Hin as ->.
    apply rec_get_replacement_inv in Hrepl as [Hnone _].
    destruct (Hsome (ProblemFixerBase.bmg t1) w1.1) as [r Hr]. congruence. }
  split; [done|].
  pose proof (diagnostics_for_le (E := E) c log) as Hle.
  destruct (diagnostics_for c log); [done|]. simpl in Hle. lia.
Qed.

Lemma replaceable_never_diagnosed_witness :
  let log :=
    (ProblemFixerBase.fix_problems shared_nodes (rec_update_type no_typer)
       (rec_needs_fixing (pure_needs_fixing (λ _, true)))
       (rec_get_replacement (pure_get_replacement (λ n, Some n)))
       (rec_get_error edge_error) shared_graph ((), []) []).2.2 in
  get_error_calls 1%positive log = 0 ∧ diagnostics_for 1%positive log = [].
Proof.
  apply (replaceable_never_diagnosed shared_nodes no_typer
           (pure_needs_fixing (λ _, true)) (pure_get_replacement (λ n, Some n))
           edge_error shared_graph () [] 1%positive).
  intros g w. by eexists.
Defined.

(** ** Where the edges point after a pass *)

Section EdgesFollowed.
Context {W E : Type}.
Variable update_type : Graph -> W -> BMGNode -> W.
Variable node_fixer : NodeFixer W.
Variable get_error : option (Graph -> W -> BMGNode -> nat -> option E * W).
Implicit Types (s : PassState W E) (node c : BMGNode) (i : nat) (u : bool).

Local Abbreviation fix_input' := (fix_input node_fixer get_error).
Local Abbreviation fix_node' := (fix_node update_type node_fixer get_error).
Local Abbreviation run_nodes' := (run_nodes update_type node_fixer get_error).
Local Abbreviation input_step' := (input_step node_fixer get_error).

Lemma kept_stable node i c s s' wrote c0 x :
  input_step' node i c s s' wrote ->
  kept_or_replaced c0 s x -> kept_or_replaced c0 s' x.
Proof.
  intros Hstep [->|Hx]; [by left|right].
  by apply (input_step_records _ _ _ _ _ _ _ _ Hstep).
Qed.

Lemma input_step_keeps node i c s s' wrote :
  input_step' node i c s s' wrote ->
  inputs (bmg s) node !! i = Some c ->
  ∃ x, inputs (bmg s') node !! i = Some x ∧ kept_or_replaced c s' x.
Proof.
  intros Hstep Hc.
  destruct (input_step_graph _ _ _ _ _ _ _ _ Hstep)
    as [(_ & -> & _)|(_ & r & _ & -> & Hr)].
  - exists c. split; [done|by left].
  - exists r. split; [by eapply inputs_set_input_lookup|by right].
Qed.

Lemma fix_inputs_loop_keeps node indices :
  ∀ s u s' u',
    NoDup indices ->
    foldl (fix_input' node) (s, u) indices = (s', u') ->
    (∀ c0 x, kept_or_replaced c0 s x -> kept_or_replaced c0 s' x)
    ∧ (∀ j c, inputs (bmg s) node !! j = Some c ->
         ∃ x, inputs (bmg s') node !! j = Some x ∧ kept_or_replaced c s' x).
Proof.
  induction indices as [|i indices IH]; intros s u s' u' Hnodup Hrun.
  { simpl in Hrun. injection Hrun as <- <-. split; [done|].
    intros j c Hc. exists c. split; [done|by left]. }
  apply NoDup_cons in Hnodup as [Hi Hnodup]. rewrite foldl_step in Hrun.
  destruct (fix_input_cases node_fixer get_error node s u i)
    as [(Hnone & Heq)|(c1 & s1 & wrote & Hc & Heq & Hstep)]; rewrite Heq in Hrun.
  { by apply (IH _ _ _ _ Hnodup Hrun). }
  destruct (IH _ _ _ _ Hnodup Hrun) as (Hst & Hkeep).
  destruct (input_step_frame _ _ _ _ _ _ _ _ Hstep) as (_ & Hj1).
  destruct (fix_inputs_loop_graph _ _ _ _ _ _ _ _ Hnodup Hrun) as (_ & Hj & _).
  split.
  - intros c0 x Hx. apply Hst. by eapply kept_stable.
  - intros j c Hjc. destruct (decide (i = j)) as [<-|Hij].
    + assert (c1 = c) as -> by congruence.
      destruct (input_step_keeps _ _ _ _ _ _ Hstep Hc) as (x & Hx & Hkx).
      exists x. split; [by rewrite Hj|by apply Hst].
    + apply Hkeep. by rewrite Hj1.
Qed.

Lemma run_nodes_kept_stable c x nodes s :
  kept_or_replaced c s x -> kept_or_replaced c (run_nodes' s nodes) x.
Proof.
  apply (run_nodes_inv update_type node_fixer get_error (λ s, kept_or_replaced c s x)).
  - intros node i c' s1 s2 wrote Hstep _. by eapply kept_stable.
  - done.
Qed.

Lemma fix_node_keeps s node j c :
  inputs (bmg s) node !! j = Some c ->
  ∃ x, inputs (bmg (fix_node' s node)) node !! j = Some x
       ∧ kept_or_replaced c (fix_node' s node) x.
Proof.
  intros Hc. unfold fix_node.
  destruct (fix_inputs node_fixer get_error node s) as [s' u'] eqn:Hrun.
  unfold fix_inputs in Hrun.
  destruct (fix_inputs_loop_keeps _ _ _ _ _ _ (fix_inputs_indices s node) Hrun)
    as (_ & Hkeep).
  destruct (Hkeep j c Hc) as (x & Hx & Hkx). exists x. by destruct u'.
Qed.

(** When each node is enumerated once, an edge points after the pass where it
    pointed before, or at the replacement on record for the node it pointed
    at. *)
Lemma run_nodes_keeps nodes :
  ∀ s node j c,
    NoDup nodes ->
    inputs (bmg s) node !! j = Some c ->
    ∃ x, inputs (bmg (run_nodes' s nodes)) node !! j = Some x
         ∧ kept_or_replaced c (run_nodes' s nodes) x.
Proof.
  induction nodes as [|n nodes IH]; intros s node j c Hnodup Hc.
  { exists c. split; [done|by left]. }
  apply NoDup_cons in Hnodup as [Hn Hnodup]. rewrite run_nodes_cons.
  destruct (decide (n = node)) as [->|Hne].
  - destruct (fix_node_keeps s node j c Hc) as (x & Hx & Hkx).
    exists x. split; [|by apply run_nodes_kept_stable].
    rewrite <- Hx. unfold inputs. by rewrite run_nodes_frame.
  - apply IH; [done|]. unfold inputs.
    destruct (fix_node_cases update_type node_fixer get_error s n) as (Hq & _).
    by rewrite Hq.
Qed.

(** A node the fixer always finds fatal keeps every edge that points at it,
    however often its consumers are enumerated. *)
Lemma run_nodes_fatal_keeps_edges (g : Graph) c nodes s :
  (∀ g w, (node_fixer g w c).1 = Fatal) ->
  replacements s !! c = None ->
  (∀ node i, inputs g node !! i = Some c -> inputs (bmg s) node !! i = Some c) ->
  ∀ node i,
    inputs g node !! i = Some c ->
    inputs (bmg (run_nodes' s nodes)) node !! i = Some c.
Proof.
  intros Hfatal Hnone Hedges.
  pose (P := λ s : PassState W E,
          replacements s !! c = None
          ∧ ∀ node i, inputs g node !! i = Some c -> inputs (bmg s) node !! i = Some c).
  assert (P (run_nodes' s nodes)) as [_ Hfinal]; [|done].
  apply (run_nodes_inv update_type node_fixer get_error P); [|done|done].
  clear s Hnone Hedges. intros node i c' s s' wrote Hstep Hc [Hnone Hedges].
  assert (∀ r w, node_fixer (bmg s) (world s) c' = (ANode r, w) -> c' ≠ c) as Hne0.
  { intros r w Hfix' ->. specialize (Hfatal (bmg s) (world s)).
    by rewrite Hfix' in Hfatal. }
  assert (∀ r, c' ≠ c -> ∀ node0 i0,
            inputs g node0 !! i0 = Some c ->
            inputs (set_input (bmg s) node i r) node0 !! i0 = Some c) as Hset.
  { intros r Hne' node0 i0 H0. specialize (Hedges node0 i0 H0).
    destruct (decide (node = node0)) as [<-|Hn0].
    - destruct (decide (i = i0)) as [<-|Hi0]; [congruence|].
      by rewrite inputs_set_input_lookup_ne.
    - by rewrite inputs_set_input_ne. }
  unfold P. step_cases Hstep; try done.
  - split; [done|]. apply Hset. congruence.
  - split; [|done]. rewrite lookup_insert_ne; [done|]. by eapply Hne0.
  - split; [rewrite lookup_insert_ne; [done|]; by eapply Hne0|].
    apply Hset. by eapply Hne0.
Qed.

(** What is on record for a policy that looks at the node only. *)
Lemma pure_run_nodes_records (policy : BMGNode -> NodeFixerResult) nodes
  (s : PassState W E) :
  let known := λ s : PassState W E,
    (∀ c, c ∈ reported s -> policy c = Fatal)
    ∧ (∀ c r, replacements s !! c = Some r -> policy c = ANode r) in
  known s -> known (run_nodes update_type (pure_fixer policy) get_error s nodes).
Proof.
  intros known.
  apply (run_nodes_inv update_type (pure_fixer policy) get_error known); [|done].
  intros node i c s1 s2 wrote Hstep _ [Hrep Hrepl]. unfold known.
  assert (∀ r, policy c = ANode r ->
            ∀ c' r', <[c := r]> (replacements s1) !! c' = Some r' ->
                     policy c' = ANode r') as Hins.
  { intros r Hp c' r'. destruct (decide (c = c')) as [<-|Hne'].
    - rewrite lookup_insert_eq. congruence.
    - rewrite lookup_insert_ne by done. apply Hrepl. }
  step_cases Hstep; try done.
  - injection Hfix as Hp _. split; [done|]. by apply Hins.
  - injection Hfix as Hp _. split; [done|]. by apply Hins.
  - injection Hfix as Hp _. split; [|done].
    intros c' Hc'. apply elem_of_union in Hc' as [Hc'|Hc']; [|auto].
    by apply elem_of_singleton in Hc' as ->.
Qed.
End EdgesFollowed.

Section ReplacementsLogged.
Context {W E : Type}.
Variable update_type : Graph -> W -> BMGNode -> W.
Variable node_fixer : NodeFixer W.
Variable get_error : option (Graph -> W -> BMGNode -> nat -> option E * W).

(** Every replacement on record was returned by the fixer for its key. *)
Lemma recorded_pass_replacements_logged nodes (s : PassState (W * Log E) E) :
  let logged := λ s : PassState (W * Log E) E,
    ∀ c r, replacements s !! c = Some r -> node_fixer_call c (ANode r) ∈ (world s).2 in
  logged s ->
  logged (run_nodes (rec_update_type update_type) (rec_node_fixer node_fixer)
            (rec_get_error <$> get_error) s nodes).
Proof.
  intros logged.
  apply (run_nodes_inv (rec_update_type update_type) (rec_node_fixer node_fixer)
           (rec_get_error <$> get_error) logged).
  - intros node i c s1 s2 wrote Hstep _ Hlogged. unfold logged.
    assert (∀ r (l : Log E),
              ∀ c' r', <[c := r]> (replacements s1) !! c' = Some r' ->
                       node_fixer_call c' (ANode r')
                       ∈ ((world s1).2 ++ [node_fixer_call c (ANode r)]) ++ l) as Hins.
    { intros r l c' r'. rewrite !elem_of_app.
      destruct (decide (c = c')) as [<-|Hne'].
      - rewrite lookup_insert_eq. intros [= <-]. left. right. by apply list_elem_of_singleton.
      - rewrite lookup_insert_ne by done. intros Hr. left. left. by apply Hlogged. }
    step_cases Hstep; try done.
    + apply rec_node_fixer_inv in Hfix as [_ ->].
      intros c' r' Hr. specialize (Hins c [] c' r' Hr). by rewrite app_nil_r in Hins.
    + apply rec_node_fixer_inv in Hfix as [_ ->].
      intros c' r' Hr. specialize (Hins r [] c' r' Hr). by rewrite app_nil_r in Hins.
    + apply rec_node_fixer_inv in Hfix as [_ Hlog].
      intros c' r' Hr. specialize (Hlogged c' r' Hr).
      apply rec_ask_error_inv in Hask as [(_ & _ & ->)|(_ & ->)]; rewrite Hlog;
        rewrite ?elem_of_app; auto.
    + apply rec_node_fixer_inv in Hfix as [_ ->].
      intros c' r' Hr. rewrite elem_of_app. left. by apply Hlogged.
  - intros s1 node Hlogged c r Hr. fields. simpl. rewrite elem_of_app. left.
    by apply Hlogged.
Qed.
End ReplacementsLogged.

(** X9.  After a pass in which each node is enumerated once, every input
    edge points where it pointed before the pass or at a node the fixer
    returned, during the pass, for the node the edge pointed at: the pass
    assigns nothing else to an edge. *)
Theorem edges_kept_or_replaced_by_fixer {W E : Type}
  (all_ancestor_nodes : Graph -> list BMGNode)
  (update_type : Graph -> W -> BMGNode -> W) (node_fixer : NodeFixer W)
  (get_error : option (Graph -> W -> BMGNode -> nat -> option E * W))
  (g : Graph) (w : W) :
  let out :=
    ancestors_first all_ancestor_nodes (rec_update_type update_type)
      (rec_node_fixer node_fixer) (rec_get_error <$> get_error) g (w, []) in
  NoDup (all_ancestor_nodes g) ->
  ∀ node i c,
    inputs g node !! i = Some c ->
    ∃ x, inputs out.1.2 node !! i = Some x
         ∧ (x = c ∨ node_fixer_call c (ANode x) ∈ out.2.2).
Proof.
  intros out Hnodup node i c Hc. unfold out, ancestors_first. cbn [fst snd].
  destruct (run_nodes_keeps (rec_update_type update_type) (rec_node_fixer node_fixer)
              (rec_get_error <$> get_error) (all_ancestor_nodes g)
              (start g (w, [])) node i c Hnodup Hc) as (x & Hx & [->|Hr]).
  - exists c. split; [done|by left].
  - exists x. split; [done|]. right.
    apply (recorded_pass_replacements_logged update_type node_fixer get_error
             (all_ancestor_nodes g) (start g (w, []))); [|done].
    intros c' r' Hr'. unfold start in Hr'. fields. by rewrite lookup_empty in Hr'.
Qed.

Lemma edges_kept_or_replaced_by_fixer_witness :
  let out :=
    ancestors_first shared_nodes (rec_update_type no_typer)
      (rec_node_fixer replace_1_by_9) (Some (rec_get_error edge_error))
      shared_graph ((), []) in
  ∃ x, inputs out.1.2 3%positive !! 0 = Some x
       ∧ (x = 1%positive ∨ node_fixer_call 1%positive (ANode x) ∈ out.2.2).
Proof.
  apply (edges_kept_or_replaced_by_fixer shared_nodes no_typer replace_1_by_9
           (Some edge_error) shared_graph ()).
  - apply (bool_decide_unpack _). by vm_compute.
  - reflexivity.
Defined.

(** X10.  A node the fixer finds fatal whenever it is asked is never
    replaced: every edge that pointed at it before the pass points at it
    after the pass. *)
Theorem fatal_input_keeps_edges {W E : Type}
  (all_ancestor_nodes : Graph -> list BMGNode)
  (update_type : Graph -> W -> BMGNode -> W) (node_fixer : NodeFixer W)
  (get_error : option (Graph -> W -> BMGNode -> nat -> option E * W))
  (g : Graph) (w : W) (c : BMGNode) :
  (∀ g w, (node_fixer g w c).1 = Fatal) ->
  ∀ node i,
    inputs g node !! i = Some c ->
    inputs (ancestors_first all_ancestor_nodes update_type node_fixer get_error g w).1.2
      node !! i = Some c.
Proof.
  intros Hfatal node i Hc. unfold ancestors_first. cbn [fst snd].
  by apply (run_nodes_fatal_keeps_edges update_type node_fixer get_error g c).
Qed.

Lemma fatal_input_keeps_edges_witness :
  inputs (ancestors_first shared_nodes no_typer (always Fatal) (Some edge_error)
            shared_graph ()).1.2 3%positive !! 0 = Some 1%positive.
Proof.
  apply (fatal_input_keeps_edges shared_nodes no_typer (always Fatal)
           (Some edge_error) shared_graph () 1%positive).
  - reflexivity.
  - reflexivity.
Defined.

(** X11.  Let the policy look at the node only and answer [r] for [c], and
    let each node be enumerated once.  Then after a pass of the graph fixer
    every edge of an enumerated node that pointed at [c] points at [r], and
    if [r] is not [c] and there is such an edge the pass returns
    [progress = true]; and the same edges point at [r] after [fix_problems]
    run with the same policy told as [needs] and [replacement]. *)
Theorem replacement_reaches_every_parent {W E : Type}
  (all_ancestor_nodes : Graph -> list BMGNode)
  (update_type : Graph -> W -> BMGNode -> W)
  (policy : BMGNode -> NodeFixerResult)
  (needs : BMGNode -> bool) (replacement : BMGNode -> option BMGNode)
  (get_error : option (Graph -> W -> BMGNode -> nat -> option E * W))
  (g : Graph) (w : W) (report : ErrorReport E) (c r node : BMGNode) (i : nat) :
  let out :=
    ancestors_first all_ancestor_nodes update_type (pure_fixer policy) get_error g w in
  NoDup (all_ancestor_nodes g) ->
  policy c = ANode r ->
  node ∈ all_ancestor_nodes g ->
  inputs g node !! i = Some c ->
  inputs out.1.2 node !! i = Some r
  ∧ (c ≠ r -> out.1.1.1 = true)
  ∧ (same_policy policy needs replacement ->
     inputs (ProblemFixerBase.fix_problems all_ancestor_nodes update_type
               (pure_needs_fixing needs) (pure_get_replacement replacement)
               (ask_error get_error) g w report).1.2 node !! i = Some r).
Proof.
  intros out Hnodup Hp Hin Hc.
  assert (∀ g' (w' : W), ¬ declines (pure_fixer policy g' w' c).1) as Hdecides.
  { intros g' w'. simpl. rewrite Hp. by intros [?|?]. }
  destruct (run_nodes_settles update_type (pure_fixer policy) get_error c Hdecides
              (all_ancestor_nodes g) (start g w) node i Hnodup
              (proj1 (proj2 (start_well_formed g w))) Hin Hc) as (x & Hx & Hsx).
  destruct (pure_run_nodes_records update_type get_error policy
              (all_ancestor_nodes g) (start (E := E) g w)) as [Hrep Hrepl].
  { split.
    - intros c' Hc'. by apply not_elem_of_empty in Hc'.
    - intros c' r' Hr'. unfold start in Hr'. fields. by rewrite lookup_empty in Hr'. }
  assert (replacements
            (run_nodes update_type (pure_fixer policy) get_error (start g w)
               (all_ancestor_nodes g)) !! c = Some r ∧ x = r) as [Hr ->].
  { destruct Hsx as [(Hfat & _)|Hsome].
    - apply Hrep in Hfat. congruence.
    - pose proof (Hrepl _ _ Hsome). split; congruence. }
  assert (inputs out.1.2 node !! i = Some r) as Hout by done.
  split_and!; [done| |].
  - intros Hne. unfold out, ancestors_first. cbn [fst snd].
    eapply (run_nodes_progress_noted update_type (pure_fixer policy) get_error);
      [apply start_well_formed|exact Hr|done].
  - intros Hsame.
    by rewrite (fix_problems_follows update_type policy needs replacement get_error
                  Hsame report all_ancestor_nodes g w).
Qed.

Lemma replacement_reaches_every_parent_witness :
  let policy := λ n : BMGNode,
    if decide (n = 1%positive) then ANode 9%positive else Inapplicable in
  let needs := λ n : BMGNode, bool_decide (n = 1%positive) in
  let replacement := λ n : BMGNode,
    if decide (n = 1%positive) then Some 9%positive else None in
  let out :=
    ancestors_first shared_nodes no_typer (pure_fixer policy) (Some edge_error)
      shared_graph () in
  inputs out.1.2 3%positive !! 0 = Some 9%positive
  ∧ out.1.1.1 = true
  ∧ inputs (ProblemFixerBase.fix_problems shared_nodes no_typer
              (pure_needs_fixing needs) (pure_get_replacement replacement)
              (ask_error (Some edge_error)) shared_graph () []).1.2 3%positive !! 0
    = Some 9%positive.
Proof.
  intros policy needs replacement out.
  destruct (replacement_reaches_every_parent shared_nodes no_typer policy
              needs replacement (Some edge_error) shared_graph () []
              1%positive 9%positive 3%positive 0) as (Hedge & Hprogress & Hlegacy).
  - apply (bool_decide_unpack _). by vm_compute.
  - reflexivity.
  - apply (bool_decide_unpack _). by vm_compute.
  - reflexivity.
  - split_and!; [exact Hedge|by apply Hprogress|].
    apply Hlegacy. unfold same_policy, declines, policy, needs, replacement.
    split_and!.
    + intros n. destruct (decide (n = 1%positive)) as [->|Hne].
      * rewrite bool_decide_eq_true_2 by done. split; [|done]. intros _.
        split; [discriminate|]. intros [H|H]; discriminate H.
      * rewrite bool_decide_eq_false_2 by done. split; [done|].
        intros [_ H]. destruct H. by right.
    + intros n r. destruct (decide (n = 1%positive)); [|done]. by intros [= <-].
    + intros n. by destruct (decide (n = 1%positive)).
Defined.

(** ** An input the fixer declines *)

Lemma length_filter_ext {A : Type} (P Q : A -> Prop)
  `{!∀ x, Decision (P x)} `{!∀ x, Decision (Q x)} (l : list A) :
  (∀ x, x ∈ l -> (P x <-> Q x)) -> length (filter P l) = length (filter Q l).
Proof.
  induction l as [|x l IH]; intros Hext; [done|].
  rewrite !filter_cons.
  assert (P x <-> Q x) as Hx by (apply Hext; by left).
  assert (length (filter P l) = length (filter Q l)) as Hl.
  { apply IH. intros y Hy. apply Hext. by right. }
  destruct (decide (P x)), (decide (Q x)); simpl; try tauto; by rewrite Hl.
Qed.

(** Counting the positions of a list that hold [c] is counting its members
    equal to [c]. *)
Lemma count_positions (c : BMGNode) (l : list BMGNode) :
  ∀ pre : list BMGNode,
    length (filter (λ j, (pre ++ l) !! j = Some c) (seq (length pre) (length l)))
    = length (filter (λ x, x = c) l).
Proof.
  induction l as [|x l IH]; intros pre; [done|].
  cbn [length seq]. rewrite !filter_cons.
  assert ((pre ++ x :: l) !! length pre = Some x) as Hx.
  { by rewrite lookup_app_r, Nat.sub_diag by lia. }
  specialize (IH (pre ++ [x])). rewrite <- app_assoc, length_app in IH.
  simpl in IH. rewrite Nat.add_1_r in IH.
  destruct (decide (x = c)) as [->|Hne].
  - rewrite decide_True by done. simpl. by rewrite IH.
  - rewrite decide_False by congruence. done.
Qed.

Lemma edges_to_cons (c : BMGNode) (g : Graph) node nodes :
  edges_to c g (node :: nodes)
  = length (filter (λ x, x = c) (inputs g node)) + edges_to c g nodes.
Proof. reflexivity. Qed.

Lemma edges_to_ext (c : BMGNode) (g1 g2 : Graph) nodes :
  (∀ q, q ∈ nodes -> g1 !! q = g2 !! q) -> edges_to c g1 nodes = edges_to c g2 nodes.
Proof.
  induction nodes as [|node nodes IH]; intros Hext; [done|].
  rewrite !edges_to_cons. unfold inputs at 1 2.
  rewrite (Hext node) by (by left). f_equal. apply IH.
  intros q Hq. apply Hext. by right.
Qed.

Section DecliningInput.
Context {W E : Type}.
Variable update_type : Graph -> W -> BMGNode -> W.
Variable node_fixer : NodeFixer W.
Variable get_error : option (Graph -> W -> BMGNode -> nat -> option E * W).
Variable c : BMGNode.
Hypothesis declining : ∀ g w, declines (node_fixer g w c).1.
Implicit Types (s : PassState (W * Log E) E) (node : BMGNode) (i : nat) (u : bool).

Local Abbreviation r_update_type := (rec_update_type (E := E) update_type).
Local Abbreviation r_node_fixer := (rec_node_fixer (E := E) node_fixer).
Local Abbreviation r_get_error := (rec_get_error <$> get_error).
Local Abbreviation r_fix_input := (fix_input r_node_fixer r_get_error).
Local Abbreviation r_fix_node := (fix_node r_update_type r_node_fixer r_get_error).
Local Abbreviation r_run_nodes := (run_nodes r_update_type r_node_fixer r_get_error).
Local Abbreviation unresolved s := ((c ∉ reported s) ∧ replacements s !! c = None).

Lemma recorded_step_declining node i c' s s' wrote :
  input_step r_node_fixer r_get_error node i c' s s' wrote ->
  unresolved s ->
  unresolved s'
  ∧ node_fixer_calls c (world s').2
    = node_fixer_calls c (world s).2 + (if decide (c' = c) then 1 else 0).
Proof.
  intros Hstep [Hnrep Hnone].
  assert (∀ result,
            node_fixer_calls c ((world s).2 ++ [node_fixer_call c' result])
            = node_fixer_calls c (world s).2 + (if decide (c' = c) then 1 else 0))
    as Hcount.
  { intros result. rewrite node_fixer_calls_snoc. simpl.
    destruct (decide (c' = c)) as [->|Hne].
    - by rewrite bool_decide_eq_true_2.
    - by rewrite bool_decide_eq_false_2. }
  assert (∀ result w,
            r_node_fixer (bmg s) (world s) c' = (result, w) ->
            ¬ declines result -> c' ≠ c) as Hother.
  { intros result w Hfix' Hnd ->. apply rec_node_fixer_inv in Hfix' as [Hres _].
    apply Hnd. rewrite <- Hres. apply declining. }
  step_cases Hstep.
  - rewrite decide_False by congruence. by rewrite Nat.add_0_r.
  - rewrite decide_False by congruence. by rewrite Nat.add_0_r.
  - rewrite decide_False by congruence. by rewrite Nat.add_0_r.
  - assert (c' ≠ c) as Hne' by (eapply Hother; [done|]; by intros [?|?]).
    apply rec_node_fixer_inv in Hfix as [_ ->]. rewrite Hcount.
    by rewrite lookup_insert_ne.
  - assert (c' ≠ c) as Hne' by (eapply Hother; [done|]; by intros [?|?]).
    apply rec_node_fixer_inv in Hfix as [_ ->]. rewrite Hcount.
    by rewrite lookup_insert_ne.
  - assert (c' ≠ c) as Hne' by (eapply Hother; [done|]; by intros [?|?]).
    apply rec_node_fixer_inv in Hfix as [_ Hlog].
    split.
    + split; [|done]. intros Hin'. apply elem_of_union in Hin' as [Hin'|Hin']; [|done].
      by apply elem_of_singleton in Hin'.
    + apply rec_ask_error_inv in Hask as [(_ & _ & ->)|(_ & ->)]; rewrite Hlog.
      * apply Hcount.
      * rewrite node_fixer_calls_snoc. simpl. by rewrite Nat.add_0_r, Hcount.
  - apply rec_node_fixer_inv in Hfix as [_ ->]. by rewrite Hcount.
Qed.

Lemma recorded_loop_declining node indices :
  ∀ s u s' u',
    NoDup indices ->
    foldl (r_fix_input node) (s, u) indices = (s', u') ->
    unresolved s ->
    unresolved s'
    ∧ node_fixer_calls c (world s').2
      = node_fixer_calls c (world s).2
        + length (filter (λ j, inputs (bmg s) node !! j = Some c) indices).
Proof.
  induction indices as [|i indices IH]; intros s u s' u' Hnodup Hrun Hun.
  { simpl in Hrun. injection Hrun as <- <-. split; [done|]. simpl. lia. }
  apply NoDup_cons in Hnodup as [Hi Hnodup]. rewrite foldl_step in Hrun.
  rewrite filter_cons.
  destruct (fix_input_cases r_node_fixer r_get_error node s u i)
    as [(Hnone & Heq)|(c' & s1 & wrote & Hc & Heq & Hstep)]; rewrite Heq in Hrun.
  { rewrite decide_False by congruence. by apply (IH _ _ _ _ Hnodup Hrun). }
  destruct (recorded_step_declining _ _ _ _ _ _ Hstep Hun) as (Hun1 & Hcalls1).
  destruct (IH _ _ _ _ Hnodup Hrun Hun1) as (Hun' & Hcalls').
  split; [done|]. rewrite Hcalls', Hcalls1.
  destruct (input_step_frame _ _ _ _ _ _ _ _ Hstep) as (_ & Hj1).
  rewrite (length_filter_ext
             (λ j, inputs (bmg s1) node !! j = Some c)
             (λ j, inputs (bmg s) node !! j = Some c)).
  2:{ intros j Hj. rewrite Hj1; [done|]. intros ->. done. }
  destruct (decide (c' = c)) as [->|Hne'].
  - rewrite decide_True by done. simpl. lia.
  - rewrite decide_False by congruence. lia.
Qed.

Lemma recorded_fix_node_declining s node :
  unresolved s ->
  unresolved (r_fix_node s node)
  ∧ node_fixer_calls c (world (r_fix_node s node)).2
    = node_fixer_calls c (world s).2
      + length (filter (λ x, x = c) (inputs (bmg s) node)).
Proof.
  intros Hun. unfold fix_node.
  destruct (fix_inputs r_node_fixer r_get_error node s) as [s' u'] eqn:Hrun.
  unfold fix_inputs in Hrun.
  destruct (recorded_loop_declining _ _ _ _ _ _ (fix_inputs_indices s node) Hrun Hun)
    as (Hun' & Hcalls').
  rewrite <- (count_positions c (inputs (bmg s) node) []).
  destruct u'; [|done]. fields. split; [done|]. simpl.
  by rewrite node_fixer_calls_snoc, Nat.add_0_r.
Qed.

Lemma recorded_run_nodes_declining nodes :
  ∀ s,
    NoDup nodes -> unresolved s ->
    node_fixer_calls c (world (r_run_nodes s nodes)).2
    = node_fixer_calls c (world s).2 + edges_to c (bmg s) nodes.
Proof.
  induction nodes as [|node nodes IH]; intros s Hnodup Hun.
  { unfold edges_to. simpl. lia. }
  apply NoDup_cons in Hnodup as [Hn Hnodup]. rewrite run_nodes_cons.
  destruct (recorded_fix_node_declining s node Hun) as (Hun1 & Hcalls1).
  rewrite (IH _ Hnodup Hun1), Hcalls1, edges_to_cons.
  rewrite (edges_to_ext c (bmg (r_fix_node s node)) (bmg s) nodes); [lia|].
  intros q Hq.
  destruct (fix_node_cases r_update_type r_node_fixer r_get_error s node) as (Hframe & _).
  apply Hframe. intros ->. done.
Qed.
End DecliningInput.

(** X12.  Let the fixer decline whenever it is asked about [c] (it returns
    [None] or [Inapplicable]), and let each node be enumerated once.  Then
    in one pass the fixer is invoked on [c] once for every input edge of an
    enumerated node that points at [c]: nothing is memoized for [c]. *)
Theorem declined_input_asked_for_every_edge {W E : Type}
  (all_ancestor_nodes : Graph -> list BMGNode)
  (update_type : Graph -> W -> BMGNode -> W) (node_fixer : NodeFixer W)
  (get_error : option (Graph -> W -> BMGNode -> nat -> option E * W))
  (g : Graph) (w : W) (c : BMGNode) :
  (∀ g w, declines (node_fixer g w c).1) ->
  NoDup (all_ancestor_nodes g) ->
  node_fixer_calls c
    (ancestors_first all_ancestor_nodes (rec_update_type update_type)
       (rec_node_fixer node_fixer) (rec_get_error <$> get_error) g (w, [])).2.2
  = edges_to c g (all_ancestor_nodes g).
Proof.
  intros Hdeclining Hnodup. unfold ancestors_first. cbn [fst snd].
  rewrite (recorded_run_nodes_declining update_type node_fixer get_error c Hdeclining
             (all_ancestor_nodes g) (start g (w, [])) Hnodup); [done|].
  split; [apply not_elem_of_empty|apply lookup_empty].
Qed.

Lemma declined_input_asked_for_every_edge_witness :
  node_fixer_calls 1%positive
    (ancestors_first shared_nodes (rec_update_type no_typer)
       (rec_node_fixer (always PyNone)) (Some (rec_get_error edge_error))
       shared_graph ((), [])).2.2
  = edges_to 1%positive shared_graph (shared_nodes shared_graph).
Proof.
  apply (declined_input_asked_for_every_edge shared_nodes no_typer (always PyNone)
           (Some edge_error) shared_graph () 1%positive).
  - intros g w. by left.
  - apply (bool_decide_unpack _). by vm_compute.
Defined.

(** ** A node [fix_problems] has no replacement for *)

Lemma needs_fixing_calls_snoc {E : Type} (c : BMGNode) (log : Log E) (call : Call E) :
  needs_fixing_calls c (log ++ [call])
  = needs_fixing_calls c log + (if is_needs_fixing_call c call then 1 else 0).
Proof.
  unfold needs_fixing_calls. rewrite filter_app, length_app. f_equal.
  destruct (is_needs_fixing_call c call) eqn:Hcall.
  - by rewrite filter_cons_True.
  - rewrite filter_cons_False; [done|]. by rewrite Hcall.
Qed.

Section NeverReplaced.
Context {W E : Type}.
Variable update_type : Graph -> W -> BMGNode -> W.
Variable _needs_fixing : Graph -> W -> BMGNode -> bool * W.
Variable _get_replacement : Graph -> W -> BMGNode -> option BMGNode * W.
Variable _get_error : Graph -> W -> BMGNode -> nat -> option E * W.
Variable c : BMGNode.
Hypothesis never : ∀ g w, (_get_replacement g w c).1 = None.
Implicit Types (t : ProblemFixerBase.State (W * Log E) E) (node : BMGNode) (i : nat).

Local Abbreviation r_update_type := (rec_update_type (E := E) update_type).
Local Abbreviation r_needs_fixing := (rec_needs_fixing (E := E) _needs_fixing).
Local Abbreviation r_get_replacement := (rec_get_replacement (E := E) _get_replacement).
Local Abbreviation r_get_error := (rec_get_error _get_error).
Local Abbreviation r_input_step :=
  (ProblemFixerSteps.input_step r_needs_fixing r_get_replacement r_get_error).
Local Abbreviation r_fix_input :=
  (ProblemFixerBase.fix_input r_needs_fixing r_get_replacement r_get_error).
Local Abbreviation r_fix_node :=
  (ProblemFixerBase.fix_node r_update_type r_needs_fixing r_get_replacement r_get_error).
Local Abbreviation r_run_nodes :=
  (ProblemFixerBase.run_nodes r_update_type r_needs_fixing r_get_replacement
     r_get_error).
Local Abbreviation p_bmg := ProblemFixerBase.bmg.
Local Abbreviation p_log t := (ProblemFixerBase.world t).2.
Local Abbreviation p_replacements := ProblemFixerBase.replacements.

Lemma pf_recorded_step_unreplaced node i c' t t' wrote :
  r_input_step node i c' t t' wrote ->
  p_replacements t !! c = None ->
  p_replacements t' !! c = None
  ∧ needs_fixing_calls c (p_log t')
    = needs_fixing_calls c (p_log t) + (if decide (c' = c) then 1 else 0)
  ∧ (c' = c -> p_bmg t' = p_bmg t).
Proof.
  intros Hstep Hnone.
  assert (∀ needs,
            needs_fixing_calls c (p_log t ++ [needs_fixing_call c' needs])
            = needs_fixing_calls c (p_log t) + (if decide (c' = c) then 1 else 0))
    as Hcount.
  { intros needs. rewrite needs_fixing_calls_snoc. simpl.
    destruct (decide (c' = c)) as [->|Hne].
    - by rewrite bool_decide_eq_true_2.
    - by rewrite bool_decide_eq_false_2. }
  assert (∀ r w1 w2,
            r_get_replacement (p_bmg t) w1 c' = (Some r, w2) -> c' ≠ c) as Hother.
  { intros r w1 w2 Hrepl' ->. apply rec_get_replacement_inv in Hrepl' as [Hres _].
    by rewrite never in Hres. }
  pstep_cases Hstep.
  - rewrite decide_False by congruence. by rewrite Nat.add_0_r.
  - rewrite decide_False by congruence. rewrite Nat.add_0_r.
    split_and!; [done|done|congruence].
  - apply rec_needs_fixing_inv in Hneeds as [_ ->]. by rewrite Hcount.
  - assert (c' ≠ c) as Hne' by (by eapply Hother).
    apply rec_needs_fixing_inv in Hneeds as [_ Hlog1].
    apply rec_get_replacement_inv in Hrepl as [_ ->]. rewrite Hlog1.
    rewrite needs_fixing_calls_snoc, Hcount. simpl.
    rewrite lookup_insert_ne by done. split_and!; [done|lia|done].
  - assert (c' ≠ c) as Hne' by (by eapply Hother).
    apply rec_needs_fixing_inv in Hneeds as [_ Hlog1].
    apply rec_get_replacement_inv in Hrepl as [_ ->]. rewrite Hlog1.
    rewrite needs_fixing_calls_snoc, Hcount. simpl.
    rewrite lookup_insert_ne by done. split_and!; [done|lia|done].
  - apply rec_needs_fixing_inv in Hneeds as [_ Hlog1].
    apply rec_get_replacement_inv in Hrepl as [_ ->]. rewrite Hlog1.
    rewrite needs_fixing_calls_snoc, Hcount. simpl. split_and!; [done|lia|done].
  - apply rec_needs_fixing_inv in Hneeds as [_ Hlog1].
    apply rec_get_replacement_inv in Hrepl as [_ Hlog2].
    apply rec_get_error_inv in Hask as ->. rewrite Hlog2, Hlog1.
    do 2 rewrite needs_fixing_calls_snoc. rewrite Hcount. simpl.
    split_and!; [done|lia|done].
Qed.

Lemma pf_input_step_frame node i c' t t' wrote j :
  r_input_step node i c' t t' wrote ->
  i ≠ j -> inputs (p_bmg t') node !! j = inputs (p_bmg t) node !! j.
Proof.
  intros Hstep Hij.
  destruct (pf_input_step_graph _ _ _ _ _ _ _ _ _ Hstep)
    as [(_ & ->)|(_ & r & _ & ->)]; [done|].
  by apply inputs_set_input_lookup_ne.
Qed.

Lemma pf_recorded_loop_unreplaced node indices :
  ∀ t u t' u',
    NoDup indices ->
    foldl (r_fix_input node) (t, u) indices = (t', u') ->
    p_replacements t !! c = None ->
    p_replacements t' !! c = None
    ∧ needs_fixing_calls c (p_log t')
      = needs_fixing_calls c (p_log t)
        + length (filter (λ j, inputs (p_bmg t) node !! j = Some c) indices).
Proof.
  induction indices as [|i indices IH]; intros t u t' u' Hnodup Hrun Hnone.
  { simpl in Hrun. injection Hrun as <- <-. split; [done|]. simpl. lia. }
  apply NoDup_cons in Hnodup as [Hi Hnodup]. rewrite foldl_step in Hrun.
  rewrite filter_cons.
  destruct (pf_fix_input_cases r_needs_fixing r_get_replacement r_get_error node t u i)
    as [(Hlook & Heq)|(c' & t1 & wrote & Hc & Heq & Hstep)]; rewrite Heq in Hrun.
  { rewrite decide_False by congruence. by apply (IH _ _ _ _ Hnodup Hrun). }
  destruct (pf_recorded_step_unreplaced _ _ _ _ _ _ Hstep Hnone)
    as (Hnone1 & Hcalls1 & _).
  destruct (IH _ _ _ _ Hnodup Hrun Hnone1) as (Hnone' & Hcalls').
  split; [done|]. rewrite Hcalls', Hcalls1.
  rewrite (length_filter_ext
             (λ j, inputs (p_bmg t1) node !! j = Some c)
             (λ j, inputs (p_bmg t) node !! j = Some c)).
  2:{ intros j Hj. rewrite (pf_input_step_frame _ _ _ _ _ _ j Hstep); [done|].
      intros ->. done. }
  destruct (decide (c' = c)) as [->|Hne'].
  - rewrite decide_True by done. simpl. lia.
  - rewrite decide_False by congruence. lia.
Qed.

Lemma pf_recorded_fix_node_unreplaced t node :
  p_replacements t !! c = None ->
  p_replacements (r_fix_node t node) !! c = None
  ∧ needs_fixing_calls c (p_log (r_fix_node t node))
    = needs_fixing_calls c (p_log t)
      + length (filter (λ x, x = c) (inputs (p_bmg t) node)).
Proof.
  intros Hnone. unfold ProblemFixerBase.fix_node.
  destruct (ProblemFixerBase.fix_inputs r_needs_fixing r_get_replacement r_get_error
              node t) as [t' u'] eqn:Hrun.
  unfold ProblemFixerBase.fix_inputs in Hrun.
  destruct (pf_recorded_loop_unreplaced _ _ _ _ _ _ (NoDup_seq _ _) Hrun Hnone)
    as (Hnone' & Hcalls').
  rewrite <- (count_positions c (inputs (p_bmg t) node) []).
  destruct u'; [|done]. pfields. split; [done|]. simpl.
  by rewrite needs_fixing_calls_snoc, Nat.add_0_r.
Qed.

Lemma pf_recorded_run_nodes_unreplaced nodes :
  ∀ t,
    NoDup nodes -> p_replacements t !! c = None ->
    needs_fixing_calls c (p_log (r_run_nodes t nodes))
    = needs_fixing_calls c (p_log t) + edges_to c (p_bmg t) nodes.
Proof.
  induction nodes as [|node nodes IH]; intros t Hnodup Hnone.
  { unfold edges_to. simpl. lia. }
  apply NoDup_cons in Hnodup as [Hn Hnodup]. rewrite pf_run_nodes_cons.
  destruct (pf_recorded_fix_node_unreplaced t node Hnone) as (Hnone1 & Hcalls1).
  rewrite (IH _ Hnodup Hnone1), Hcalls1, edges_to_cons.
  rewrite (edges_to_ext c (p_bmg (r_fix_node t node)) (p_bmg t) nodes); [lia|].
  intros q Hq.
  destruct (pf_fix_node_cases r_update_type r_needs_fixing r_get_replacement
              r_get_error t node) as (Hframe & _).
  apply Hframe. intros ->. done.
Qed.

(** The edges that point at [c] stay where they are. *)
Lemma pf_run_nodes_unreplaced_edges (g : Graph) nodes t :
  p_replacements t !! c = None ->
  (∀ node i, inputs g node !! i = Some c -> inputs (p_bmg t) node !! i = Some c) ->
  ∀ node i,
    inputs g node !! i = Some c ->
    inputs (p_bmg (r_run_nodes t nodes)) node !! i = Some c.
Proof.
  intros Hnone Hedges.
  pose (P := λ t,
          p_replacements t !! c = None
          ∧ ∀ node i, inputs g node !! i = Some c -> inputs (p_bmg t) node !! i = Some c).
  assert (P (r_run_nodes t nodes)) as [_ Hfinal]; [|done].
  apply (pf_run_nodes_inv r_update_type r_needs_fixing r_get_replacement r_get_error P);
    [|done|done].
  clear t Hnone Hedges. intros node i c' t t' wrote Hstep Hc [Hnone Hedges].
  destruct (pf_recorded_step_unreplaced _ _ _ _ _ _ Hstep Hnone) as (Hnone' & _ & Hsame).
  split; [done|]. intros node0 i0 H0. specialize (Hedges node0 i0 H0).
  destruct (pf_input_step_graph _ _ _ _ _ _ _ _ _ Hstep)
    as [(_ & ->)|(_ & r & _ & Hg)]; [done|].
  destruct (decide (c' = c)) as [Hcc|Hcc]; [by rewrite (Hsame Hcc)|].
  rewrite Hg.
  destruct (decide (node = node0)) as [<-|Hn0].
  - destruct (decide (i = i0)) as [<-|Hi0]; [congruence|].
    by rewrite inputs_set_input_lookup_ne.
  - by rewrite inputs_set_input_ne.
Qed.
End NeverReplaced.

(** X13.  Let [_get_replacement] never have an answer for [c].  Then
    [fix_problems] leaves every edge that points at [c] where it is, and,
    when each node is enumerated once, it asks [_needs_fixing] about [c] once
    for every input edge of an enumerated node that points at [c]: only a
    replacement is memoized, not the answers "in order" or "unrepairable". *)
Theorem unreplaced_input_asked_for_every_edge {W E : Type}
  (all_ancestor_nodes : Graph -> list BMGNode)
  (update_type : Graph -> W -> BMGNode -> W)
  (_needs_fixing : Graph -> W -> BMGNode -> bool * W)
  (_get_replacement : Graph -> W -> BMGNode -> option BMGNode * W)
  (_get_error : Graph -> W -> BMGNode -> nat -> option E * W)
  (g : Graph) (w : W) (report : ErrorReport E) (c : BMGNode) :
  (∀ g w, (_get_replacement g w c).1 = None) ->
  let out :=
    ProblemFixerBase.fix_problems all_ancestor_nodes (rec_update_type update_type)
      (rec_needs_fixing _needs_fixing) (rec_get_replacement _get_replacement)
      (rec_get_error _get_error) g (w, []) report in
  (∀ node i, inputs g node !! i = Some c -> inputs out.1.2 node !! i = Some c)
  ∧ (NoDup (all_ancestor_nodes g) ->
     needs_fixing_calls c out.2.2 = edges_to c g (all_ancestor_nodes g)).
Proof.
  intros Hnever out. unfold out, ProblemFixerBase.fix_problems. cbn [fst snd]. split.
  - by apply (pf_run_nodes_unreplaced_edges update_type _needs_fixing _get_replacement
                _get_error c Hnever g).
  - intros Hnodup.
    by rewrite (pf_recorded_run_nodes_unreplaced update_type _needs_fixing
                  _get_replacement _get_error c Hnever (all_ancestor_nodes g)
                  (ProblemFixerBase.start g (w, []) report) Hnodup).
Qed.

Lemma unreplaced_input_asked_for_every_edge_witness :
  let out :=
    ProblemFixerBase.fix_problems shared_nodes (rec_update_type no_typer)
      (rec_needs_fixing (pure_needs_fixing (λ _, true)))
      (rec_get_replacement (pure_get_replacement (λ _, None)))
      (rec_get_error edge_error) shared_graph ((), []) [] in
  inputs out.1.2 3%positive !! 0 = Some 1%positive
  ∧ needs_fixing_calls 1%positive out.2.2
    = edges_to 1%positive shared_graph (shared_nodes shared_graph).
Proof.
  intros out.
  destruct (unreplaced_input_asked_for_every_edge shared_nodes no_typer
              (pure_needs_fixing (λ _, true)) (pure_get_replacement (λ _, None))
              edge_error shared_graph () [] 1%positive) as [Hedges Hcalls].
  - reflexivity.
  - split; [by apply Hedges|]. apply Hcalls.
    apply (bool_decide_unpack _). by vm_compute.
Defined.

(** ** Nothing to look at *)

(** X14.  When no enumerated node has an input (in particular when the
    traversal is empty), neither driver calls any collaborator: the graph
    fixer returns [progress = false] and an empty report, [fix_problems]
    leaves its report as it was, and both leave the graph and the world as
    they were. *)
Theorem no_inputs_no_calls {W E : Type}
  (all_ancestor_nodes : Graph -> list BMGNode)
  (update_type : Graph -> W -> BMGNode -> W) (node_fixer : NodeFixer W)
  (get_error : option (Graph -> W -> BMGNode -> nat -> option E * W))
  (_needs_fixing : Graph -> W -> BMGNode -> bool * W)
  (_get_replacement : Graph -> W -> BMGNode -> option BMGNode * W)
  (_get_error : Graph -> W -> BMGNode -> nat -> option E * W)
  (g : Graph) (w : W) (report : ErrorReport E) :
  (∀ node, node ∈ all_ancestor_nodes g -> inputs g node = []) ->
  ancestors_first all_ancestor_nodes update_type node_fixer get_error g w
  = (false, [], g, w)
  ∧ ProblemFixerBase.fix_problems all_ancestor_nodes update_type _needs_fixing
      _get_replacement _get_error g w report
    = (report, g, w).
Proof.
  intros Hempty. split.
  - unfold ancestors_first.
    assert (run_nodes update_type node_fixer get_error (start g w)
              (all_ancestor_nodes g) = start g w) as ->; [|done].
    induction (all_ancestor_nodes g) as [|node nodes IH]; [done|].
    rewrite run_nodes_cons.
    assert (fix_node update_type node_fixer get_error (start g w) node = start g w)
      as ->.
    { unfold fix_node, fix_inputs. cbn [bmg start].
      rewrite (Hempty node) by (by left). done. }
    apply IH. intros q Hq. apply Hempty. by right.
  - unfold ProblemFixerBase.fix_problems.
    assert (ProblemFixerBase.run_nodes update_type _needs_fixing _get_replacement
              _get_error (ProblemFixerBase.start g w report) (all_ancestor_nodes g)
            = ProblemFixerBase.start g w report) as ->; [|done].
    induction (all_ancestor_nodes g) as [|node nodes IH]; [done|].
    rewrite pf_run_nodes_cons.
    assert (ProblemFixerBase.fix_node update_type _needs_fixing _get_replacement
              _get_error (ProblemFixerBase.start g w report) node
            = ProblemFixerBase.start g w report) as ->.
    { unfold ProblemFixerBase.fix_node, ProblemFixerBase.fix_inputs.
      cbn [ProblemFixerBase.bmg ProblemFixerBase.start].
      rewrite (Hempty node) by (by left). done. }
    apply IH. intros q Hq. apply Hempty. by right.
Qed.

Lemma no_inputs_no_calls_witness :
  ancestors_first (λ _, [1%positive; 2%positive]) no_typer (always Fatal)
    (Some edge_error) fan_in_graph ()
  = (false, [], fan_in_graph, ())
  ∧ ProblemFixerBase.fix_problems (λ _, [1%positive; 2%positive]) no_typer
      (pure_needs_fixing (λ _, true)) (pure_get_replacement (λ _, None))
      edge_error fan_in_graph () []
    = ([], fan_in_graph, ()).
Proof.
  apply (no_inputs_no_calls (λ _, [1%positive; 2%positive]) no_typer (always Fatal)
           (Some edge_error) (pure_needs_fixing (λ _, true))
           (pure_get_replacement (λ _, None)) edge_error fan_in_graph () []).
  intros node Hnode.
  apply elem_of_cons in Hnode as [->|Hnode]; [reflexivity|].
  apply elem_of_cons in Hnode as [->|Hnode]; [reflexivity|].
  by apply elem_of_nil in Hnode.
Defined.
